(** * The signal bot of [bot.py]: tick buffers, scoring, notification cycle

    A shallow embedding of [bot.py]: the per-market tick buffers filled by
    [on_message], the digit statistics of [analyze_market], the market
    selection and the pre-alert / main / expiry cycle of
    [fetch_and_analyze], with the Telegram requests recorded in a trace.

    Conventions.
    - A Python function that can raise returns a [result]; the functions
      that touch the module globals or the network run in the monad [M], a
      state monad over [state] that also carries the raised exception.
    - Python floats are kept behind the interface [Arith]: the program is
      written once over it, and read at three instances.  [float_arith]
      is binary64 as the floats of the machine; it evaluates the program
      on concrete buffers.  [binary64_arith] is binary64 written out:
      the fractions that are binary64 numbers, each operation being the
      exact one rounded to nearest, ties to even, subnormals included;
      it has no infinity and no NaN, which the scores of a buffer of
      digits never reach (they stay between 0 and 1.5), and the bounds
      on the scores are proved there.  [R_arith] is the arithmetic
      without rounding.  What only depends on the order of the scores is
      proved for every instance that satisfies [ArithLaws], which the
      three do, the machine floats with their NaN.
    - [str] and [json.loads] are library functions taken as parameters
      ([py_str], [json_loads]); [statistics.pstdev] is written out as in
      CPython from 3.11 on: the variance is an exact fraction and
      [_float_sqrt_of_frac] gives its root correctly rounded.
    - The network is a parameter too: [net i] is what the [i]-th event of
      the trace meets when it is a request.
    - The two threads are not interleaved: the feed handler and the
      notification cycle are each modelled on their own, and no tick
      arrives while a cycle sleeps.  The wall-clock times printed in the
      messages are left out. *)

From Stdlib Require Import PrimFloat.
From Stdlib Require Floats Uint63 DecimalString.
From Stdlib Require Import ZArith QArith Reals Qreals Lra Lia String Ascii.
From stdpp Require Import gmap strings list.

Set Warnings "-register-all".
Local Open Scope string_scope.
Local Open Scope Z_scope.

(** ** Exceptions and the error monad *)

Inductive exn : Type :=
| ValueError | KeyError | TypeError | IndexError
| JSONDecodeError | StatisticsError | OSError | RequestException.

Inductive result (A : Type) : Type :=
| Return (a : A)
| Raise (e : exn).
Arguments Return {A} a.
Arguments Raise {A} e.

Definition rbind {A B} (r : result A) (k : A → result B) : result B :=
  match r with
  | Return a => k a
  | Raise e => Raise e
  end.

Declare Scope result_scope.
Delimit Scope result_scope with res.
Notation "'let*' x ':=' r 'in' k" := (rbind r (λ x, k))
  (at level 10, x name, r at level 100, k at level 200) : result_scope.

(** [[f(x) for x in l]] where [f] can raise: the first failure wins. *)
Fixpoint rmap {A B} (f : A → result B) (l : list A) : result (list B) :=
  match l with
  | [] => Return []
  | x :: l' =>
      (let* y := f x in
       let* ys := rmap f l' in
       Return (y :: ys))%res
  end.

(** ** Values produced by [json.loads] *)

Inductive json : Type :=
| JNull
| JBool (b : bool)
| JInt (z : Z)
| JFloat (x : float)
| JStr (s : string)
| JList (l : list json)
| JDict (d : list (string * json)).

(** Lookup in a loaded object (its keys are unique). *)
Fixpoint dict_get (k : string) (d : list (string * json)) : option json :=
  match d with
  | [] => None
  | (k', v) :: d' => if String.eqb k k' then Some v else dict_get k d'
  end.

(** ** Float arithmetic, as an interface *)

Class Arith (F : Type) : Type := {
  of_int : Z → F;            (* int to float, as in [1 + x] or [n / 5] *)
  lit_0_4 : F;               (* the literal [0.4] *)
  fadd : F → F → F;
  fsub : F → F → F;
  fmul : F → F → F;
  fdiv : F → F → F;
  sqrt_of_frac : Q → F;      (* the root [statistics.pstdev] takes of a fraction *)
  fgt : F → F → bool;        (* [a > b] *)
}.

Declare Scope float_op_scope.
Delimit Scope float_op_scope with fl.
Infix "+" := fadd : float_op_scope.
Infix "-" := fsub : float_op_scope.
Infix "*" := fmul : float_op_scope.
Infix "/" := fdiv : float_op_scope.

(** What the proofs on the order of the scores use of an arithmetic:
    [*] commutes, nothing is greater than itself, and what does not
    exceed [b] does not exceed anything greater than [b].  The three hold
    of binary64, NaN included, and of the reals. *)
Class ArithLaws (F : Type) `{Arith F} : Prop := {
  fmul_comm : ∀ a b : F, fmul a b = fmul b a;
  fgt_irrefl : ∀ a : F, fgt a a = false;
  fgt_above : ∀ a b c : F, fgt a b = true → fgt c b = false → fgt c a = false;
}.

(** ** Builtins on strings and sequences *)

(** [s[-1]] *)
Fixpoint py_last_char (s : string) : result ascii :=
  match s with
  | EmptyString => Raise IndexError
  | String c EmptyString => Return c
  | String _ s' => py_last_char s'
  end.

(** [int(c)] for a one-character string: an ASCII decimal digit or
    [ValueError]. *)
Definition py_int_of_char (c : ascii) : result Z :=
  let n := Z.of_nat (nat_of_ascii c) in
  if (48 <=? n) && (n <=? 57) then Return (n - 48) else Raise ValueError.

(** [l[-n:]] *)
Definition py_last_n {A} (n : nat) (l : list A) : list A :=
  drop (length l - n) l.

(** [sum(b for ...)] over booleans: [True] counts 1. *)
Fixpoint py_sum_bool (bs : list bool) : Z :=
  match bs with
  | [] => 0
  | b :: bs' => (if b then 1 else 0) + py_sum_bool bs'
  end.

(** [len(l)] as a Python int. *)
Definition len {A} (l : list A) : Z := Z.of_nat (length l).

(** ** [statistics.pstdev] *)

Definition Qsum (l : list Q) : Q := foldr Qplus (0#1)%Q l.

(** The population variance [Σ (x - μ)² / n], computed exactly, as a
    fraction in lowest terms. *)
Definition pvariance (data : list Z) : Q :=
  let n := (len data # 1)%Q in
  let mu := (Qsum (map (λ x, x # 1) data) / n)%Q in
  Qred (Qsum (map (λ x, ((x # 1) - mu) * ((x # 1) - mu)) data) / n)%Q.

(** [n.bit_length()] *)
Definition bit_length (n : Z) : Z := if n =? 0 then 0 else Z.log2 (Z.abs n) + 1.

(** [_integer_sqrt_of_frac_rto(n, m)]: the root of [n/m] rounded to an
    integer, to odd: [a = math.isqrt(n // m); a | (a*a*m != n)]. *)
Definition integer_sqrt_of_frac_rto (n m : Z) : Z :=
  let a := Z.sqrt (n / m) in
  Z.lor a (if a * a * m =? n then 0 else 1).

(** [_sqrt_bit_width = 2 * sys.float_info.mant_dig + 3] *)
Definition sqrt_bit_width : Z := 2 * 53 + 3.

(** [_float_sqrt_of_frac(n, m)] up to its last line: the two ints
    [numerator] and [denominator] whose quotient, as a float, is returned. *)
Definition float_sqrt_of_frac (n m : Z) : Z * Z :=
  let q := (bit_length n - bit_length m - sqrt_bit_width) / 2 in
  if 0 <=? q
  then (Z.shiftl (integer_sqrt_of_frac_rto n (Z.shiftl m (2 * q))) q, 1)
  else (integer_sqrt_of_frac_rto (Z.shiftl n (-2 * q)) m, Z.shiftl 1 (- q)).

(** ** binary64, written out

    The floats of CPython are the binary64 numbers of IEEE 754: the
    rationals [m × 2^e] with [|m| < 2^53] and [-1074 ≤ e], and every
    operation returns the exact result rounded to the nearest of them,
    to the one of even [m] in a tie.  They are kept here as fractions in
    lowest terms.  Infinities and NaN are left out: nothing the program
    computes from a buffer of digits leaves the range, and a division by
    zero, which raises in Python, is not reached. *)

(** The integer nearest to [a/b], for [b > 0]; the even one in a tie. *)
Definition rne_div (a b : Z) : Z :=
  let q := a / b in
  let r := a mod b in
  if 2 * r <? b then q
  else if b <? 2 * r then q + 1
  else if Z.even q then q else q + 1.

(** For [n, d > 0], the [k] with [2^(k-1) ≤ n/d < 2^k]. *)
Definition mag_pos (n d : Z) : Z :=
  let t := Z.log2 n - Z.log2 d in
  if 0 <=? t
  then (if d * 2 ^ t <=? n then t + 1 else t)
  else (if d <=? n * 2 ^ (- t) then t + 1 else t).

(** The exponent at which [n/d] is rounded: 53 bits are kept, and no
    exponent is below -1074. *)
Definition cexp_pos (n d : Z) : Z := Z.max (mag_pos n d - 53) (-1074).

(** The integer nearest to [n/d / 2^e]. *)
Definition mantissa (n d e : Z) : Z :=
  if 0 <=? e then rne_div n (d * 2 ^ e) else rne_div (n * 2 ^ (- e)) d.

(** [m × 2^e] as a fraction in lowest terms. *)
Definition dyadic (m e : Z) : Q :=
  if 0 <=? e then inject_Z (m * 2 ^ e) else Qred (m # Z.to_pos (2 ^ (- e))).

(** [n/d], for [n, d > 0], rounded. *)
Definition round_pos (n d : Z) : Q :=
  let e := cexp_pos n d in dyadic (mantissa n d e) e.

(** Rounding to binary64. *)
Definition round64 (x : Q) : Q :=
  match Qnum x with
  | Z0 => 0%Q
  | Zpos n => round_pos (Zpos n) (Zpos (Qden x))
  | Zneg n => Qopp (round_pos (Zpos n) (Zpos (Qden x)))
  end.

Section Scoring.
Context {F : Type} `{Arith F}.

(** [statistics.pstdev(data)] on ints: [StatisticsError] on no data,
    else the root of the exact variance. *)
Definition pstdev (data : list Z) : result F :=
  match data with
  | [] => Raise StatisticsError
  | _ => Return (sqrt_of_frac (pvariance data))
  end.

(** [str] on the values [json.loads] produces. *)
Variable py_str : json → string.

(** [int(str(t)[-1])] *)
Definition last_digit (t : json) : result Z :=
  (let* c := py_last_char (py_str t) in py_int_of_char c)%res.

(** [[int(str(t)[-1]) for t in ticks]] *)
Definition last_digits_of (ticks : list json) : result (list Z) :=
  rmap last_digit ticks.

Definition even_count (last_digits : list Z) : Z :=
  py_sum_bool (map (λ d, d mod 2 =? 0) last_digits).
Definition odd_count (last_digits : list Z) : Z :=
  len last_digits - even_count last_digits.
Definition over3_count (last_digits : list Z) : Z :=
  py_sum_bool (map (λ d, d >? 3) last_digits).
Definition under6_count (last_digits : list Z) : Z :=
  py_sum_bool (map (λ d, d <? 6) last_digits).

Definition streak_even (last5 : list Z) : F :=
  (of_int (py_sum_bool (map (λ d, d mod 2 =? 0) last5)) / of_int 5)%fl.
Definition streak_over3 (last5 : list Z) : F :=
  (of_int (py_sum_bool (map (λ d, d >? 3) last5)) / of_int 5)%fl.

(** The dict [strength], in insertion order. *)
Definition strength (last_digits : list Z) (vol : F) : list (string * F) :=
  let last5 := py_last_n 5 last_digits in
  let n := of_int (len last_digits) in
  [ ("Even",
      (of_int (even_count last_digits) / n + streak_even last5 * lit_0_4)
      / (of_int 1 + vol / of_int 10));
    ("Odd",
      (of_int (odd_count last_digits) / n
       + (of_int 1 - streak_even last5) * lit_0_4)
      / (of_int 1 + vol / of_int 10));
    ("Over 3",
      (of_int (over3_count last_digits) / n + streak_over3 last5 * lit_0_4)
      / (of_int 1 + vol / of_int 10));
    ("Under 6",
      (of_int (under6_count last_digits) / n
       + (of_int 1 - streak_over3 last5) * lit_0_4)
      / (of_int 1 + vol / of_int 10)) ]%fl.

(** [max(d, key=d.get)] after the first key: a later key replaces the
    current one only when its value is strictly greater. *)
Fixpoint max_from (best : string * F) (rest : list (string * F)) : string * F :=
  match rest with
  | [] => best
  | kv :: rest' => max_from (if fgt kv.2 best.2 then kv else best) rest'
  end.

(** [best = max(d, key=d.get)] together with [d[best]]. *)
Definition py_max_item (d : list (string * F)) : result (string * F) :=
  match d with
  | [] => Raise ValueError
  | kv :: rest => Return (max_from kv rest)
  end.

(** [analyze_market]: [None] below 30 ticks, else the best signal and its
    confidence; [ValueError] when a tick does not print with a final
    decimal digit. *)
Definition analyze_market (market : string) (ticks : list json)
  : result (option (string * F)) :=
  if (len ticks <? 30) then Return None
  else
    (let* last_digits := last_digits_of ticks in
     let* vol := pstdev (py_last_n 20 last_digits) in
     let* best := py_max_item (strength last_digits vol) in
     Return (Some best))%res.
End Scoring.

(** [2^e] as a real, and the reals that are binary64 numbers. *)
Definition bpow (e : Z) : R := powerRZ 2 e.
Definition representable (p : R) : Prop :=
  ∃ m e : Z, p = (IZR m * bpow e)%R ∧ Z.abs m ≤ 2 ^ 53 ∧ -1074 ≤ e.

(** Sums and means of ints as reals, to state what the exact variance
    is: the mean squared distance to the mean. *)
Definition Rsum (l : list R) : R := foldr Rplus 0%R l.
Definition mean_R (data : list Z) : R := (Rsum (map IZR data) / IZR (len data))%R.

(** ** Three instances of the arithmetic *)

(** Ideal arithmetic on the reals: no rounding. *)
#[export] Instance R_arith : Arith R := {|
  of_int := IZR;
  lit_0_4 := (4 / 10)%R;
  fadd := Rplus;
  fsub := Rminus;
  fmul := Rmult;
  fdiv := Rdiv;
  sqrt_of_frac := λ q, sqrt (Q2R q);
  fgt := λ a b, if Rgt_dec a b then true else false;
|}.

(** binary64 written out: each operation is the exact one, rounded.  An
    int operand is taken exactly: the program converts the literals 1 and
    10 only, and its other ints meet in [int / int], which Python rounds
    once, from the exact quotient. *)
#[export] Instance binary64_arith : Arith Q := {|
  of_int := inject_Z;
  lit_0_4 := round64 (4 # 10);
  fadd := λ a b, round64 (a + b);
  fsub := λ a b, round64 (a - b);
  fmul := λ a b, round64 (a * b);
  fdiv := λ a b, round64 (a / b);
  sqrt_of_frac := λ q,
    let '(numerator, denominator) := float_sqrt_of_frac (Qnum q) (Zpos (Qden q)) in
    round64 (numerator # Z.to_pos denominator);
  fgt := λ a b, (Qnum b * QDen a <? Qnum a * QDen b)%Z;
|}.

(** int to binary64, for the ints below 2^63 in absolute value. *)
Definition float_of_Z (z : Z) : float :=
  match z with
  | Z0 => PrimFloat.zero
  | Zpos _ => PrimFloat.of_uint63 (Uint63.of_Z z)
  | Zneg p => PrimFloat.opp (PrimFloat.of_uint63 (Uint63.of_Z (Zpos p)))
  end.

(** binary64 as the floats of the machine, NaN and infinities included;
    the two ints of [_float_sqrt_of_frac] are below 2^63 for the variance
    of digits. *)
#[export] Instance float_arith : Arith float := {|
  of_int := float_of_Z;
  lit_0_4 := 0x1.999999999999ap-2%float;
  fadd := PrimFloat.add;
  fsub := PrimFloat.sub;
  fmul := PrimFloat.mul;
  fdiv := PrimFloat.div;
  sqrt_of_frac := λ q,
    let '(numerator, denominator) := float_sqrt_of_frac (Qnum q) (Zpos (Qden q)) in
    PrimFloat.div (float_of_Z numerator) (float_of_Z denominator);
  fgt := λ a b, PrimFloat.ltb b a;
|}.

(** [str] on an int: its decimal numeral. *)
Definition str_int (z : Z) : string := DecimalString.NilZero.string_of_int (Z.to_int z).

(** ** Configuration *)

Definition MARKETS : list string := ["R_10"; "R_25"; "R_50"; "R_75"; "R_100"].

Definition MARKET_NAMES : list (string * string) :=
  [ ("R_10", "Volatility 10 Index");
    ("R_25", "Volatility 25 Index");
    ("R_50", "Volatility 50 Index");
    ("R_75", "Volatility 75 Index");
    ("R_100", "Volatility 100 Index") ].

(** [MARKET_NAMES.get(k, default)] *)
Fixpoint names_get (k : string) (default : string) (d : list (string * string)) : string :=
  match d with
  | [] => default
  | (k', v) :: d' => if String.eqb k k' then v else names_get k default d'
  end.

(** [{market: [] for market in MARKETS}] *)
Definition market_ticks_init : gmap string (list json) :=
  list_to_map (map (λ market, (market, [])) MARKETS).

(** ** The world: module globals, network, trace *)

(** The caption of a notification, by the values the program formats
    into it; the wall-clock times printed in the texts are left out.
    [extra_note], which [fetch_and_analyze] computes for the signal
    Over 3, is in none of the three texts. *)
Inductive caption (F : Type) : Type :=
| PreAlert
| MainSignal (market_name : string) (best_signal : string)
             (entry_digit : option Z) (best_confidence : F)
| SignalExpired (market_name : string).
Arguments PreAlert {F}.
Arguments MainSignal {F} _ _ _ _.
Arguments SignalExpired {F} _.

(** What the program asks of the outside, in order. *)
Inductive event (F : Type) : Type :=
| SendPhoto (message : caption F)
| DeleteMessage (message_id : Z)
| Sleep (seconds : Z).
Arguments SendPhoto {F} _.
Arguments DeleteMessage {F} _.
Arguments Sleep {F} _.

(** What a request meets: a response that is [ok] and carries
    [result.message_id], a response that is not [ok], or an exception
    ([open] on the image or [requests.post] raised). *)
Inductive response : Type :=
| HttpOk (message_id : Z)
| HttpError
| Raises (e : exn).

Record state (F : Type) : Type := mkState {
  market_ticks : gmap string (list json);
  active_messages : list Z;
  last_expired_id : option Z;
  trace : list (event F);
}.
Arguments mkState {F} _ _ _ _.
Arguments market_ticks {F} _.
Arguments active_messages {F} _.
Arguments last_expired_id {F} _.
Arguments trace {F} _.

(** A computation on the state that returns or raises; the state it
    leaves is kept in both cases. *)
Definition M (F A : Type) : Type := state F → result A * state F.

Definition ret {F A} (a : A) : M F A := λ st, (Return a, st).
Definition raise {F A} (e : exn) : M F A := λ st, (Raise e, st).
Definition bind {F A B} (m : M F A) (k : A → M F B) : M F B :=
  λ st, match m st with
        | (Return a, st') => k a st'
        | (Raise e, st') => (Raise e, st')
        end.
Definition lift {F A} (r : result A) : M F A := λ st, (r, st).
Definition get {F} : M F (state F) := λ st, (Return st, st).

Declare Scope M_scope.
Delimit Scope M_scope with M.
Notation "x ← m ; k" := (bind m (λ x, k))
  (at level 20, m at level 100, k at level 200, only parsing) : M_scope.
Notation "m ;; k" := (bind m (λ _, k))
  (at level 100, k at level 200, right associativity) : M_scope.

(** [for x in l: body(x)] *)
Fixpoint for_each {F A} (l : list A) (body : A → M F unit) : M F unit :=
  match l with
  | [] => ret tt
  | x :: l' => (body x ;; for_each l' body)%M
  end.

(** Truth value of [last_expired_id]: [None] and [0] are false. *)
Definition truthy_id (i : option Z) : bool :=
  match i with
  | None => false
  | Some z => negb (z =? 0)
  end.

(** Truth value of [best_market]: [None] and the empty string are false. *)
Definition truthy_str (s : option string) : option string :=
  match s with
  | Some EmptyString => None
  | _ => s
  end.

(** ** Subscripting and membership on loaded values *)

(** [key in data] for a string [key] *)
Definition py_contains (key : string) (data : json) : result bool :=
  match data with
  | JDict d => Return (bool_decide (is_Some (dict_get key d)))
  | JList l => Return (existsb (λ x, match x with
                                     | JStr s => String.eqb s key
                                     | _ => false
                                     end) l)
  | JStr s => Return (bool_decide (is_Some (String.index 0 key s)))
  | JNull | JBool _ | JInt _ | JFloat _ => Raise TypeError
  end.

(** [data[key]] for a string [key] *)
Definition py_getitem (data : json) (key : string) : result json :=
  match data with
  | JDict d => match dict_get key d with
               | Some v => Return v
               | None => Raise KeyError
               end
  | _ => Raise TypeError
  end.

(** [d[key]] on the dict [market_ticks], whose keys are strings: a list
    or dict key is unhashable, any other absent key is a [KeyError]. *)
Definition ticks_getitem (d : gmap string (list json)) (key : json)
  : result (string * list json) :=
  match key with
  | JStr s => match d !! s with
              | Some buf => Return (s, buf)
              | None => Raise KeyError
              end
  | JList _ | JDict _ => Raise TypeError
  | JNull | JBool _ | JInt _ | JFloat _ => Raise KeyError
  end.

Section Bot.
Context {F : Type} `{Arith F}.

(** [str], [json.loads], and the reply the network gives to the request
    issued as the [i]-th event of the trace. *)
Variable py_str : json → string.
Variable json_loads : string → result json.
Variable net : nat → response.

Local Abbreviation M := (M F).
Local Abbreviation state := (state F).

(** Add an event at the end of the trace. *)
Definition emit (e : event F) : M unit :=
  λ st, (Return tt, mkState (market_ticks st) (active_messages st)
                            (last_expired_id st) (trace st ++ [e])%list).

(** Assignments to the three globals. *)
Definition set_market_ticks (d : gmap string (list json)) : M unit :=
  λ st, (Return tt, mkState d (active_messages st) (last_expired_id st) (trace st)).
Definition set_active_messages (l : list Z) : M unit :=
  λ st, (Return tt, mkState (market_ticks st) l (last_expired_id st) (trace st)).
Definition set_last_expired_id (i : option Z) : M unit :=
  λ st, (Return tt, mkState (market_ticks st) (active_messages st) i (trace st)).

(** [requests.post]: the request is recorded, the network answers. *)
Definition requests_post (e : event F) : M response :=
  (st ← get;
   emit e;;
   match net (length (trace st)) with
   | Raises x => raise x
   | r => ret r
   end)%M.

(** [time.sleep(seconds)] *)
Definition sleep (seconds : Z) : M unit := emit (Sleep seconds).

(** [send_telegram_message]: the message id when the response is [ok],
    registered in [active_messages] unless [keep]; [None] otherwise. *)
Definition send_telegram_message (message : caption F) (keep : bool) : M (option Z) :=
  (resp ← requests_post (SendPhoto message);
   match resp with
   | HttpOk msg_id =>
       (if keep then ret tt
        else (st ← get; set_active_messages (active_messages st ++ [msg_id])%list));;
       ret (Some msg_id)
   | _ => ret None
   end)%M.

(** [delete_messages]: one request per id of [active_messages], whose
    responses are not looked at; then the list is emptied. *)
Definition delete_messages : M unit :=
  (st ← get;
   for_each (active_messages st)
     (λ msg_id, _ ← requests_post (DeleteMessage msg_id); ret tt);;
   set_active_messages [])%M.

(** [delete_last_expired]: [if last_expired_id:] delete it and forget it. *)
Definition delete_last_expired : M unit :=
  (st ← get;
   match last_expired_id st with
   | Some i =>
       if truthy_id (Some i)
       then (_ ← requests_post (DeleteMessage i); set_last_expired_id None)
       else ret tt
   | None => ret tt
   end)%M.

(** One turn of the loop over [MARKETS], which reads the dict
    [market_ticks]; the accumulator is
    [(best_market, best_signal, best_confidence)]. *)
Definition select_step (d : gmap string (list json)) (market : string)
    (best : option string * option string * F)
  : result (option string * option string * F) :=
  match d !! market with
  | None => Raise KeyError
  | Some ticks =>
      if len ticks >? 20 then
        (let* result := analyze_market py_str market ticks in
         match result with
         | Some (signal, confidence) =>
             if fgt confidence best.2
             then Return (Some market, Some signal, confidence)
             else Return best
         | None => Return best
         end)%res
      else Return best
  end.

Fixpoint select_loop (d : gmap string (list json)) (markets : list string)
    (best : option string * option string * F)
  : result (option string * option string * F) :=
  match markets with
  | [] => Return best
  | market :: rest =>
      (let* best' := select_step d market best in select_loop d rest best')%res
  end.

(** [int(str(market_ticks[best_market][-1])[-1]) if market_ticks[best_market] else None] *)
Definition entry_digit_of (best_market : string) : M (option Z) :=
  (st ← get;
   match market_ticks st !! best_market with
   | None => raise KeyError
   | Some ticks =>
       match last ticks with
       | None => ret None
       | Some t => (d ← lift (last_digit py_str t); ret (Some d))
       end
   end)%M.

(** [fetch_and_analyze]: one cycle. *)
Definition fetch_and_analyze : M unit :=
  (delete_last_expired;;
   st ← get;
   best ← lift (select_loop (market_ticks st) MARKETS (None, None, of_int 0));
   let '(best_market, best_signal, best_confidence) := best in
   match truthy_str best_market, best_signal with
   | Some best_market, Some best_signal =>
       let market_name := names_get best_market best_market MARKET_NAMES in
       _ ← send_telegram_message PreAlert false;
       sleep 60;;
       entry_digit ← entry_digit_of best_market;
       _ ← send_telegram_message
             (MainSignal market_name best_signal entry_digit best_confidence)
             false;
       sleep 180;;
       expired ← send_telegram_message (SignalExpired market_name) true;
       set_last_expired_id expired;;
       sleep 30;;
       delete_messages
   | _, _ => ret tt
   end)%M.

(** [on_message(ws, message)], the handler of the feed; [ws] is not used. *)
Definition on_message (message : string) : M unit :=
  (data ← lift (json_loads message);
   has_tick ← lift (py_contains "tick" data);
   if has_tick then
     tick ← lift (py_getitem data "tick");
     symbol ← lift (py_getitem tick "symbol");
     quote ← lift (py_getitem tick "quote");
     st ← get;
     entry ← lift (ticks_getitem (market_ticks st) symbol);
     let '(key, buf) := entry in
     let buf' := (buf ++ [quote])%list in
     set_market_ticks (<[key := buf']> (market_ticks st));;
     if len buf' >? 200
     then (st ← get; set_market_ticks (<[key := drop 1 buf']> (market_ticks st)))
     else ret tt
   else ret tt)%M.

(** The handler run on the messages of the feed, in order; it stops at
    the first exception. *)
Definition on_messages (messages : list string) : M unit :=
  for_each messages on_message.
End Bot.

(** ** The scoring rule in the words of the specification *)

Inductive classification : Type := Even | Odd | Over3 | Under6.

Definition name (c : classification) : string :=
  match c with
  | Even => "Even"
  | Odd => "Odd"
  | Over3 => "Over 3"
  | Under6 => "Under 6"
  end.

(** The fixed priority order Even, Odd, Over 3, Under 6. *)
Definition rank (c : classification) : nat :=
  match c with
  | Even => 0
  | Odd => 1
  | Over3 => 2
  | Under6 => 3
  end.

Definition is_even (d : Z) : bool := d mod 2 =? 0.
Definition is_odd (d : Z) : bool := negb (d mod 2 =? 0).
Definition is_over3 (d : Z) : bool := d >? 3.
Definition is_under6 (d : Z) : bool := d <? 6.

Section SpecScore.
Context {F : Type} `{Arith F}.

(** The fraction of the digits of a window that satisfy [P]. *)
Definition fraction (P : Z → bool) (window : list Z) : F :=
  (of_int (len (List.filter P window)) / of_int (len window))%fl.

(** Base ratio over the full window. *)
Definition base_ratio (c : classification) (digits : list Z) : F :=
  match c with
  | Even => fraction is_even digits
  | Odd => fraction is_odd digits
  | Over3 => fraction is_over3 digits
  | Under6 => fraction is_under6 digits
  end.

(** Short-term bias over the last 5 digits: the fraction even and the
    fraction over 3 are the two that are computed; Odd and Under 6 take
    the complement of the bias of their opposite. *)
Definition short_term_bias (c : classification) (digits : list Z) : F :=
  let last5 := py_last_n 5 digits in
  match c with
  | Even => fraction is_even last5
  | Odd => (of_int 1 - fraction is_even last5)%fl
  | Over3 => fraction is_over3 last5
  | Under6 => (of_int 1 - fraction is_over3 last5)%fl
  end.

(** [v]: the population standard deviation of the last 20 digits. *)
Definition volatility (digits : list Z) : F :=
  sqrt_of_frac (pvariance (py_last_n 20 digits)).

Definition numerator (c : classification) (digits : list Z) : F :=
  (base_ratio c digits + lit_0_4 * short_term_bias c digits)%fl.

Definition score (c : classification) (digits : list Z) : F :=
  (numerator c digits / (of_int 1 + volatility digits / of_int 10))%fl.
End SpecScore.

(** ** Events of the feed *)

(** A loaded message that is a tick of [symbol] at [quote]. *)
Definition is_tick (data : json) (symbol : json) (quote : json) : Prop :=
  ∃ tick,
    py_contains "tick" data = Return true ∧
    py_getitem data "tick" = Return tick ∧
    py_getitem tick "symbol" = Return symbol ∧
    py_getitem tick "quote" = Return quote.

(** The message [{"tick": {"symbol": symbol, "quote": quote}}], loaded. *)
Definition tick_message (symbol : string) (quote : json) : json :=
  JDict [("tick", JDict [("symbol", JStr symbol); ("quote", quote)])].

(** [first_max d i kv]: [kv] sits at index [i] of [d], nothing in [d] is
    greater, and nothing before [i] has the same value. *)
Definition first_max {F : Type} `{Arith F}
    (d : list (string * F)) (i : nat) (kv : string * F) : Prop :=
  d !! i = Some kv ∧
  (∀ j kv', d !! j = Some kv' → fgt kv'.2 kv.2 = false) ∧
  (∀ j kv', (j < i)%nat → d !! j = Some kv' → kv'.2 ≠ kv.2).

(** [st] with the dict [market_ticks] replaced. *)
Definition with_market_ticks {F : Type} (st : state F) (d : gmap string (list json))
  : state F :=
  mkState d (active_messages st) (last_expired_id st) (trace st).

(** What [on_message] leaves in a buffer [buf] that receives [quote]. *)
Definition pushed (buf : list json) (quote : json) : list json :=
  let buf' := (buf ++ [quote])%list in
  if len buf' >? 200 then drop 1 buf' else buf'.

(** The quotes of the ticks of [symbol] among the events, in arrival order. *)
Definition quotes_of (symbol : string) (events : list (string * json)) : list json :=
  (filter (λ ev, ev.1 = symbol) events).*2.

(** [message] loads to a tick of the instrument [ev.1] at the quote [ev.2]. *)
Definition loads_tick (json_loads : string → result json)
    (message : string) (ev : string * json) : Prop :=
  ∃ data, json_loads message = Return data ∧ is_tick data (JStr ev.1) ev.2.

(** [scored py_str d market signal confidence]: the loop over [MARKETS]
    reaches the scorer on [market], whose buffer in [d] has more than 20
    ticks, and the scorer returns this signal and confidence. *)
Definition scored {F : Type} `{Arith F} (py_str : json → string)
    (d : gmap string (list json)) (market signal : string) (confidence : F) : Prop :=
  ∃ ticks, d !! market = Some ticks ∧ (20 < length ticks)%nat ∧
           analyze_market py_str market ticks = Return (Some (signal, confidence)).

(** The handle a response gives: the message id, or nothing. *)
Definition handle (r : response) : option Z :=
  match r with
  | HttpOk msg_id => Some msg_id
  | _ => None
  end.

(** The request [delete_last_expired] issues in a state. *)
Definition expired_deletion {F : Type} (st : state F) : list (event F) :=
  match last_expired_id st with
  | Some i => if truthy_id (Some i) then [DeleteMessage i] else []
  | None => []
  end.

(** The three notifications of a cycle and the waits after them. *)
Definition announcements {F : Type} (market signal : string)
    (entry_digit : option Z) (confidence : F) : list (event F) :=
  let market_name := names_get market market MARKET_NAMES in
  [ SendPhoto PreAlert; Sleep 60;
    SendPhoto (MainSignal market_name signal entry_digit confidence);
    Sleep 180;
    SendPhoto (SignalExpired market_name); Sleep 30 ].

(** [grows m]: running [m] only adds events at the end of the trace. *)
Definition grows {F A : Type} (m : M F A) : Prop :=
  ∀ st r st', m st = (r, st') → ∃ t, trace st' = (trace st ++ t)%list.

(** The place in the trace of the first notification of a cycle started
    in [st]: after what is there and the deletion of the old expiry
    message. *)
Definition first_request {F : Type} (st : state F) : nat :=
  length (trace st ++ expired_deletion st).

(** ** Concrete inputs *)

(** [str] on the scalars that have no fractional part to print: [None],
    booleans, ints, strings, and the floats nan and ±inf.  The finite
    floats and the containers are outside it (they print as the empty
    string here) and no example below uses them. *)
Definition str_scalar (v : json) : string :=
  match v with
  | JNull => "None"
  | JBool true => "True"
  | JBool false => "False"
  | JInt z => str_int z
  | JStr s => s
  | JFloat x =>
      if PrimFloat.is_nan x then "nan"
      else if PrimFloat.is_infinity x
           then (if PrimFloat.ltb x PrimFloat.zero then "-inf" else "inf")
           else ""
  | JList _ | JDict _ => ""
  end.

(** The digits [0,2,4,6,8] repeated 40 times, as int ticks. *)
Definition ticks_even : list json :=
  concat (repeat (map JInt [0; 2; 4; 6; 8]) 40).

Definition digits_even : list Z := concat (repeat [0; 2; 4; 6; 8] 40).

(** 50 int ticks whose ideal scores for Over 3 and Under 6 are both
    1.16 / (1 + v/10), above Even and Odd. *)
Definition digits_tie : list Z :=
  (repeat 4 20 ++ [1; 0] ++ repeat 5 23 ++ [3; 2; 4; 5; 4])%list.
Definition ticks_tie : list json := map JInt digits_tie.

(** The text [{"tick": {"symbol": "<symbol>", "quote": <quote>}}]. *)
Definition quot : string := String "034"%char "".
Definition tick_text (symbol quote : string) : string :=
  ("{" ++ quot ++ "tick" ++ quot ++ ": {"
       ++ quot ++ "symbol" ++ quot ++ ": " ++ quot ++ symbol ++ quot ++ ", "
       ++ quot ++ "quote" ++ quot ++ ": " ++ quote ++ "}}")%string.

(** [json.loads] on the five texts of the examples: three ticks of
    configured instruments, a tick of an instrument that is not
    configured, an object without tick; any other text is taken not to be
    JSON. *)
Definition json_loads_example (message : string) : result json :=
  if String.eqb message (tick_text "R_10" "7")
  then Return (tick_message "R_10" (JInt 7))
  else if String.eqb message (tick_text "R_25" "12")
  then Return (tick_message "R_25" (JInt 12))
  else if String.eqb message (tick_text "R_10" "3.5")
  then Return (tick_message "R_10" (JFloat 3.5))
  else if String.eqb message (tick_text "BTC" "1")
  then Return (tick_message "BTC" (JInt 1))
  else if String.eqb message "{}"
  then Return (JDict [])
  else Raise JSONDecodeError.

(** Three texts of the feed and the ticks they carry. *)
Definition feed_example : list string :=
  [tick_text "R_10" "7"; tick_text "R_25" "12"; tick_text "R_10" "3.5"].
Definition events_example : list (string * json) :=
  [("R_10", JInt 7); ("R_25", JInt 12); ("R_10", JFloat 3.5)].

(** The state at start-up. *)
Definition idle_state {F : Type} : state F := mkState market_ticks_init [] None [].

(** Buffers in which R_25 alone can be scored: R_10 holds 25 values, R_25
    the 200 even ticks, the others nothing. *)
Definition market_ticks_example : gmap string (list json) :=
  <["R_25" := ticks_even]> (<["R_10" := repeat JNull 25]> market_ticks_init).

(** An idle state with the expiry message 41 of an earlier cycle. *)
Definition state_example {F : Type} : state F :=
  mkState market_ticks_example [] (Some 41) [].

(** A network that accepts everything: request [i] gets message id [100 + i]. *)
Definition net_ok (i : nat) : response := HttpOk (100 + Z.of_nat i).

(** From [state_example] the main signal is the event 3 of the trace.
    Here it gets a response that is not [ok] ... *)
Definition net_main_rejected (i : nat) : response :=
  if (i =? 3)%nat then HttpError else net_ok i.

(** ... and here the request raises. *)
Definition net_main_raises (i : nat) : response :=
  if (i =? 3)%nat then Raises RequestException else net_ok i.

(** ** The scheduler, the subscription, and readings of a trace *)

(** [schedule_signals], its endless loop cut after [turns] turns: a turn
    is [fetch_and_analyze()] then [time.sleep(60)]; an exception ends the
    loop, as it ends the thread. *)
Fixpoint schedule_signals {F : Type} `{Arith F} (py_str : json → string)
    (net : nat → response) (turns : nat) : M F unit :=
  match turns with
  | O => ret tt
  | S turns' =>
      (fetch_and_analyze py_str net;;
       sleep 60;;
       schedule_signals py_str net turns')%M
  end.

(** [subscribe_to_ticks]: the objects given to [json.dumps] and sent on
    the socket, in order. *)
Definition subscribe_to_ticks : list json :=
  map (λ market, JDict [("ticks", JStr market)]) MARKETS.

(** The message ids the notifications of a trace obtained; [i] is the
    place of the first event of [t] in the whole trace. *)
Fixpoint obtained {F : Type} (net : nat → response) (i : nat) (t : list (event F))
  : list Z :=
  match t with
  | [] => []
  | SendPhoto _ :: t' => option_list (handle (net i)) ++ obtained net (S i) t'
  | _ :: t' => obtained net (S i) t'
  end.

(** The message ids a trace asked to delete. *)
Fixpoint deleted {F : Type} (t : list (event F)) : list Z :=
  match t with
  | [] => []
  | DeleteMessage i :: t' => i :: deleted t'
  | _ :: t' => deleted t'
  end.

(** The seconds a trace slept. *)
Fixpoint slept {F : Type} (t : list (event F)) : Z :=
  match t with
  | [] => 0
  | Sleep seconds :: t' => seconds + slept t'
  | _ :: t' => slept t'
  end.

(** [keeps f m]: running [m] leaves the reading [f] of the state as it
    was, whether [m] returns or raises. *)
Definition keeps {F A B : Type} (f : state F → B) (m : M F A) : Prop :=
  ∀ st r st', m st = (r, st') → f st' = f st.

(** Between two turns of the scheduler: no transient message is left, the
    retained expiry id is a real one, and the ids obtained so far are
    those asked to be deleted and the retained one. *)
Definition settled {F : Type} (net : nat → response) (st : state F) : Prop :=
  active_messages st = [] ∧
  last_expired_id st ≠ Some 0 ∧
  obtained net 0 (trace st) ≡ₚ deleted (trace st) ++ option_list (last_expired_id st).

(** A state at start-up in which R_25 can be scored. *)
Definition ready_state {F : Type} : state F :=
  mkState market_ticks_example [] None [].

(** Buffers in which R_25 and R_75 hold the same 200 ticks. *)
Definition market_ticks_tie : gmap string (list json) :=
  <["R_75" := ticks_even]> market_ticks_example.

(** [json.loads] on one more text: a tick of R_25 whose quote is null. *)
Definition json_loads_null (message : string) : result json :=
  if String.eqb message (tick_text "R_25" "null")
  then Return (tick_message "R_25" JNull)
  else json_loads_example message.

(** The state [delete_last_expired] leaves when its request, if any,
    gets a response. *)
Definition after_deletion {F : Type} (st : state F) : state F :=
  mkState (market_ticks st) (active_messages st)
          (if truthy_id (last_expired_id st) then None else last_expired_id st)
          (trace st ++ expired_deletion st).


(** Thirty times the same text of the feed, and the ticks it carries. *)
Definition feed_thirty : list string := repeat (tick_text "R_10" "7") 30.
Definition events_thirty : list (string * json) := repeat ("R_10", JInt 7) 30.

(** * Properties *)

(** ** Lists and counts *)

Lemma rmap_length {A B} (f : A → result B) (l : list A) (ys : list B) :
  rmap f l = Return ys → length ys = length l.
Proof.
  revert ys; induction l as [|x l IH]; intros ys; simpl.
  - intros [= <-]; reflexivity.
  - destruct (f x) as [y|e]; simpl; [|discriminate].
    destruct (rmap f l) as [ys'|e]; simpl; [|discriminate].
    intros [= <-]; simpl; f_equal; apply IH; reflexivity.
Qed.

Lemma rmap_last {A B} (f : A → result B) (l : list A) (ys : list B) (x : A) :
  rmap f l = Return ys → last l = Some x → ∃ y, f x = Return y.
Proof.
  revert ys; induction l as [|a l IH]; intros ys; simpl; [discriminate|].
  destruct (f a) as [y|e] eqn:Ea; simpl; [|discriminate].
  destruct (rmap f l) as [ys'|e] eqn:El; simpl; [|discriminate].
  intros _ Hl. destruct l as [|b l'].
  - injection Hl as <-. eauto.
  - apply (IH ys'); [reflexivity|]. exact Hl.
Qed.

Lemma py_last_n_length {A} (n : nat) (l : list A) :
  (n ≤ length l)%nat → length (py_last_n n l) = n.
Proof. intros Hn; unfold py_last_n; rewrite length_drop; lia. Qed.

Lemma py_last_n_length_le {A} (n : nat) (l : list A) :
  (length (py_last_n n l) ≤ n)%nat.
Proof. unfold py_last_n; rewrite length_drop; lia. Qed.

Lemma py_sum_bool_filter (P : Z → bool) (l : list Z) :
  py_sum_bool (map P l) = len (List.filter P l).
Proof.
  unfold len; induction l as [|x l IH]; simpl; [reflexivity|].
  rewrite IH; destruct (P x); simpl; lia.
Qed.

Lemma filter_negb_length (P : Z → bool) (l : list Z) :
  len (List.filter (λ d, negb (P d)) l) = len l - len (List.filter P l).
Proof.
  unfold len; induction l as [|x l IH]; simpl; [reflexivity|].
  destruct (P x); simpl; lia.
Qed.

Lemma py_sum_bool_bounds (bs : list bool) : 0 ≤ py_sum_bool bs ≤ len bs.
Proof.
  unfold len; induction bs as [|b bs IH]; simpl; [lia|].
  destruct b; lia.
Qed.

(** ** [max] returns the first maximum *)

Section MaxFrom.
Context {F : Type} `{ArithLaws F}.

Lemma max_from_first_max (rest pre : list (string * F)) (best : string * F) (i : nat) :
  first_max pre i best →
  ∃ i', first_max (pre ++ rest) i' (max_from best rest).
Proof.
  revert pre best i; induction rest as [|x rest IH]; intros pre best i Hfm; simpl.
  - exists i. rewrite app_nil_r. exact Hfm.
  - destruct Hfm as (Hi & Hmax & Hfirst).
    assert (Hlt : (i < length pre)%nat) by (eapply lookup_lt_Some; eassumption).
    replace (pre ++ x :: rest)%list with ((pre ++ [x]) ++ rest)%list
      by (rewrite <- app_assoc; reflexivity).
    destruct (fgt x.2 best.2) eqn:Hx.
    + apply (IH (pre ++ [x])%list x (length pre)). repeat split.
      * rewrite lookup_app_r by lia. rewrite Nat.sub_diag. reflexivity.
      * intros j kv' Hj.
        destruct (decide (j < length pre)%nat) as [Hjl|Hjl].
        -- rewrite lookup_app_l in Hj by exact Hjl.
           eapply fgt_above; [exact Hx|]. eapply Hmax; eassumption.
        -- rewrite lookup_app_r in Hj by lia.
           destruct (j - length pre)%nat; simpl in Hj; [|discriminate].
           injection Hj as <-. apply fgt_irrefl.
      * intros j kv' Hjl Hj Hsame. rewrite lookup_app_l in Hj by exact Hjl.
        pose proof (Hmax j kv' Hj) as Hle. rewrite Hsame, Hx in Hle. discriminate.
    + apply (IH (pre ++ [x])%list best i). repeat split.
      * rewrite lookup_app_l by exact Hlt. exact Hi.
      * intros j kv' Hj.
        destruct (decide (j < length pre)%nat) as [Hjl|Hjl].
        -- rewrite lookup_app_l in Hj by exact Hjl. eapply Hmax; eassumption.
        -- rewrite lookup_app_r in Hj by lia.
           destruct (j - length pre)%nat; simpl in Hj; [|discriminate].
           injection Hj as <-. exact Hx.
      * intros j kv' Hjl Hj. rewrite lookup_app_l in Hj by lia.
        eapply Hfirst; eassumption.
Qed.

Lemma py_max_item_first_max (d : list (string * F)) (kv : string * F) :
  py_max_item d = Return kv → ∃ i, first_max d i kv.
Proof.
  destruct d as [|kv0 rest]; simpl; [discriminate|]. intros [= <-].
  apply (max_from_first_max rest [kv0] kv0 0%nat). repeat split.
  - intros [|j] kv' Hj; simpl in Hj; [|discriminate].
    injection Hj as <-. apply fgt_irrefl.
  - intros j kv' Hj; lia.
Qed.
End MaxFrom.

(** ** [analyze_market] *)

Section Analysis.
Context {F : Type} `{Arith F}.
Variable py_str : json → string.

Lemma analyze_market_below_30 (market : string) (ticks : list json) :
  (length ticks < 30)%nat → analyze_market py_str market ticks = Return None.
Proof.
  intros Hlen. unfold analyze_market, len.
  destruct (Z.ltb_spec (Z.of_nat (length ticks)) 30) as [_|Hge]; [reflexivity|lia].
Qed.

Lemma pstdev_volatility (digits : list Z) :
  (20 ≤ length digits)%nat →
  pstdev (py_last_n 20 digits) = Return (volatility digits).
Proof.
  intros Hlen. unfold pstdev, volatility.
  pose proof (py_last_n_length 20 digits Hlen) as Hl.
  destruct (py_last_n 20 digits); [discriminate Hl|reflexivity].
Qed.

(** From 30 ticks on, once the digits are extracted, the result is the
    item [max] picks in the dict [strength]. *)
Lemma analyze_market_from_30 (market : string) (ticks : list json) (digits : list Z) :
  (30 ≤ length ticks)%nat →
  last_digits_of py_str ticks = Return digits →
  analyze_market py_str market ticks
  = rbind (py_max_item (strength digits (volatility digits)))
          (λ best, Return (Some best)).
Proof.
  intros Hlen Hds. unfold analyze_market, len.
  destruct (Z.ltb_spec (Z.of_nat (length ticks)) 30) as [Hlt|_]; [lia|].
  rewrite Hds; simpl. rewrite pstdev_volatility; [reflexivity|].
  apply rmap_length in Hds. lia.
Qed.

Lemma fraction_sum_bool (P : Z → bool) (window : list Z) (n : Z) :
  len window = n →
  (of_int (py_sum_bool (map P window)) / of_int n)%fl = fraction P window.
Proof. intros <-. unfold fraction. rewrite py_sum_bool_filter. reflexivity. Qed.

(** The dict [strength] holds, in the order Even, Odd, Over 3, Under 6,
    the scores of the specification. *)
Lemma strength_scores `{!ArithLaws F} (digits : list Z) :
  (5 ≤ length digits)%nat →
  strength digits (volatility digits)
  = map (λ c, (name c, score c digits)) [Even; Odd; Over3; Under6].
Proof.
  intros Hlen.
  assert (H5 : len (py_last_n 5 digits) = 5).
  { unfold len. rewrite py_last_n_length by exact Hlen. reflexivity. }
  unfold strength, score, numerator, base_ratio, short_term_bias; simpl.
  unfold odd_count; unfold even_count, over3_count, under6_count, streak_even, streak_over3.
  rewrite !(fmul_comm lit_0_4).
  fold is_even is_over3 is_under6.
  rewrite !(fraction_sum_bool _ digits (len digits) eq_refl).
  rewrite !(fraction_sum_bool _ (py_last_n 5 digits) 5 H5).
  replace (len digits - py_sum_bool (map is_even digits))
    with (len (List.filter is_odd digits)); [reflexivity|].
  unfold is_odd. rewrite (filter_negb_length (λ d, d mod 2 =? 0)).
  rewrite py_sum_bool_filter. reflexivity.
Qed.

(** The classification returned, its score, and its place among the
    scores: nothing is greater, nothing of higher priority is the same. *)
Lemma analyze_market_first_max `{!ArithLaws F}
    (market : string) (ticks : list json) (digits : list Z) :
  (30 ≤ length ticks)%nat →
  last_digits_of py_str ticks = Return digits →
  ∃ c : classification,
    analyze_market py_str market ticks = Return (Some (name c, score c digits)) ∧
    (∀ c', fgt (score c' digits) (score c digits) = false) ∧
    (∀ c', (rank c' < rank c)%nat → score c' digits ≠ score c digits).
Proof.
  intros Hlen Hds.
  rewrite (analyze_market_from_30 market ticks digits Hlen Hds).
  assert (H5 : (5 ≤ length digits)%nat) by (apply rmap_length in Hds; lia).
  rewrite (strength_scores digits H5).
  set (d := map (λ c, (name c, score c digits)) [Even; Odd; Over3; Under6]).
  destruct (py_max_item d) as [kv|e] eqn:Hmax; [|discriminate Hmax].
  destruct (py_max_item_first_max d kv Hmax) as (i & Hi & Hge & Hfirst).
  assert (Hlook : ∀ c, d !! rank c = Some (name c, score c digits))
    by (intros []; reflexivity).
  assert (Hc : ∃ c, i = rank c ∧ kv = (name c, score c digits)).
  { destruct i as [|[|[|[|i]]]]; simpl in Hi; [| | | |discriminate Hi];
      injection Hi as <-;
      [exists Even|exists Odd|exists Over3|exists Under6]; split; reflexivity. }
  destruct Hc as (c & -> & ->). exists c; simpl. split; [reflexivity|]. split.
  - intros c'. apply (Hge (rank c') _ (Hlook c')).
  - intros c' Hr. apply (Hfirst (rank c') _ Hr (Hlook c')).
Qed.
End Analysis.

(** ** The reals as an arithmetic *)

Lemma fgt_R_true (a b : R) : fgt a b = true ↔ (a > b)%R.
Proof. simpl. destruct (Rgt_dec a b); split; intros; try lra; try discriminate; reflexivity. Qed.

Lemma fgt_R_false (a b : R) : fgt a b = false ↔ (a <= b)%R.
Proof. simpl. destruct (Rgt_dec a b); split; intros; try lra; try discriminate; reflexivity. Qed.

#[export] Instance R_laws : ArithLaws R.
Proof.
  split.
  - intros a b; apply Rmult_comm.
  - intros a; apply fgt_R_false; lra.
  - intros a b c Hab Hcb; apply fgt_R_true in Hab; apply fgt_R_false in Hcb;
      apply fgt_R_false; lra.
Qed.

(** ** The floats of the machine as an arithmetic *)

Lemma SFmul_comm (prec emax : Z) (x y : SpecFloat.spec_float) :
  SpecFloat.SFmul prec emax x y = SpecFloat.SFmul prec emax y x.
Proof.
  destruct x as [sx|sx| |sx mx ex], y as [sy|sy| |sy my ey]; simpl;
    rewrite ?(xorb_comm sx sy); try reflexivity.
  rewrite (Pos.mul_comm mx my), (Z.add_comm ex ey). reflexivity.
Qed.

(** Split the comparisons of exponents and mantissas in a goal on
    [SFcompare]. *)
Ltac compare_cases :=
  repeat match goal with
         | H : context [Pos.compare_cont Eq ?p ?q] |- _ =>
             change (Pos.compare_cont Eq p q) with (Pos.compare p q) in H
         | |- context [Pos.compare_cont Eq ?p ?q] =>
             change (Pos.compare_cont Eq p q) with (Pos.compare p q)
         end;
  repeat match goal with
         | H : context [Z.compare ?x ?y] |- _ => destruct (Z.compare_spec x y)
         | |- context [Z.compare ?x ?y] => destruct (Z.compare_spec x y)
         | H : context [Pos.compare ?x ?y] |- _ => destruct (Pos.compare_spec x y)
         | |- context [Pos.compare ?x ?y] => destruct (Pos.compare_spec x y)
         end;
  simpl in *; try discriminate; try reflexivity; try lia.

Lemma SFltb_irrefl (x : SpecFloat.spec_float) : SpecFloat.SFltb x x = false.
Proof.
  unfold SpecFloat.SFltb.
  destruct x as [s|s| |s m e]; simpl; try reflexivity; destruct s; try reflexivity;
    compare_cases.
Qed.

(** [b < a] and not [b < c] give not [a < c], NaN included. *)
Lemma SFltb_above (a b c : SpecFloat.spec_float) :
  SpecFloat.SFltb b a = true → SpecFloat.SFltb b c = false →
  SpecFloat.SFltb a c = false.
Proof.
  unfold SpecFloat.SFltb.
  destruct a as [sa|sa| |sa ma ea], b as [sb|sb| |sb mb eb], c as [sc|sc| |sc mc ec];
    simpl; try discriminate; try reflexivity;
    try destruct sa; try destruct sb; try destruct sc;
    simpl; try discriminate; try reflexivity;
    intros H1 H2; compare_cases.
Qed.

#[export] Instance float_laws : ArithLaws float.
Proof.
  split.
  - intros a b. apply Floats.FloatAxioms.Prim2SF_inj.
    cbn [fmul float_arith]. rewrite !Floats.FloatAxioms.mul_spec. apply SFmul_comm.
  - intros a. cbn [fgt float_arith]. rewrite Floats.FloatAxioms.ltb_spec.
    apply SFltb_irrefl.
  - intros a b c. cbn [fgt float_arith]. rewrite !Floats.FloatAxioms.ltb_spec.
    apply SFltb_above.
Qed.

(** Read the operations of the interface at the reals. *)
Ltac real_ops :=
  cbv [fadd fsub fmul fdiv of_int lit_0_4 sqrt_of_frac R_arith] in *.

Lemma Rdiv_unit (a b : R) : (0 <= a <= b)%R → (0 < b)%R → (0 <= a / b <= 1)%R.
Proof.
  intros [Ha Hab] Hb. unfold Rdiv.
  pose proof (Rinv_0_lt_compat b Hb) as Hi.
  assert (Hbi : (b * / b = 1)%R) by (apply Rinv_r; lra).
  split; [nra|]. rewrite <- Hbi. nra.
Qed.

Lemma fraction_unit (P : Z → bool) (window : list Z) :
  (0 < length window)%nat → (0 <= fraction (F:=R) P window <= 1)%R.
Proof.
  intros Hlen. unfold fraction; simpl.
  pose proof (py_sum_bool_bounds (map P window)) as Hb.
  rewrite py_sum_bool_filter in Hb. unfold len in *. rewrite length_map in Hb.
  apply Rdiv_unit.
  - split; [apply (IZR_le 0)|apply IZR_le]; lia.
  - apply (IZR_lt 0); lia.
Qed.

Lemma Q2R_Qsum (l : list Q) : Q2R (Qsum l) = Rsum (map Q2R l).
Proof.
  induction l as [|q l IH]; simpl; [unfold Q2R; simpl; lra|].
  rewrite Q2R_plus, IH. reflexivity.
Qed.

Lemma damper_ge_1 (digits : list Z) :
  (1 <= of_int 1 + volatility (F:=R) digits / of_int 10)%R.
Proof.
  unfold volatility; simpl.
  pose proof (sqrt_pos (Q2R (pvariance (py_last_n 20 digits)))) as Hv.
  lra.
Qed.

Lemma score_lt_numerator (c c' : classification) (digits : list Z) :
  (numerator (F:=R) c digits < numerator (F:=R) c' digits)%R →
  (score (F:=R) c digits < score (F:=R) c' digits)%R.
Proof.
  intros Hlt. pose proof (damper_ge_1 digits) as Hd.
  unfold score. real_ops. unfold Rdiv.
  apply Rmult_lt_compat_r; [|exact Hlt].
  apply Rinv_0_lt_compat. lra.
Qed.

(** Replace the closed integer expressions under [IZR] by their values. *)
Ltac eval_counts :=
  repeat match goal with
         | |- context [IZR ?z] =>
             lazymatch z with
             | Z0 => fail
             | Zpos _ => fail
             | Zneg _ => fail
             | _ => let v := eval vm_compute in z in change z with v
             end
         end.

Lemma numerators_even :
  numerator (F:=R) Even digits_even = (14 / 10)%R ∧
  numerator (F:=R) Odd digits_even = 0%R ∧
  numerator (F:=R) Over3 digits_even = (84 / 100)%R ∧
  numerator (F:=R) Under6 digits_even = (76 / 100)%R.
Proof.
  unfold numerator, base_ratio, short_term_bias, fraction. real_ops.
  repeat split; eval_counts; lra.
Qed.

(** ** binary64 written out: rounding *)

(** *** Powers of two *)

Lemma bpow_pos (e : Z) : (0 < bpow e)%R.
Proof. apply powerRZ_lt. lra. Qed.

Lemma bpow_add (a b : Z) : bpow (a + b) = (bpow a * bpow b)%R.
Proof. apply powerRZ_add. lra. Qed.

Lemma bpow_0 : bpow 0 = 1%R.
Proof. reflexivity. Qed.

Lemma bpow_1 : bpow 1 = 2%R.
Proof. unfold bpow; simpl; lra. Qed.

Lemma bpow_opp (e : Z) : bpow (- e) = (/ bpow e)%R.
Proof. apply powerRZ_neg'. Qed.

Lemma bpow_IZR (e : Z) : 0 ≤ e → IZR (2 ^ e) = bpow e.
Proof.
  intros He. destruct e as [|p|p]; [reflexivity| |lia].
  unfold bpow. rewrite <- Zpower_pos_powerRZ. reflexivity.
Qed.

Lemma bpow_ge_1 (e : Z) : 0 ≤ e → (1 <= bpow e)%R.
Proof.
  intros He. rewrite <- bpow_IZR by exact He. apply IZR_le.
  pose proof (Z.pow_pos_nonneg 2 e ltac:(lia) He). lia.
Qed.

Lemma bpow_le (a b : Z) : a ≤ b → (bpow a <= bpow b)%R.
Proof.
  intros Hab. replace b with (a + (b - a)) by lia. rewrite bpow_add.
  pose proof (bpow_pos a). pose proof (bpow_ge_1 (b - a) ltac:(lia)). nra.
Qed.

Lemma bpow_lt (a b : Z) : a < b → (bpow a < bpow b)%R.
Proof.
  intros Hab. replace b with (a + 1 + (b - a - 1)) by lia. rewrite !bpow_add.
  pose proof (bpow_pos a). pose proof (bpow_ge_1 (b - a - 1) ltac:(lia)).
  rewrite bpow_1. nra.
Qed.

Lemma bpow_lt_inv (a b : Z) : (bpow a < bpow b)%R → a < b.
Proof.
  intros Hlt. destruct (Z_lt_le_dec a b) as [H|H]; [exact H|].
  pose proof (bpow_le b a H). lra.
Qed.

(** *** The nearest integer *)

Lemma Rabs_le_both (x a : R) : (Rabs x <= a)%R → (- a <= x <= a)%R.
Proof. unfold Rabs. destruct (Rcase_abs x); lra. Qed.

Lemma Zdiv_R (a b : Z) :
  0 < b → (IZR a / IZR b = IZR (a / b) + IZR (a mod b) / IZR b)%R.
Proof.
  intros Hb. assert (HbR : (0 < IZR b)%R) by (apply (IZR_lt 0); exact Hb).
  rewrite (Z.div_mod a b) at 1 by lia. rewrite plus_IZR, mult_IZR. field. lra.
Qed.

Lemma rne_div_spec (a b : Z) :
  0 < b →
  (Rabs (IZR (rne_div a b) - IZR a / IZR b) <= 1 / 2)%R ∧
  (Rabs (IZR (rne_div a b) - IZR a / IZR b) = (1 / 2)%R → Z.even (rne_div a b) = true).
Proof.
  intros Hb. assert (HbR : (0 < IZR b)%R) by (apply (IZR_lt 0); exact Hb).
  rewrite (Zdiv_R a b Hb). unfold rne_div.
  pose proof (Z.mod_pos_bound a b Hb) as [Hr0 Hrb].
  set (q := a / b) in *. set (r := a mod b) in *.
  assert (Hr0R : (0 <= IZR r)%R) by (apply (IZR_le 0); exact Hr0).
  assert (HrbR : (IZR r < IZR b)%R) by (apply IZR_lt; exact Hrb).
  set (f := (IZR r / IZR b)%R).
  assert (Hf : (f * IZR b = IZR r)%R) by (unfold f; field; lra).
  destruct (Z.ltb_spec (2 * r) b) as [H1|H1].
  - assert (H1R : (2 * IZR r < IZR b)%R)
      by (rewrite <- (mult_IZR 2); apply IZR_lt; exact H1).
    assert (Hhalf : (f < 1 / 2)%R) by nra.
    assert (Hf0 : (0 <= f)%R) by nra.
    replace (IZR q - (IZR q + f))%R with (- f)%R by ring.
    rewrite Rabs_Ropp, Rabs_pos_eq by lra. split; [lra|intros; lra].
  - destruct (Z.ltb_spec b (2 * r)) as [H2|H2].
    + assert (H2R : (IZR b < 2 * IZR r)%R)
        by (rewrite <- (mult_IZR 2); apply IZR_lt; exact H2).
      assert (Hhalf : (1 / 2 < f)%R) by nra.
      assert (Hf1 : (f < 1)%R) by nra.
      rewrite plus_IZR.
      replace (IZR q + 1 - (IZR q + f))%R with (1 - f)%R by ring.
      rewrite Rabs_pos_eq by lra. split; [lra|intros; lra].
    + assert (Heq : 2 * r = b) by lia.
      assert (HeqR : (2 * IZR r = IZR b)%R) by (rewrite <- (mult_IZR 2), Heq; reflexivity).
      assert (Hhalf : (f = 1 / 2)%R) by nra.
      destruct (Z.even q) eqn:Hev.
      * replace (IZR q - (IZR q + f))%R with (- f)%R by ring.
        rewrite Rabs_Ropp, Rabs_pos_eq by lra. split; [lra|intros _; exact Hev].
      * rewrite plus_IZR.
        replace (IZR q + 1 - (IZR q + f))%R with (1 - f)%R by ring.
        rewrite Rabs_pos_eq by lra. split; [lra|intros _].
        rewrite Z.even_add, Hev. reflexivity.
Qed.

(** Two integers within 1/2 of [s], even in a tie, are the same. *)
Lemma nearest_even_unique (m m' : Z) (s : R) :
  (Rabs (IZR m - s) <= 1 / 2)%R → (Rabs (IZR m - s) = (1 / 2)%R → Z.even m = true) →
  (Rabs (IZR m' - s) <= 1 / 2)%R → (Rabs (IZR m' - s) = (1 / 2)%R → Z.even m' = true) →
  m = m'.
Proof.
  intros H1 E1 H2 E2.
  destruct (Z.eq_dec m m') as [Heq|Hne]; [exact Heq|exfalso].
  assert (Hcase : m + 1 ≤ m' ∨ m' + 1 ≤ m) by lia.
  assert (Hd : ((IZR m - s = - (1 / 2) ∧ IZR m' - s = 1 / 2 ∧ (m' = m + 1)%Z) ∨
                (IZR m - s = 1 / 2 ∧ IZR m' - s = - (1 / 2) ∧ (m = m' + 1)%Z))%R).
  { apply Rabs_le_both in H1, H2. destruct Hcase as [Hc|Hc].
    - left. apply IZR_le in Hc as HcR. rewrite plus_IZR in HcR.
      assert (Hm' : (IZR m' <= IZR m + 1)%R) by lra.
      assert (m' = m + 1).
      { apply Z.le_antisymm; [|exact Hc]. apply le_IZR. rewrite plus_IZR. exact Hm'. }
      subst m'. rewrite plus_IZR in *. repeat split; lra.
    - right. apply IZR_le in Hc as HcR. rewrite plus_IZR in HcR.
      assert (Hm' : (IZR m <= IZR m' + 1)%R) by lra.
      assert (m = m' + 1).
      { apply Z.le_antisymm; [|exact Hc]. apply le_IZR. rewrite plus_IZR. exact Hm'. }
      subst m. rewrite plus_IZR in *. repeat split; lra. }
  destruct Hd as [(Ha & Hb & ->)|(Ha & Hb & ->)].
  - assert (Hev : Z.even m = true).
    { apply E1. rewrite Ha, Rabs_Ropp, Rabs_pos_eq; lra. }
    assert (Hev' : Z.even (m + 1) = true).
    { apply E2. rewrite Hb, Rabs_pos_eq; lra. }
    rewrite Z.even_add, Hev in Hev'. discriminate.
  - assert (Hev : Z.even (m' + 1) = true).
    { apply E1. rewrite Ha, Rabs_pos_eq; lra. }
    assert (Hev' : Z.even m' = true).
    { apply E2. rewrite Hb, Rabs_Ropp, Rabs_pos_eq; lra. }
    rewrite Z.even_add, Hev' in Hev. discriminate.
Qed.

(** An integer within 1/2 of [s] is as near to [s] as any integer. *)
Lemma nearest_integer (m j : Z) (s : R) :
  (Rabs (IZR m - s) <= 1 / 2)%R → (Rabs (IZR m - s) <= Rabs (IZR j - s))%R.
Proof.
  intros Hm. destruct (Z.eq_dec m j) as [->|Hne]; [lra|].
  assert (Hcase : m + 1 ≤ j ∨ j + 1 ≤ m) by lia.
  apply Rabs_le_both in Hm as Hm'.
  destruct Hcase as [Hc|Hc]; apply IZR_le in Hc; rewrite plus_IZR in Hc.
  - rewrite (Rabs_pos_eq (IZR j - s)) by lra. lra.
  - rewrite <- (Rabs_Ropp (IZR j - s)), (Rabs_pos_eq (- (IZR j - s))) by lra. lra.
Qed.

(** *** Magnitude *)

Lemma mag_pos_spec (n d : Z) :
  0 < n → 0 < d →
  (bpow (mag_pos n d - 1) <= IZR n / IZR d < bpow (mag_pos n d))%R.
Proof.
  intros Hn Hd.
  assert (HnR : (0 < IZR n)%R) by (apply (IZR_lt 0); exact Hn).
  assert (HdR : (0 < IZR d)%R) by (apply (IZR_lt 0); exact Hd).
  pose proof (Z.log2_spec n Hn) as [Hn1 Hn2].
  pose proof (Z.log2_spec d Hd) as [Hd1 Hd2].
  pose proof (Z.log2_nonneg n) as Hln. pose proof (Z.log2_nonneg d) as Hld.
  apply IZR_le in Hn1, Hd1. apply IZR_lt in Hn2, Hd2.
  rewrite bpow_IZR in Hn1, Hn2, Hd1, Hd2 by lia.
  unfold Z.succ in Hn2, Hd2.
  set (x := (IZR n / IZR d)%R).
  assert (Hx : (x * IZR d = IZR n)%R) by (unfold x; field; lra).
  unfold mag_pos. set (t := Z.log2 n - Z.log2 d).
  assert (Hup : (x < bpow (t + 1))%R).
  { assert (Heq : (bpow (t + 1) * bpow (Z.log2 d) = bpow (Z.log2 n + 1))%R).
    { rewrite <- bpow_add. f_equal. unfold t. lia. }
    pose proof (bpow_pos (t + 1)). pose proof (bpow_pos (Z.log2 d)). nra. }
  assert (Hlow : (bpow (t - 1) < x)%R).
  { assert (Heq : (bpow (t - 1) * bpow (Z.log2 d + 1) = bpow (Z.log2 n))%R).
    { rewrite <- bpow_add. f_equal. unfold t. lia. }
    pose proof (bpow_pos (t - 1)). pose proof (bpow_pos (Z.log2 d + 1)). nra. }
  assert (Htest : (bpow t <= x)%R ↔
                  (if 0 <=? t then d * 2 ^ t <=? n else d <=? n * 2 ^ (- t)) = true).
  { pose proof (bpow_pos t) as Hbt.
    destruct (Z.leb_spec 0 t) as [Ht|Ht].
    - rewrite Z.leb_le. split.
      + intros Hle. apply le_IZR. rewrite mult_IZR, bpow_IZR by exact Ht. nra.
      + intros Hle. apply IZR_le in Hle. rewrite mult_IZR, bpow_IZR in Hle by exact Ht.
        nra.
    - rewrite Z.leb_le.
      assert (Hinv : (bpow t * bpow (- t) = 1)%R)
        by (rewrite <- bpow_add, Z.add_opp_diag_r; apply bpow_0).
      pose proof (bpow_pos (- t)) as Hbt'. split.
      + intros Hle. apply le_IZR. rewrite mult_IZR, bpow_IZR by lia. nra.
      + intros Hle. apply IZR_le in Hle. rewrite mult_IZR, bpow_IZR in Hle by lia.
        nra. }
  destruct (0 <=? t);
    match goal with
    | |- context [if ?b then _ else _] => destruct b eqn:Hb
    end.
  all: try (replace (t + 1 - 1) with t by lia; split; [apply Htest; reflexivity|exact Hup]).
  all: split; [lra|];
    destruct (Rlt_le_dec x (bpow t)) as [Hlt|Hge]; [exact Hlt|];
    apply Htest in Hge; discriminate.
Qed.

Lemma mag_unique (k k' : Z) (x : R) :
  (bpow (k - 1) <= x < bpow k)%R → (bpow (k' - 1) <= x < bpow k')%R → k = k'.
Proof.
  intros [H1 H2] [H1' H2'].
  assert (Ha : k - 1 < k') by (apply bpow_lt_inv; lra).
  assert (Hb : k' - 1 < k) by (apply bpow_lt_inv; lra).
  lia.
Qed.

(** *** Rounding a positive fraction *)

Lemma dyadic_R (m e : Z) : Q2R (dyadic m e) = (IZR m * bpow e)%R.
Proof.
  unfold dyadic. destruct (Z.leb_spec 0 e) as [He|He].
  - unfold Q2R, inject_Z; simpl. rewrite mult_IZR, bpow_IZR by exact He. field.
  - rewrite (Qeq_eqR _ _ (Qred_correct _)). unfold Q2R; simpl.
    assert (Hpos : 0 < 2 ^ (- e)) by (apply Z.pow_pos_nonneg; lia).
    rewrite Z2Pos.id by exact Hpos. rewrite bpow_IZR by lia.
    rewrite bpow_opp. pose proof (bpow_pos e). rewrite Rinv_inv. reflexivity.
Qed.

Lemma mantissa_spec (n d e : Z) :
  0 < n → 0 < d →
  (Rabs (IZR (mantissa n d e) - IZR n / IZR d / bpow e) <= 1 / 2)%R ∧
  (Rabs (IZR (mantissa n d e) - IZR n / IZR d / bpow e) = (1 / 2)%R →
   Z.even (mantissa n d e) = true).
Proof.
  intros Hn Hd.
  assert (HdR : (0 < IZR d)%R) by (apply (IZR_lt 0); exact Hd).
  pose proof (bpow_pos e) as Hbe.
  unfold mantissa. destruct (Z.leb_spec 0 e) as [He|He].
  - assert (Hpos : 0 < d * 2 ^ e)
      by (apply Z.mul_pos_pos; [exact Hd|apply Z.pow_pos_nonneg; lia]).
    replace (IZR n / IZR d / bpow e)%R with (IZR n / IZR (d * 2 ^ e))%R.
    + apply rne_div_spec. exact Hpos.
    + rewrite mult_IZR, bpow_IZR by exact He. field. lra.
  - replace (IZR n / IZR d / bpow e)%R with (IZR (n * 2 ^ (- e)) / IZR d)%R.
    + apply rne_div_spec. exact Hd.
    + rewrite mult_IZR, bpow_IZR by lia. rewrite bpow_opp. field. lra.
Qed.

Lemma representable_opp (p : R) : representable p → representable (- p).
Proof.
  intros (m & e & -> & Hm & He). exists (- m), e.
  split; [rewrite opp_IZR; ring|]. split; [lia|exact He].
Qed.

Lemma representable_0 : representable 0.
Proof. exists 0, 0. split; [simpl; ring|]. split; lia. Qed.

Lemma scale_abs (a b c : R) : (0 < c)%R → Rabs (a * c - b * c) = (Rabs (a - b) * c)%R.
Proof.
  intros Hc. replace (a * c - b * c)%R with ((a - b) * c)%R by ring.
  rewrite Rabs_mult, (Rabs_pos_eq c) by lra. reflexivity.
Qed.

Section RoundPos.
Variables n d : Z.
Hypothesis Hn : 0 < n.
Hypothesis Hd : 0 < d.

Lemma cexp_mantissa_bounds :
  0 ≤ mantissa n d (cexp_pos n d) ≤ 2 ^ 53.
Proof.
  set (e := cexp_pos n d).
  assert (HdR : (0 < IZR d)%R) by (apply (IZR_lt 0); exact Hd).
  destruct (mantissa_spec n d e Hn Hd) as [Hm _].
  destruct (mag_pos_spec n d Hn Hd) as [Hlow Hup].
  pose proof (bpow_pos e) as Hbe.
  set (s := (IZR n / IZR d / bpow e)%R) in *.
  assert (Hx : (s * bpow e = IZR n / IZR d)%R) by (unfold s; field; lra).
  assert (Hs0 : (0 < s)%R).
  { pose proof (bpow_pos (mag_pos n d - 1)). nra. }
  assert (Hs53 : (s <= IZR (2 ^ 53))%R).
  { rewrite bpow_IZR by lia.
    assert (Hle : (bpow (mag_pos n d) <= bpow (53 + e))%R)
      by (apply bpow_le; unfold e, cexp_pos; lia).
    rewrite bpow_add in Hle. pose proof (bpow_pos 53). nra. }
  pose proof (nearest_integer _ 0 s Hm) as H0.
  pose proof (nearest_integer _ (2 ^ 53) s Hm) as H53.
  apply Rabs_le_both in Hm.
  replace (IZR 0 - s)%R with (- s)%R in H0 by (simpl; ring).
  rewrite Rabs_Ropp, (Rabs_pos_eq s) in H0 by lra.
  rewrite (Rabs_pos_eq (IZR (2 ^ 53) - s)) in H53 by lra.
  apply Rabs_le_both in H0, H53.
  split; apply le_IZR; lra.
Qed.

Lemma round_pos_R :
  Q2R (round_pos n d) = (IZR (mantissa n d (cexp_pos n d)) * bpow (cexp_pos n d))%R.
Proof. unfold round_pos. apply dyadic_R. Qed.

Lemma round_pos_representable : representable (Q2R (round_pos n d)).
Proof.
  rewrite round_pos_R. exists (mantissa n d (cexp_pos n d)), (cexp_pos n d).
  split; [reflexivity|]. pose proof cexp_mantissa_bounds. split; [lia|].
  unfold cexp_pos. lia.
Qed.

Lemma round_pos_nearest (p : R) :
  representable p →
  (Rabs (Q2R (round_pos n d) - IZR n / IZR d) <= Rabs (p - IZR n / IZR d))%R.
Proof.
  intros (m' & e' & -> & Hm' & He'). rewrite round_pos_R.
  set (e := cexp_pos n d). set (m := mantissa n d e).
  assert (HdR : (0 < IZR d)%R) by (apply (IZR_lt 0); exact Hd).
  destruct (mantissa_spec n d e Hn Hd) as [Hm _]. fold m in Hm.
  destruct (mag_pos_spec n d Hn Hd) as [Hlow Hup].
  pose proof (bpow_pos e) as Hbe.
  set (s := (IZR n / IZR d / bpow e)%R) in *.
  assert (Hx : (IZR n / IZR d = s * bpow e)%R) by (unfold s; field; lra).
  rewrite Hx. rewrite scale_abs by exact Hbe.
  destruct (Z_le_gt_dec e e') as [Hee|Hee].
  - assert (Hp : (IZR m' * bpow e' = IZR (m' * 2 ^ (e' - e)) * bpow e)%R).
    { rewrite mult_IZR, bpow_IZR by lia. rewrite Rmult_assoc, <- bpow_add.
      do 2 f_equal. lia. }
    rewrite Hp, scale_abs by exact Hbe.
    apply Rmult_le_compat_r; [lra|]. apply nearest_integer. exact Hm.
  - assert (He : e = mag_pos n d - 53) by (unfold e, cexp_pos in *; lia).
    assert (Hs52 : (IZR (2 ^ 52) <= s)%R).
    { rewrite bpow_IZR by lia.
      assert (Heq : (bpow (mag_pos n d - 1) = bpow 52 * bpow e)%R).
      { rewrite <- bpow_add. f_equal. lia. }
      pose proof (bpow_pos 52). nra. }
    set (pe := (IZR m' * bpow e' / bpow e)%R).
    assert (Hpe : (IZR m' * bpow e' = pe * bpow e)%R) by (unfold pe; field; lra).
    rewrite Hpe, scale_abs by exact Hbe.
    apply Rmult_le_compat_r; [lra|].
    assert (Hpe52 : (pe <= IZR (2 ^ 52))%R).
    { rewrite bpow_IZR by lia.
      assert (Hm'R : (IZR m' <= bpow 53)%R).
      { rewrite <- bpow_IZR by lia. apply IZR_le. lia. }
      assert (Hle : (bpow (53 + e') <= bpow (52 + e))%R) by (apply bpow_le; lia).
      rewrite !bpow_add in Hle.
      pose proof (bpow_pos e'). pose proof (bpow_pos 52). pose proof (bpow_pos 53).
      assert (Hpe' : (pe * bpow e <= bpow 52 * bpow e)%R) by nra.
      nra. }
    pose proof (nearest_integer m (2 ^ 52) s Hm) as H52.
    rewrite (Rabs_minus_sym (IZR (2 ^ 52)) s), (Rabs_pos_eq (s - IZR (2 ^ 52))) in H52
      by lra.
    rewrite (Rabs_minus_sym pe s), (Rabs_pos_eq (s - pe)) by lra. lra.
Qed.
End RoundPos.

(** Two fractions of the same value round to the same number. *)
Lemma round_pos_value (n d n' d' : Z) :
  0 < n → 0 < d → 0 < n' → 0 < d' →
  (IZR n / IZR d = IZR n' / IZR d')%R → round_pos n d = round_pos n' d'.
Proof.
  intros Hn Hd Hn' Hd' Heq.
  assert (Hmag : mag_pos n d = mag_pos n' d').
  { eapply mag_unique; [apply mag_pos_spec; assumption|].
    rewrite Heq. apply mag_pos_spec; assumption. }
  unfold round_pos, cexp_pos. rewrite <- Hmag.
  set (e := Z.max (mag_pos n d - 53) (-1074)). f_equal.
  destruct (mantissa_spec n d e Hn Hd) as [H1 E1].
  destruct (mantissa_spec n' d' e Hn' Hd') as [H2 E2].
  rewrite <- Heq in H2, E2.
  eapply nearest_even_unique; eassumption.
Qed.

(** *** Rounding *)

Lemma Q2R_pos (x : Q) (n : positive) :
  Qnum x = Zpos n → Q2R x = (IZR (Zpos n) / IZR (Zpos (Qden x)))%R.
Proof. intros Hx. unfold Q2R. rewrite Hx. reflexivity. Qed.

Lemma Q2R_neg (x : Q) (n : positive) :
  Qnum x = Zneg n → Q2R x = (- (IZR (Zpos n) / IZR (Zpos (Qden x))))%R.
Proof.
  intros Hx. unfold Q2R. rewrite Hx.
  change (Z.neg n) with (- Z.pos n). rewrite opp_IZR. unfold Rdiv. ring.
Qed.

Lemma Q2R_zero (x : Q) : Qnum x = 0 → Q2R x = 0%R.
Proof. intros Hx. unfold Q2R. rewrite Hx. ring. Qed.

Lemma pos_ratio (n d : positive) : (0 < IZR (Zpos n) / IZR (Zpos d))%R.
Proof. apply Rdiv_lt_0_compat; apply (IZR_lt 0); lia. Qed.

Lemma round64_representable (x : Q) : representable (Q2R (round64 x)).
Proof.
  unfold round64. destruct (Qnum x) as [|n|n] eqn:Hx.
  - rewrite RMicromega.Q2R_0. apply representable_0.
  - apply round_pos_representable; lia.
  - rewrite Q2R_opp. apply representable_opp. apply round_pos_representable; lia.
Qed.

Lemma round64_nearest (x : Q) (p : R) :
  representable p → (Rabs (Q2R (round64 x) - Q2R x) <= Rabs (p - Q2R x))%R.
Proof.
  intros Hp. unfold round64. destruct (Qnum x) as [|n|n] eqn:Hx.
  - rewrite (Q2R_zero x Hx), RMicromega.Q2R_0.
    replace (0 - 0)%R with 0%R by ring. rewrite Rabs_R0. apply Rabs_pos.
  - rewrite (Q2R_pos x n Hx). apply round_pos_nearest; [lia|lia|exact Hp].
  - rewrite (Q2R_neg x n Hx), Q2R_opp.
    pose proof (round_pos_nearest (Zpos n) (Zpos (Qden x)) ltac:(lia) ltac:(lia)
                  (- p)%R (representable_opp p Hp)) as H.
    set (r := Q2R (round_pos (Z.pos n) (Z.pos (Qden x)))) in *.
    set (v := (IZR (Z.pos n) / IZR (Z.pos (Qden x)))%R) in *.
    replace (- r - - v)%R with (- (r - v))%R by ring.
    replace (p - - v)%R with (- (- p - v))%R by ring.
    rewrite !Rabs_Ropp. exact H.
Qed.

Lemma round64_value (x y : Q) : Q2R x = Q2R y → round64 x = round64 y.
Proof.
  intros Heq. unfold round64.
  destruct (Qnum x) as [|n|n] eqn:Hx, (Qnum y) as [|n'|n'] eqn:Hy;
    try reflexivity;
    try rewrite (Q2R_zero x Hx) in Heq; try rewrite (Q2R_zero y Hy) in Heq;
    try rewrite (Q2R_pos x n Hx) in Heq; try rewrite (Q2R_pos y n' Hy) in Heq;
    try rewrite (Q2R_neg x n Hx) in Heq; try rewrite (Q2R_neg y n' Hy) in Heq;
    try (pose proof (pos_ratio n (Qden x)));
    try (pose proof (pos_ratio n' (Qden y)));
    try (exfalso; lra).
  - apply round_pos_value; try lia. exact Heq.
  - f_equal. apply round_pos_value; try lia. lra.
Qed.

(** A binary64 number above [x] is above the rounding of [x]. *)
Lemma round64_le (x : Q) (p : R) :
  representable p → (Q2R x <= p)%R → (Q2R (round64 x) <= p)%R.
Proof.
  intros Hp Hle. pose proof (round64_nearest x p Hp) as Hn.
  destruct (Rle_lt_dec (Q2R (round64 x)) p) as [H|H]; [exact H|exfalso].
  rewrite !Rabs_pos_eq in Hn by lra. lra.
Qed.

Lemma round64_ge (x : Q) (p : R) :
  representable p → (p <= Q2R x)%R → (p <= Q2R (round64 x))%R.
Proof.
  intros Hp Hle. pose proof (round64_nearest x p Hp) as Hn.
  destruct (Rle_lt_dec p (Q2R (round64 x))) as [H|H]; [exact H|exfalso].
  rewrite (Rabs_minus_sym (Q2R (round64 x))), (Rabs_minus_sym p) in Hn.
  rewrite !Rabs_pos_eq in Hn by lra. lra.
Qed.

(** A binary64 number rounds to itself. *)
Lemma round64_exact (x : Q) : representable (Q2R x) → Q2R (round64 x) = Q2R x.
Proof.
  intros Hp. apply Rle_antisym; [apply round64_le|apply round64_ge];
    first [exact Hp|lra].
Qed.

(** Rounding is monotone. *)
Lemma round64_mono (x y : Q) :
  (Q2R x <= Q2R y)%R → (Q2R (round64 x) <= Q2R (round64 y))%R.
Proof.
  intros Hxy.
  destruct (Rle_lt_dec (Q2R (round64 x)) (Q2R (round64 y))) as [H|H]; [exact H|exfalso].
  pose proof (round64_representable x) as Hrx.
  pose proof (round64_representable y) as Hry.
  destruct (Rle_lt_dec (Q2R x) (Q2R (round64 y))) as [H1|H1].
  { pose proof (round64_le x _ Hry H1). lra. }
  destruct (Rle_lt_dec (Q2R (round64 x)) (Q2R y)) as [H2|H2].
  { pose proof (round64_ge y _ Hrx H2). lra. }
  pose proof (round64_nearest x _ Hry) as Hnx.
  pose proof (round64_nearest y _ Hrx) as Hny.
  rewrite (Rabs_pos_eq (Q2R (round64 x) - Q2R x)) in Hnx by lra.
  rewrite (Rabs_minus_sym (Q2R (round64 y)) (Q2R x)),
    (Rabs_pos_eq (Q2R x - Q2R (round64 y))) in Hnx by lra.
  rewrite (Rabs_minus_sym (Q2R (round64 y)) (Q2R y)),
    (Rabs_pos_eq (Q2R y - Q2R (round64 y))) in Hny by lra.
  rewrite (Rabs_pos_eq (Q2R (round64 x) - Q2R y)) in Hny by lra.
  assert (Heq : Q2R x = Q2R y) by lra.
  rewrite (round64_value x y Heq) in H. lra.
Qed.

Lemma representable_Z (z : Z) : Z.abs z ≤ 2 ^ 53 → representable (IZR z).
Proof. intros Hz. exists z, 0. split; [rewrite bpow_0; ring|]. split; [exact Hz|lia]. Qed.

Lemma representable_half : representable (1 / 2).
Proof.
  exists 1, (-1). split; [|split; lia].
  unfold bpow; simpl; lra.
Qed.

(** ** Digits and their variance *)

Lemma py_int_of_char_range (c : ascii) (d : Z) :
  py_int_of_char c = Return d → 0 ≤ d ≤ 9.
Proof.
  unfold py_int_of_char.
  destruct (Z.leb_spec 48 (Z.of_nat (nat_of_ascii c)));
    destruct (Z.leb_spec (Z.of_nat (nat_of_ascii c)) 57); simpl; try discriminate.
  intros [= <-]. lia.
Qed.

Lemma last_digits_of_range (py_str : json → string) (ticks : list json) (digits : list Z) :
  last_digits_of py_str ticks = Return digits → Forall (λ d, 0 ≤ d ≤ 9) digits.
Proof.
  unfold last_digits_of. revert digits.
  induction ticks as [|t ticks IH]; intros digits; simpl.
  - intros [= <-]. constructor.
  - destruct (last_digit py_str t) as [d|e] eqn:Hd; cbn [rbind]; [|discriminate].
    destruct (rmap (last_digit py_str) ticks) as [ds|e]; cbn [rbind]; [|discriminate].
    intros [= <-]. constructor; [|apply IH; reflexivity].
    unfold last_digit in Hd.
    destruct (py_last_char (py_str t)) as [c|e]; cbn [rbind] in Hd; [|discriminate].
    eapply py_int_of_char_range. exact Hd.
Qed.

(** The sum of the squared distances to any [m], plus a non-negative
    term, for digits between 0 and 9. *)
Lemma squares_identity (m : R) (data : list Z) :
  (Rsum (map (λ x, (IZR x - m) * (IZR x - m)) data)
   + Rsum (map (λ x, IZR x * (9 - IZR x)) data)
   = IZR (len data) * m * m - 2 * m * Rsum (map IZR data)
     + 9 * Rsum (map IZR data))%R.
Proof.
  unfold len, Rsum. induction data as [|x data IH].
  - cbn [map foldr length Z.of_nat]. ring.
  - cbn [map foldr length]. rewrite Nat2Z.inj_succ, succ_IZR.
    set (S2 := foldr Rplus 0%R (map (λ x, (IZR x - m) * (IZR x - m))%R data)) in *.
    set (S3 := foldr Rplus 0%R (map (λ x, IZR x * (9 - IZR x))%R data)) in *.
    set (S1 := foldr Rplus 0%R (map IZR data)) in *.
    set (n := IZR (Z.of_nat (length data))) in *.
    lra.
Qed.

Lemma Rsum_nonneg (l : list R) : Forall (λ r, (0 <= r)%R) l → (0 <= Rsum l)%R.
Proof. induction 1; simpl; lra. Qed.

(** ** binary64 written out: the scores *)

Lemma fgt_Q_true (a b : Q) : fgt a b = true ↔ (Q2R b < Q2R a)%R.
Proof.
  cbn [fgt binary64_arith]. rewrite Z.ltb_lt. split.
  - intros H. apply Qlt_Rlt. exact H.
  - intros H. apply Rlt_Qlt in H. exact H.
Qed.

Lemma fgt_Q_false (a b : Q) : fgt a b = false ↔ (Q2R a <= Q2R b)%R.
Proof.
  cbn [fgt binary64_arith]. rewrite Z.ltb_ge. split.
  - intros H. apply Qle_Rle. exact H.
  - intros H. apply Rle_Qle in H. exact H.
Qed.

#[export] Instance binary64_laws : ArithLaws Q.
Proof.
  split.
  - intros a b. cbn [fmul binary64_arith]. apply round64_value.
    rewrite !Q2R_mult. ring.
  - intros a. apply fgt_Q_false. lra.
  - intros a b c Hab Hcb. apply fgt_Q_true in Hab. apply fgt_Q_false in Hcb.
    apply fgt_Q_false. lra.
Qed.

(** The exact variance, read as a real, is the mean squared distance to
    the mean. *)
Lemma pvariance_R (data : list Z) :
  (0 < length data)%nat →
  Q2R (pvariance data)
  = (Rsum (map (λ x, (IZR x - mean_R data) * (IZR x - mean_R data)) data)
     / IZR (len data))%R.
Proof.
  intros Hdata.
  assert (Hn : ¬ (len data # 1 == 0)%Q).
  { unfold Qeq, len; simpl. lia. }
  assert (HnR : Q2R (len data # 1) = IZR (len data)).
  { unfold Q2R; simpl. lra. }
  assert (Hz : ∀ x : Z, Q2R (x # 1) = IZR x) by (intros x; unfold Q2R; simpl; lra).
  unfold pvariance. rewrite (Qeq_eqR _ _ (Qred_correct _)).
  rewrite Q2R_div by exact Hn. rewrite HnR. f_equal.
  rewrite Q2R_Qsum, map_map.
  assert (Hmu : Q2R (Qsum (map (λ x : Z, x # 1) data) / (len data # 1)) = mean_R data).
  { rewrite Q2R_div by exact Hn. rewrite HnR, Q2R_Qsum, map_map. unfold mean_R.
    do 2 f_equal. apply map_ext. exact Hz. }
  f_equal. apply map_ext. intros x. rewrite Q2R_mult, Q2R_minus, Hz, Hmu. reflexivity.
Qed.

(** The variance of digits between 0 and 9 lies between 0 and 81/4. *)
Lemma pvariance_digits (data : list Z) :
  (0 < length data)%nat → Forall (λ d, 0 ≤ d ≤ 9) data →
  (0 <= Q2R (pvariance data) <= 81 / 4)%R.
Proof.
  intros Hlen Hrange. rewrite pvariance_R by exact Hlen.
  set (n := IZR (len data)). set (S1 := Rsum (map IZR data)).
  assert (Hn : (0 < n)%R) by (apply (IZR_lt 0); unfold len; lia).
  pose proof (squares_identity (mean_R data) data) as Hid.
  fold n S1 in Hid. unfold mean_R in *. fold n S1 in Hid |- *.
  set (S2 := Rsum (map (λ x, (IZR x - S1 / n) * (IZR x - S1 / n))%R data)) in *.
  assert (Hpos : (0 <= Rsum (map (λ x, IZR x * (9 - IZR x))%R data))%R).
  { apply Rsum_nonneg. apply Forall_map. eapply Forall_impl; [exact Hrange|].
    intros d [H0 H9]; simpl. apply IZR_le in H0, H9. nra. }
  assert (HS2pos : (0 <= S2)%R).
  { apply Rsum_nonneg. apply Forall_map. apply Forall_forall. intros x _. simpl.
    apply Rle_0_sqr. }
  assert (Hmu : (n * (S1 / n) = S1)%R) by (field; lra).
  assert (HS2 : (S2 <= n * (81 / 4))%R).
  { set (mu := (S1 / n)%R) in *.
    assert (Hrhs : (n * mu * mu - 2 * mu * S1 + 9 * S1
                    = n * (81 / 4) - n * (mu - 9 / 2) * (mu - 9 / 2))%R).
    { rewrite <- Hmu. field. }
    assert (Hsq : (0 <= n * (mu - 9 / 2) * (mu - 9 / 2))%R).
    { rewrite Rmult_assoc. apply Rmult_le_pos; [lra|]. apply Rle_0_sqr. }
    clearbody S2 mu S1 n. lra. }
  pose proof (Rinv_0_lt_compat n Hn) as Hi.
  assert (Hni : (n * / n = 1)%R) by (apply Rinv_r; lra).
  unfold Rdiv. clearbody S2. split; nra.
Qed.

Lemma bit_length_bound (n m : Z) :
  0 ≤ n → 0 < m → n ≤ 32 * m → bit_length n ≤ bit_length m + 5.
Proof.
  intros Hn Hm Hle. unfold bit_length.
  destruct (Z.eqb_spec m 0) as [?|_]; [lia|].
  destruct (Z.eqb_spec n 0) as [?|Hn0]; [pose proof (Z.log2_nonneg (Z.abs m)); lia|].
  rewrite !Z.abs_eq by lia.
  assert (H : Z.log2 n ≤ Z.log2 (m * 2 ^ 5)) by (apply Z.log2_le_mono; lia).
  rewrite Z.log2_mul_pow2 in H by lia. lia.
Qed.

Lemma integer_sqrt_of_frac_rto_bounds (n m b : Z) :
  0 ≤ n → 0 < m → 0 ≤ b → n < b * b * m →
  0 ≤ integer_sqrt_of_frac_rto n m ≤ b.
Proof.
  intros Hn Hm Hb Hlt. unfold integer_sqrt_of_frac_rto.
  set (a := Z.sqrt (n / m)).
  assert (Ha0 : 0 ≤ a) by apply Z.sqrt_nonneg.
  assert (Hdiv : 0 ≤ n / m) by (apply Z.div_pos; lia).
  assert (Hab : a < b).
  { apply Z.sqrt_lt_square; [exact Hdiv|exact Hb|].
    apply Z.div_lt_upper_bound; lia. }
  set (s := if a * a * m =? n then 0 else 1).
  assert (Hs : 0 ≤ s ≤ 1) by (unfold s; destruct (_ =? _); lia).
  pose proof (Z.add_lor_land a s) as Hadd.
  assert (Hland : 0 ≤ Z.land a s) by (apply Z.land_nonneg; lia).
  assert (Hlor : 0 ≤ Z.lor a s) by (apply Z.lor_nonneg; lia).
  lia.
Qed.

(** The root of a variance of digits, on binary64: between 0 and 5. *)
Lemma sqrt_of_frac_digits (q : Q) :
  (0 <= Q2R q <= 81 / 4)%R → (0 <= Q2R (sqrt_of_frac (F:=Q) q) <= 5)%R.
Proof.
  intros [Hq0 Hq].
  set (n := Qnum q). set (m := Zpos (Qden q)).
  assert (Hm : 0 < m) by (unfold m; lia).
  assert (HmR : (0 < IZR m)%R) by (apply (IZR_lt 0); exact Hm).
  assert (Hv : (Q2R q * IZR m = IZR n)%R).
  { unfold Q2R. fold n m. field. lra. }
  assert (Hn : 0 ≤ n) by (apply le_IZR; nra).
  assert (Hnm : 4 * n ≤ 81 * m).
  { apply le_IZR. rewrite !mult_IZR. nra. }
  cbn [sqrt_of_frac binary64_arith]. fold n m. unfold float_sqrt_of_frac.
  pose proof (bit_length_bound n m Hn Hm ltac:(lia)) as Hbl.
  set (e := (bit_length n - bit_length m - sqrt_bit_width) / 2).
  assert (He : e < 0).
  { unfold e, sqrt_bit_width. apply Z.div_lt_upper_bound; lia. }
  destruct (Z.leb_spec 0 e) as [?|_]; [lia|].
  set (k := - e). assert (Hk : 0 < k) by (unfold k; lia).
  replace (-2 * e) with (2 * k) by (unfold k; lia).
  rewrite !Z.shiftl_mul_pow2 by lia. rewrite Z.mul_1_l.
  assert (Hpk : 0 < 2 ^ k) by (apply Z.pow_pos_nonneg; lia).
  assert (Hsq : 2 ^ (2 * k) = 2 ^ k * 2 ^ k).
  { rewrite <- Z.pow_add_r by lia. f_equal. lia. }
  destruct (integer_sqrt_of_frac_rto_bounds (n * 2 ^ (2 * k)) m (5 * 2 ^ k))
    as [Hr0 Hr5]; [nia|exact Hm|lia| |].
  { rewrite Hsq. nia. }
  set (r := integer_sqrt_of_frac_rto (n * 2 ^ (2 * k)) m) in *.
  assert (Hval : Q2R (r # Z.to_pos (2 ^ k)) = (IZR r / IZR (2 ^ k))%R).
  { unfold Q2R; simpl. rewrite Z2Pos.id by exact Hpk. reflexivity. }
  assert (HpkR : (0 < IZR (2 ^ k))%R) by (apply (IZR_lt 0); exact Hpk).
  assert (Hr0R : (0 <= IZR r)%R) by (apply (IZR_le 0); exact Hr0).
  assert (Hr5R : (IZR r <= 5 * IZR (2 ^ k))%R).
  { rewrite <- (mult_IZR 5). apply IZR_le. exact Hr5. }
  pose proof (Rinv_0_lt_compat _ HpkR) as Hi.
  assert (Hii : (IZR (2 ^ k) * / IZR (2 ^ k) = 1)%R) by (apply Rinv_r; lra).
  split.
  - apply round64_ge; [apply representable_0|]. rewrite Hval. unfold Rdiv. nra.
  - apply round64_le; [apply (representable_Z 5); lia|]. rewrite Hval. unfold Rdiv. nra.
Qed.

Lemma Q2R_inject_Z (z : Z) : Q2R (inject_Z z) = IZR z.
Proof. unfold Q2R, inject_Z; simpl. field. Qed.

Lemma Q2R_ratio (a b : Z) :
  0 < b → Q2R (inject_Z a / inject_Z b) = (IZR a / IZR b)%R.
Proof.
  intros Hb. rewrite Q2R_div, !Q2R_inject_Z; [reflexivity|].
  unfold Qeq, inject_Z; simpl. lia.
Qed.

Lemma representable_quarter : representable (1 / 4).
Proof. exists 1, (-2). split; [|split; lia]. unfold bpow; simpl; lra. Qed.

Lemma representable_3_2 : representable (3 / 2).
Proof. exists 3, (-1). split; [|split; lia]. unfold bpow; simpl; lra. Qed.

(** Read the operations of the interface at binary64. *)
Ltac binary64_ops :=
  cbn [fadd fsub fmul fdiv of_int lit_0_4 binary64_arith] in *.

(** A fraction of a window, rounded, is between 0 and 1, and at least
    1/2 when half the window or more is counted. *)
Lemma fraction_binary64 (P : Z → bool) (window : list Z) :
  (0 < length window)%nat →
  (0 <= Q2R (fraction (F:=Q) P window) <= 1)%R ∧
  (len window ≤ 2 * len (List.filter P window) →
   (1 / 2 <= Q2R (fraction (F:=Q) P window))%R).
Proof.
  intros Hlen. unfold fraction. binary64_ops.
  pose proof (py_sum_bool_bounds (map P window)) as Hb.
  rewrite py_sum_bool_filter in Hb. unfold len in *. rewrite length_map in Hb.
  set (c := Z.of_nat (length (List.filter P window))) in *.
  set (n := Z.of_nat (length window)) in *.
  assert (Hn : 0 < n) by (unfold n; lia).
  assert (HnR : (0 < IZR n)%R) by (apply (IZR_lt 0); exact Hn).
  assert (Hc0 : (0 <= IZR c)%R) by (apply (IZR_le 0); lia).
  assert (Hcn : (IZR c <= IZR n)%R) by (apply IZR_le; lia).
  pose proof (Q2R_ratio c n Hn) as Hv.
  pose proof (Rdiv_unit (IZR c) (IZR n) ltac:(lra) HnR) as [H0 H1].
  split; [split|].
  - apply round64_ge; [apply representable_0|]. rewrite Hv. exact H0.
  - apply round64_le; [apply (representable_Z 1); lia|]. rewrite Hv. exact H1.
  - intros Hhalf. apply round64_ge; [apply representable_half|]. rewrite Hv.
    assert (HhR : (IZR n <= 2 * IZR c)%R).
    { rewrite <- (mult_IZR 2). apply IZR_le. exact Hhalf. }
    pose proof (Rinv_0_lt_compat _ HnR) as Hi.
    assert (Hii : (IZR n * / IZR n = 1)%R) by (apply Rinv_r; lra).
    unfold Rdiv. nra.
Qed.

Lemma lit_0_4_binary64 : (0 <= Q2R (lit_0_4 (F:=Q)) <= 1 / 2)%R.
Proof.
  binary64_ops.
  assert (Hv : Q2R (4 # 10) = (4 / 10)%R) by (unfold Q2R; simpl; lra).
  split.
  - apply round64_ge; [apply representable_0|]. lra.
  - apply round64_le; [apply representable_half|]. lra.
Qed.

Lemma short_term_bias_binary64 (c : classification) (digits : list Z) :
  (5 ≤ length digits)%nat →
  (0 <= Q2R (short_term_bias (F:=Q) c digits) <= 1)%R.
Proof.
  intros Hlen.
  assert (Hl5 : (0 < length (py_last_n 5 digits))%nat)
    by (rewrite py_last_n_length; lia).
  destruct (fraction_binary64 is_even (py_last_n 5 digits) Hl5) as [He _].
  destruct (fraction_binary64 is_over3 (py_last_n 5 digits) Hl5) as [Ho _].
  assert (Hcompl : ∀ s : Q, (0 <= Q2R s <= 1)%R →
                            (0 <= Q2R (round64 (inject_Z 1 - s)) <= 1)%R).
  { intros s Hs.
    assert (Hv : Q2R (inject_Z 1 - s) = (1 - Q2R s)%R)
      by (rewrite Q2R_minus, Q2R_inject_Z; reflexivity).
    split.
    - apply round64_ge; [apply representable_0|]. lra.
    - apply round64_le; [apply (representable_Z 1); lia|]. lra. }
  destruct c; unfold short_term_bias; binary64_ops;
    first [exact He | exact Ho | apply Hcompl; assumption].
Qed.

(** The greatest numerator there is on binary64: [1 + 0.4], rounded. *)
Lemma greatest_numerator_binary64 :
  (Q2R (round64 (inject_Z 1 + lit_0_4 (F:=Q))) <= 14 / 10)%R.
Proof.
  replace (14 / 10)%R with (Q2R (14 # 10)) by (unfold Q2R; simpl; lra).
  apply Qle_Rle. vm_compute. discriminate.
Qed.

Lemma numerator_binary64 (c : classification) (digits : list Z) :
  (5 ≤ length digits)%nat →
  (0 <= Q2R (numerator (F:=Q) c digits) <= 14 / 10)%R ∧
  ((1 / 2 <= Q2R (base_ratio (F:=Q) c digits))%R →
   (1 / 2 <= Q2R (numerator (F:=Q) c digits))%R) ∧
  representable (Q2R (numerator (F:=Q) c digits)).
Proof.
  intros Hlen.
  assert (Hl : (0 < length digits)%nat) by lia.
  assert (Hbase : (0 <= Q2R (base_ratio (F:=Q) c digits) <= 1)%R).
  { destruct c; unfold base_ratio; apply fraction_binary64; exact Hl. }
  pose proof (short_term_bias_binary64 c digits Hlen) as Hbias.
  pose proof lit_0_4_binary64 as Hlit.
  unfold numerator.
  set (a := base_ratio c digits) in *. set (s := short_term_bias c digits) in *.
  binary64_ops. set (l := round64 (4 # 10)) in *.
  assert (Hb : (0 <= Q2R (round64 (l * s)) <= Q2R l)%R).
  { assert (Hv : Q2R (l * s) = (Q2R l * Q2R s)%R) by apply Q2R_mult.
    split.
    - apply round64_ge; [apply representable_0|]. nra.
    - apply round64_le; [apply round64_representable|]. nra. }
  set (b := round64 (l * s)) in *.
  assert (Hv : Q2R (a + b) = (Q2R a + Q2R b)%R) by apply Q2R_plus.
  split; [split|split].
  - apply round64_ge; [apply representable_0|]. lra.
  - eapply Rle_trans; [|exact greatest_numerator_binary64].
    apply round64_mono. binary64_ops. fold l.
    rewrite Hv, Q2R_plus, Q2R_inject_Z. lra.
  - intros Hhalf. apply round64_ge; [apply representable_half|]. lra.
  - apply round64_representable.
Qed.

(** The divisor [1 + v/10] on binary64, for digits: between 1 and 1.5. *)
Lemma damper_binary64 (digits : list Z) :
  (20 ≤ length digits)%nat → Forall (λ d, 0 ≤ d ≤ 9) digits →
  (1 <= Q2R (of_int 1 + volatility (F:=Q) digits / of_int 10)%fl <= 3 / 2)%R.
Proof.
  intros Hlen Hrange.
  assert (Hvar : (0 <= Q2R (pvariance (py_last_n 20 digits)) <= 81 / 4)%R).
  { apply pvariance_digits.
    - rewrite py_last_n_length; lia.
    - unfold py_last_n. apply Forall_drop. exact Hrange. }
  pose proof (sqrt_of_frac_digits _ Hvar) as Hvol.
  unfold volatility. set (v := sqrt_of_frac _) in *. binary64_ops.
  assert (Hq : Q2R (v / inject_Z 10) = (Q2R v / 10)%R).
  { rewrite Q2R_div, Q2R_inject_Z; [reflexivity|]. unfold Qeq, inject_Z; simpl. lia. }
  assert (Hw : (0 <= Q2R (round64 (v / inject_Z 10)) <= 1 / 2)%R).
  { split.
    - apply round64_ge; [apply representable_0|]. lra.
    - apply round64_le; [apply representable_half|]. lra. }
  set (w := round64 (v / inject_Z 10)) in *.
  assert (Hs : Q2R (inject_Z 1 + w) = (1 + Q2R w)%R)
    by (rewrite Q2R_plus, Q2R_inject_Z; reflexivity).
  split.
  - apply round64_ge; [apply (representable_Z 1); lia|]. lra.
  - apply round64_le; [apply representable_3_2|]. lra.
Qed.

(** A score on binary64, for digits: between 0 and 1.4, and at least 1/4
    when the base ratio is 1/2 or more. *)
Lemma score_binary64 (c : classification) (digits : list Z) :
  (20 ≤ length digits)%nat → Forall (λ d, 0 ≤ d ≤ 9) digits →
  (0 <= Q2R (score (F:=Q) c digits) <= 14 / 10)%R ∧
  ((1 / 2 <= Q2R (base_ratio (F:=Q) c digits))%R →
   (1 / 4 <= Q2R (score (F:=Q) c digits))%R).
Proof.
  intros Hlen Hrange.
  destruct (numerator_binary64 c digits ltac:(lia)) as ([Hn0 Hn1] & Hhalf & Hrep).
  pose proof (damper_binary64 digits Hlen Hrange) as [Hd1 Hd2].
  unfold score.
  set (N := numerator c digits) in *.
  set (D := (of_int 1 + volatility digits / of_int 10)%fl) in *.
  cbn [fdiv binary64_arith].
  assert (HD : ¬ (D == 0)%Q).
  { intros H0. apply Qeq_eqR in H0. rewrite RMicromega.Q2R_0 in H0. lra. }
  assert (Hv : Q2R (N / D) = (Q2R N / Q2R D)%R) by (apply Q2R_div; exact HD).
  assert (HDpos : (0 < Q2R D)%R) by lra.
  pose proof (Rinv_0_lt_compat _ HDpos) as Hi.
  assert (Hii : (Q2R D * / Q2R D = 1)%R) by (apply Rinv_r; lra).
  split; [split|].
  - apply round64_ge; [apply representable_0|]. rewrite Hv. unfold Rdiv. nra.
  - apply Rle_trans with (Q2R N); [|exact Hn1].
    apply round64_le; [exact Hrep|]. rewrite Hv. unfold Rdiv. nra.
  - intros Hb. specialize (Hhalf Hb).
    apply round64_ge; [apply representable_quarter|]. rewrite Hv. unfold Rdiv. nra.
Qed.

(** Half the digits or more are even, or half or more are odd. *)
Lemma even_or_odd_half (digits : list Z) :
  len digits ≤ 2 * len (List.filter is_even digits) ∨
  len digits ≤ 2 * len (List.filter is_odd digits).
Proof.
  unfold is_odd. rewrite (filter_negb_length (λ d, d mod 2 =? 0)).
  fold is_even. lia.
Qed.

(** From 30 ticks on, with extractable digits, the result on binary64 is
    a classification and a confidence between 1/4 and 1.4. *)
Lemma analyze_market_binary64
    (py_str : json → string) (market : string) (ticks : list json) (digits : list Z) :
  (30 ≤ length ticks)%nat →
  last_digits_of py_str ticks = Return digits →
  ∃ (c : classification),
    analyze_market (F:=Q) py_str market ticks = Return (Some (name c, score c digits)) ∧
    (1 / 4 <= Q2R (score (F:=Q) c digits) <= 14 / 10)%R.
Proof.
  intros Hlen Hds.
  destruct (analyze_market_first_max (F:=Q) py_str market ticks digits Hlen Hds)
    as (c & Heq & Hmax & _).
  assert (Hn : length digits = length ticks) by (apply rmap_length in Hds; exact Hds).
  pose proof (last_digits_of_range _ _ _ Hds) as Hrange.
  exists c. split; [exact Heq|].
  destruct (score_binary64 c digits ltac:(lia) Hrange) as [[_ Hup] _].
  split; [|exact Hup].
  assert (Hl : (0 < length digits)%nat) by lia.
  destruct (even_or_odd_half digits) as [Hhalf|Hhalf].
  - destruct (fraction_binary64 is_even digits Hl) as [_ Hb].
    destruct (score_binary64 Even digits ltac:(lia) Hrange) as [_ Hs].
    pose proof (proj1 (fgt_Q_false _ _) (Hmax Even)) as Hle.
    specialize (Hs (Hb Hhalf)). lra.
  - destruct (fraction_binary64 is_odd digits Hl) as [_ Hb].
    destruct (score_binary64 Odd digits ltac:(lia) Hrange) as [_ Hs].
    pose proof (proj1 (fgt_Q_false _ _) (Hmax Odd)) as Hle.
    specialize (Hs (Hb Hhalf)). lra.
Qed.

(** ** The claims on [analyze_market] *)

(** C4: on a buffer of fewer than 30 ticks [analyze_market] returns [None],
    whatever the ticks are: the length test comes before any tick is
    read. *)
Theorem analyze_market_too_few_ticks {F : Type} `{Arith F}
    (py_str : json → string) (market : string) (ticks : list json) :
  (length ticks < 30)%nat →
  analyze_market py_str market ticks = Return None.
Proof.
  intros Hlen. unfold analyze_market.
  replace (len ticks <? 30) with true; [reflexivity|].
  symmetry. apply Z.ltb_lt. unfold len. lia.
Qed.

Lemma analyze_market_too_few_ticks_witness :
  (length [JStr "n/a"; JNull; JInt 7] < 30)%nat ∧
  analyze_market (F:=R) str_scalar "R_10" [JStr "n/a"; JNull; JInt 7] = Return None.
Proof.
  split; [simpl; lia|].
  apply (analyze_market_too_few_ticks (F:=R) str_scalar "R_10"
           [JStr "n/a"; JNull; JInt 7]).
  simpl; lia.
Defined.



(** C9: for a buffer of at least 30 ticks, each with a last digit, the
    classification returned is the first, in the order Even, Odd, Over 3,
    Under 6, of those that reach the maximal score: no score exceeds its
    own, and any classification with the same score comes after it. *)
Theorem analyze_market_tie_break {F : Type} `{ArithLaws F}
    (py_str : json → string) (market : string) (ticks : list json) (digits : list Z) :
  (30 ≤ length ticks)%nat →
  last_digits_of py_str ticks = Return digits →
  ∃ c : classification,
    analyze_market py_str market ticks = Return (Some (name c, score c digits)) ∧
    (∀ c', fgt (score c' digits) (score c digits) = false) ∧
    (∀ c', score c' digits = score c digits → (rank c ≤ rank c')%nat).
Proof.
  intros Hlen Hds.
  destruct (analyze_market_first_max py_str market ticks digits Hlen Hds)
    as (c & Heq & Hmax & Hfirst).
  exists c. split; [exact Heq|]. split; [exact Hmax|].
  intros c' Hsame.
  destruct (decide (rank c' < rank c)%nat) as [Hlt|Hge]; [|lia].
  exfalso. exact (Hfirst c' Hlt Hsame).
Qed.

(** On [ticks_tie] Over 3 and Under 6 have the same score on binary64,
    the greatest of the four: Over 3, which comes first, is returned. *)
Lemma analyze_market_tie_break_witness :
  (30 ≤ length ticks_tie)%nat ∧
  last_digits_of str_scalar ticks_tie = Return digits_tie ∧
  score (F:=float) Over3 digits_tie = score Under6 digits_tie ∧
  analyze_market (F:=float) str_scalar "R_25" ticks_tie
  = Return (Some ("Over 3", score Over3 digits_tie)).
Proof.
  assert (Hlen : (30 ≤ length ticks_tie)%nat) by (vm_compute; lia).
  assert (Hds : last_digits_of str_scalar ticks_tie = Return digits_tie)
    by (vm_compute; reflexivity).
  assert (Hsame : score (F:=float) Over3 digits_tie = score Under6 digits_tie)
    by (vm_compute; reflexivity).
  split; [exact Hlen|]. split; [exact Hds|]. split; [exact Hsame|].
  destruct (analyze_market_tie_break (F:=float) str_scalar "R_25" ticks_tie digits_tie
              Hlen Hds) as (c & Heq & Hmax & Hfirst).
  pose proof (Hmax Over3) as Hover.
  destruct c; [vm_compute in Hover; discriminate|vm_compute in Hover; discriminate
              |exact Heq|].
  specialize (Hfirst Over3 Hsame). simpl in Hfirst. lia.
Defined.

(** C10: for a buffer of at least 30 ticks whose last-digit extraction
    succeeds, the confidence returned is strictly positive and at most
    1.4, on binary64: every score is a numerator of at most 1 + 0.4
    rounded, which is the float 1.4, over a divisor of at least 1, and the
    better of Even and Odd has a base ratio of 1/2 or more over a divisor
    of at most 1.5. *)
Theorem analyze_market_confidence_range
    (py_str : json → string) (market : string) (ticks : list json) (digits : list Z) :
  (30 ≤ length ticks)%nat →
  last_digits_of py_str ticks = Return digits →
  ∃ (best : string) (confidence : Q),
    analyze_market py_str market ticks = Return (Some (best, confidence)) ∧
    (0 < confidence)%Q ∧ (confidence <= 14 # 10)%Q.
Proof.
  intros Hlen Hds.
  destruct (analyze_market_binary64 py_str market ticks digits Hlen Hds)
    as (c & Heq & Hlow & Hup).
  exists (name c), (score c digits). split; [exact Heq|]. split.
  - apply Rlt_Qlt. rewrite RMicromega.Q2R_0. lra.
  - apply Rle_Qle. replace (Q2R (14 # 10)) with (14 / 10)%R; [exact Hup|].
    unfold Q2R; simpl; lra.
Qed.

Lemma analyze_market_confidence_range_witness :
  (30 ≤ length ticks_tie)%nat ∧
  last_digits_of str_scalar ticks_tie = Return digits_tie ∧
  ∃ (best : string) (confidence : Q),
    analyze_market str_scalar "R_50" ticks_tie = Return (Some (best, confidence)) ∧
    (0 < confidence)%Q ∧ (confidence <= 14 # 10)%Q.
Proof.
  assert (Hlen : (30 ≤ length ticks_tie)%nat) by (vm_compute; lia).
  assert (Hds : last_digits_of str_scalar ticks_tie = Return digits_tie)
    by (vm_compute; reflexivity).
  split; [exact Hlen|]. split; [exact Hds|].
  exact (analyze_market_confidence_range str_scalar "R_50" ticks_tie _ Hlen Hds).
Defined.

(** ** The all-even buffer *)

Lemma last_digits_of_ext (py_str py_str' : json → string) (ticks : list json) :
  (∀ t, t ∈ ticks → py_str t = py_str' t) →
  last_digits_of py_str ticks = last_digits_of py_str' ticks.
Proof.
  unfold last_digits_of.
  induction ticks as [|t ticks IH]; intros Hext; simpl; [reflexivity|].
  unfold last_digit at 1 3. rewrite (Hext t) by (left; reflexivity).
  rewrite IH; [reflexivity|]. intros t' Ht'. apply Hext. right; exact Ht'.
Qed.

Lemma last_digits_of_ints (py_str : json → string) (zs : list Z) :
  (∀ z, py_str (JInt z) = str_int z) →
  last_digits_of py_str (map JInt zs) = last_digits_of str_scalar (map JInt zs).
Proof.
  intros Hint. apply last_digits_of_ext. intros t Ht.
  apply list_elem_of_fmap in Ht as (z & -> & _). apply Hint.
Qed.

Lemma ticks_even_digits (py_str : json → string) :
  (∀ z, py_str (JInt z) = str_int z) →
  last_digits_of py_str ticks_even = Return digits_even.
Proof.
  intros Hint. change ticks_even with (map JInt digits_even).
  rewrite (last_digits_of_ints py_str digits_even Hint).
  vm_compute; reflexivity.
Qed.

(** C8: on the ticks [0,2,4,6,8] repeated 40 times [analyze_market]
    returns "Even", and the Even entry of [strength] is strictly greater
    than the Odd entry; so it is in ideal arithmetic, and so it is on
    binary64 floats, where the entries are 0x1.1761292e4683cp+0 (about
    1.0913) and 0. *)
Theorem analyze_market_all_even (py_str : json → string) (market : string) :
  (∀ z, py_str (JInt z) = str_int z) →
  (∃ (even odd : R) (rest : list (string * R)),
      strength digits_even (volatility digits_even)
      = ("Even", even) :: ("Odd", odd) :: rest ∧
      analyze_market py_str market ticks_even = Return (Some ("Even", even)) ∧
      (even > odd)%R) ∧
  (∃ (even odd : float) (rest : list (string * float)),
      strength digits_even (volatility digits_even)
      = ("Even", even) :: ("Odd", odd) :: rest ∧
      analyze_market py_str market ticks_even = Return (Some ("Even", even)) ∧
      even = 0x1.1761292e4683cp+0%float ∧ odd = 0%float ∧
      PrimFloat.ltb odd even = true).
Proof.
  intros Hint.
  pose proof (ticks_even_digits py_str Hint) as Hds.
  assert (Hlen : (30 ≤ length ticks_even)%nat) by (vm_compute; lia).
  split.
  - destruct numerators_even as (He & Ho & H3 & H6).
    assert (Hodd : (score (F:=R) Odd digits_even < score Even digits_even)%R)
      by (apply score_lt_numerator; lra).
    assert (Hover : (score (F:=R) Over3 digits_even < score Even digits_even)%R)
      by (apply score_lt_numerator; lra).
    assert (Hunder : (score (F:=R) Under6 digits_even < score Even digits_even)%R)
      by (apply score_lt_numerator; lra).
    exists (score Even digits_even), (score Odd digits_even),
      [(name Over3, score Over3 digits_even); (name Under6, score Under6 digits_even)].
    split; [apply (strength_scores (F:=R)); vm_compute; lia|].
    split; [|lra].
    destruct (analyze_market_first_max (F:=R) py_str market ticks_even
                digits_even Hlen Hds) as (c & Heq & Hmax & _).
    pose proof (proj1 (fgt_R_false _ _) (Hmax Even)) as Hle.
    destruct c; [exact Heq|lra|lra|lra].
  - rewrite (analyze_market_from_30 (F:=float) py_str market ticks_even
               digits_even Hlen Hds).
    eexists _, _, _. split; [vm_compute; reflexivity|].
    repeat split; vm_compute; reflexivity.
Qed.

Lemma analyze_market_all_even_witness :
  (∀ z, str_scalar (JInt z) = str_int z) ∧
  (∃ (even odd : R) (rest : list (string * R)),
      strength digits_even (volatility digits_even)
      = ("Even", even) :: ("Odd", odd) :: rest ∧
      analyze_market str_scalar "R_100" ticks_even = Return (Some ("Even", even)) ∧
      (even > odd)%R).
Proof.
  split; [intros z; reflexivity|].
  exact (proj1 (analyze_market_all_even str_scalar "R_100" (λ z, eq_refl))).
Defined.

(** ** The tick buffers *)

Lemma py_last_n_all {A} (n : nat) (l : list A) :
  (length l ≤ n)%nat → py_last_n n l = l.
Proof.
  intros Hle. unfold py_last_n.
  replace (length l - n)%nat with 0%nat by lia. reflexivity.
Qed.

Lemma py_last_n_app {A} (n : nat) (l l' : list A) :
  py_last_n n (py_last_n n l ++ l') = py_last_n n (l ++ l').
Proof.
  destruct (decide (length l ≤ n)%nat) as [Hle|Hgt].
  - rewrite (py_last_n_all n l Hle). reflexivity.
  - unfold py_last_n. rewrite !length_app, length_drop.
    set (k := (length l - n)%nat).
    replace (length l + length l' - n)%nat
      with (k + (length l - k + length l' - n))%nat by lia.
    rewrite <- drop_drop. rewrite (drop_app_le l l' k) by lia. reflexivity.
Qed.

Lemma pushed_last_n (buf : list json) (quote : json) :
  (length buf ≤ 200)%nat → pushed buf quote = py_last_n 200 (buf ++ [quote]).
Proof.
  intros Hle. unfold pushed, py_last_n, len. rewrite length_app; simpl.
  destruct (Z.gtb_spec (Z.of_nat (length buf + 1)) 200) as [Hgt|Hng].
  - replace (length buf + 1 - 200)%nat with 1%nat by lia. reflexivity.
  - replace (length buf + 1 - 200)%nat with 0%nat by lia. reflexivity.
Qed.

Lemma pushed_length (buf : list json) (quote : json) :
  (length buf ≤ 200)%nat → (length (pushed buf quote) ≤ 200)%nat.
Proof.
  intros Hle. rewrite pushed_last_n by exact Hle. apply py_last_n_length_le.
Qed.

Section Feed.
Context {F : Type}.
Variable json_loads : string → result json.

(** A tick of a configured instrument is appended to its buffer, which
    is then cut back to 200; nothing else changes. *)
Lemma on_message_tick (message : string) (ev : string * json)
    (st : state F) (buf : list json) :
  loads_tick json_loads message ev →
  market_ticks st !! ev.1 = Some buf →
  on_message json_loads message st
  = (Return tt, with_market_ticks st (<[ev.1 := pushed buf ev.2]> (market_ticks st))).
Proof.
  intros (data & Hloads & tick & Hin & Htick & Hsym & Hquote) Hbuf.
  unfold on_message, bind, lift, get. rewrite Hloads, Hin, Htick, Hsym, Hquote.
  simpl. rewrite Hbuf. unfold pushed, set_market_ticks, with_market_ticks; simpl.
  destruct (len (buf ++ [ev.2]) >? 200); simpl; [|reflexivity].
  rewrite insert_insert_eq. reflexivity.
Qed.

Lemma on_messages_ticks (messages : list string) (events : list (string * json)) :
  ∀ st : state F,
    Forall2 (λ message ev, loads_tick json_loads message ev ∧
                           is_Some (market_ticks st !! ev.1)) messages events →
    (∀ m buf, market_ticks st !! m = Some buf → (length buf ≤ 200)%nat) →
    ∃ d, on_messages json_loads messages st = (Return tt, with_market_ticks st d) ∧
         ∀ m, d !! m
              = (λ buf, py_last_n 200 (buf ++ quotes_of m events)) <$> market_ticks st !! m.
Proof.
  revert events; induction messages as [|message messages IH];
    intros events st Hall Hbound.
  - apply Forall2_nil_inv_l in Hall as ->.
    exists (market_ticks st). split; [destruct st; reflexivity|].
    intros m. unfold quotes_of; simpl.
    destruct (market_ticks st !! m) as [buf|] eqn:Hm; simpl; [|reflexivity].
    rewrite app_nil_r, py_last_n_all by eauto. reflexivity.
  - apply Forall2_cons_inv_l in Hall as (ev & events' & [Hload [buf Hbuf]] & Hall & ->).
    pose proof (on_message_tick message ev st buf Hload Hbuf) as Hstep.
    set (st1 := with_market_ticks st (<[ev.1 := pushed buf ev.2]> (market_ticks st))) in *.
    destruct (IH events' st1) as (d & Hrun & Hd).
    + eapply Forall2_impl; [exact Hall|]. intros msg ev' [Hl Hs]. split; [exact Hl|].
      simpl. rewrite lookup_insert. case_decide; [eauto|exact Hs].
    + intros m b. simpl. rewrite lookup_insert. case_decide.
      * intros [= <-]. apply pushed_length. eauto.
      * apply Hbound.
    + exists d. split.
      * unfold on_messages in *; simpl. unfold bind at 1. rewrite Hstep. exact Hrun.
      * intros m. rewrite Hd. simpl. rewrite lookup_insert. unfold quotes_of.
        case_decide as Hm.
        -- subst m. rewrite Hbuf; simpl. rewrite filter_cons_True by reflexivity.
           simpl. rewrite pushed_last_n by eauto.
           rewrite py_last_n_app, <- app_assoc. reflexivity.
        -- rewrite filter_cons_False by exact Hm. reflexivity.
Qed.
End Feed.

(** ** The claims on the feed *)

Lemma py_last_n_length_min {A} (n : nat) (l : list A) :
  length (py_last_n n l) = (length l `min` n)%nat.
Proof. unfold py_last_n. rewrite length_drop. lia. Qed.

(** C3: run on any sequence of ticks of configured instruments, from
    buffers of at most 200 values (empty at start-up), the handler leaves
    in each buffer the most recent min(n, 200) of its values in arrival
    order, so at most 200; and a tick that arrives on a buffer of 200
    evicts exactly the oldest value. *)
Theorem tick_buffer_bounded_fifo {F : Type} (json_loads : string → result json)
    (messages : list string) (events : list (string * json)) (st : state F) :
  Forall2 (λ message ev, loads_tick json_loads message ev ∧
                         is_Some (market_ticks st !! ev.1)) messages events →
  (∀ m buf, market_ticks st !! m = Some buf → (length buf ≤ 200)%nat) →
  ∃ st', on_messages json_loads messages st = (Return tt, st') ∧
    (∀ m buf, market_ticks st !! m = Some buf →
       ∃ buf', market_ticks st' !! m = Some buf' ∧
               buf' = py_last_n 200 (buf ++ quotes_of m events) ∧
               length buf' = (length (buf ++ quotes_of m events) `min` 200)%nat ∧
               (length buf' ≤ 200)%nat) ∧
    (∀ message ev oldest rest,
        loads_tick json_loads message ev →
        market_ticks st' !! ev.1 = Some (oldest :: rest) →
        length (oldest :: rest) = 200%nat →
        market_ticks (on_message json_loads message st').2 !! ev.1
        = Some (rest ++ [ev.2])%list).
Proof.
  intros Hall Hbound.
  destruct (on_messages_ticks json_loads messages events st Hall Hbound) as (d & Hrun & Hd).
  exists (with_market_ticks st d). split; [exact Hrun|]. split.
  - intros m buf Hm. eexists. simpl. rewrite Hd, Hm; simpl.
    split; [reflexivity|]. split; [reflexivity|].
    rewrite py_last_n_length_min. split; lia.
  - intros message ev oldest rest Hload Hbuf Hlen.
    rewrite (on_message_tick json_loads message ev _ _ Hload Hbuf). simpl.
    rewrite lookup_insert_eq. f_equal. unfold pushed, len.
    rewrite length_app, Hlen. reflexivity.
Qed.

Lemma tick_buffer_bounded_fifo_witness :
  ∃ st' : state R,
    on_messages json_loads_example feed_example idle_state = (Return tt, st') ∧
    ∀ m buf, market_ticks (idle_state (F:=R)) !! m = Some buf →
      ∃ buf', market_ticks st' !! m = Some buf' ∧
              buf' = py_last_n 200 (buf ++ quotes_of m events_example) ∧
              length buf' = (length (buf ++ quotes_of m events_example) `min` 200)%nat ∧
              (length buf' ≤ 200)%nat.
Proof.
  assert (Hall : Forall2 (λ message ev,
                   loads_tick json_loads_example message ev ∧
                   is_Some (market_ticks (idle_state (F:=R)) !! ev.1))
                 feed_example events_example).
  { repeat constructor;
      try (eexists; split; [reflexivity|]; eexists; repeat split; reflexivity);
      eexists; reflexivity. }
  assert (Hbound : ∀ m buf, market_ticks (idle_state (F:=R)) !! m = Some buf →
                            (length buf ≤ 200)%nat).
  { intros m buf Hm. unfold idle_state, market_ticks_init in Hm. simpl in Hm.
    apply lookup_insert_Some in Hm as [[_ <-]|[_ Hm]]; [simpl; lia|].
    apply lookup_insert_Some in Hm as [[_ <-]|[_ Hm]]; [simpl; lia|].
    apply lookup_insert_Some in Hm as [[_ <-]|[_ Hm]]; [simpl; lia|].
    apply lookup_insert_Some in Hm as [[_ <-]|[_ Hm]]; [simpl; lia|].
    apply lookup_insert_Some in Hm as [[_ <-]|[_ Hm]]; [simpl; lia|].
    rewrite lookup_empty in Hm. discriminate. }
  destruct (tick_buffer_bounded_fifo json_loads_example feed_example events_example
              idle_state Hall Hbound) as (st' & Hrun & Hbufs & _).
  exists st'. split; [exact Hrun|exact Hbufs].
Defined.

(** C7, as the code has it: the handler validates nothing and catches
    nothing, and every event falls in one of three cases.  It is ignored
    without error, the state left as it was, when its text loads to a
    value that has no "tick" member.  It is stored, whatever its quote
    is, when it loads to a value whose "tick" member has a "symbol" that
    is a key of [market_ticks] and a "quote".  In every other case no
    buffer is modified and an exception escapes the handler: the one of
    [json.loads], [TypeError] or [KeyError]; on a tick of an instrument
    that is not configured it is [KeyError]. *)
Theorem on_message_outcomes {F : Type} (json_loads : string → result json)
    (message : string) (st : state F) :
  (∀ data, json_loads message = Return data →
           py_contains "tick" data = Return false →
           on_message json_loads message st = (Return tt, st)) ∧
  (∀ ev buf, loads_tick json_loads message ev →
             market_ticks st !! ev.1 = Some buf →
             on_message json_loads message st
             = (Return tt,
                with_market_ticks st (<[ev.1 := pushed buf ev.2]> (market_ticks st)))) ∧
  (¬ (∃ data, json_loads message = Return data ∧
              py_contains "tick" data = Return false) →
   ¬ (∃ ev, loads_tick json_loads message ev ∧ is_Some (market_ticks st !! ev.1)) →
   ∃ e, on_message json_loads message st = (Raise e, st) ∧
        (json_loads message = Raise e ∨ e = TypeError ∨ e = KeyError)) ∧
  (∀ data symbol quote,
      json_loads message = Return data → is_tick data (JStr symbol) quote →
      market_ticks st !! symbol = None →
      on_message json_loads message st = (Raise KeyError, st)).
Proof.
  split; [|split; [|split]].
  - intros data Hloads Hin. unfold on_message, bind, lift.
    rewrite Hloads, Hin. reflexivity.
  - intros ev buf. apply on_message_tick.
  - intros Hsilent Hnot. unfold on_message, bind, lift, get.
    destruct (json_loads message) as [data|e] eqn:Hloads; [|eauto].
    destruct (py_contains "tick" data) as [[|]|e] eqn:Hin.
    2:{ exfalso. apply Hsilent. exists data. split; [reflexivity|exact Hin]. }
    2:{ exists e. split; [reflexivity|]. right; left.
        destruct data; simpl in Hin; congruence. }
    destruct (py_getitem data "tick") as [tick|e] eqn:Htick.
    2:{ exists e. split; [reflexivity|]. right.
        destruct data as [| | | | | |dd]; simpl in Htick; try (left; congruence).
        destruct (dict_get "tick" dd); [discriminate|right; congruence]. }
    destruct (py_getitem tick "symbol") as [symbol|e] eqn:Hsym.
    2:{ exists e. split; [reflexivity|]. right.
        destruct tick as [| | | | | |dd]; simpl in Hsym; try (left; congruence).
        destruct (dict_get "symbol" dd); [discriminate|right; congruence]. }
    destruct (py_getitem tick "quote") as [quote|e] eqn:Hquote.
    2:{ exists e. split; [reflexivity|]. right.
        destruct tick as [| | | | | |dd]; simpl in Hquote; try (left; congruence).
        destruct (dict_get "quote" dd); [discriminate|right; congruence]. }
    unfold ticks_getitem. destruct symbol as [| | | |s| |]; eauto.
    destruct (market_ticks st !! s) as [buf|] eqn:Hbuf; [|eauto].
    exfalso. apply Hnot. exists (s, quote). split; [|simpl; rewrite Hbuf; eauto].
    exists data. split; [exact Hloads|]. exists tick. repeat split; assumption.
  - intros data symbol quote Hloads (tick & Hin & Htick & Hsym & Hquote) Hnone.
    unfold on_message, bind, lift, get.
    rewrite Hloads, Hin, Htick, Hsym, Hquote. unfold ticks_getitem.
    rewrite Hnone. reflexivity.
Qed.

(** The four outcomes on events of the feed at start-up: an object
    without tick is ignored, a tick of R_25 with a null quote is stored, a
    text that is not JSON and a tick of BTC raise. *)
Lemma on_message_outcomes_witness :
  on_message json_loads_null "{}" (idle_state (F:=float)) = (Return tt, idle_state) ∧
  on_message json_loads_null (tick_text "R_25" "null") (idle_state (F:=float))
  = (Return tt,
     with_market_ticks idle_state (<["R_25" := [JNull]]> market_ticks_init)) ∧
  (∃ e, on_message json_loads_null "tick" (idle_state (F:=float)) = (Raise e, idle_state) ∧
        (json_loads_null "tick" = Raise e ∨ e = TypeError ∨ e = KeyError)) ∧
  on_message json_loads_null (tick_text "BTC" "1") (idle_state (F:=float))
  = (Raise KeyError, idle_state).
Proof.
  destruct (on_message_outcomes json_loads_null "{}" (idle_state (F:=float)))
    as (Hsilent & _).
  destruct (on_message_outcomes json_loads_null (tick_text "R_25" "null")
              (idle_state (F:=float))) as (_ & Hstored & _).
  destruct (on_message_outcomes json_loads_null "tick" (idle_state (F:=float)))
    as (_ & _ & Hraises & _).
  destruct (on_message_outcomes json_loads_null (tick_text "BTC" "1")
              (idle_state (F:=float))) as (_ & _ & _ & Hunknown).
  split; [|split; [|split]].
  - apply (Hsilent (JDict [])); reflexivity.
  - apply (Hstored ("R_25", JNull) []); [|reflexivity].
    exists (tick_message "R_25" JNull). split; [reflexivity|].
    eexists; repeat split; reflexivity.
  - apply Hraises.
    + intros (data & Hloads & _). vm_compute in Hloads. discriminate.
    + intros (ev & (data & Hloads & _) & _). vm_compute in Hloads. discriminate.
  - apply (Hunknown (tick_message "BTC" (JInt 1)) "BTC" (JInt 1)); [reflexivity| |reflexivity].
    eexists; repeat split; reflexivity.
Defined.

(** C7, as stated, fails: a well-formed tick of the instrument "BTC",
    which is not configured, is not dropped silently; [KeyError] escapes
    the handler (the buffers are left as they were). *)
Lemma on_message_unknown_instrument_raises :
  on_message json_loads_example (tick_text "BTC" "1") (idle_state (F:=float))
  = (Raise KeyError, idle_state).
Proof. vm_compute. reflexivity. Qed.

(** ** Market selection *)

Section Selection.
Variable py_str : json → string.
Variable d : gmap string (list json).

(** What the scorer returns on binary64 comes from 30 ticks or more, and
    is positive. *)
Lemma analyze_market_some (market signal : string) (ticks : list json) (confidence : Q) :
  analyze_market py_str market ticks = Return (Some (signal, confidence)) →
  (30 ≤ length ticks)%nat ∧ (0 < Q2R confidence)%R.
Proof.
  intros Hres.
  destruct (decide (length ticks < 30)%nat) as [Hlt|Hge].
  { rewrite analyze_market_below_30 in Hres by exact Hlt. discriminate. }
  split; [lia|].
  destruct (last_digits_of py_str ticks) as [digits|e] eqn:Hds.
  - destruct (analyze_market_binary64 py_str market ticks digits ltac:(lia) Hds)
      as (c & Heq & Hlow & _).
    rewrite Heq in Hres.
    assert (Hc : score c digits = confidence) by congruence.
    rewrite <- Hc. lra.
  - unfold analyze_market, len in Hres.
    destruct (Z.ltb_spec (Z.of_nat (length ticks)) 30); [lia|].
    rewrite Hds in Hres. discriminate.
Qed.

Local Abbreviation scored := (scored py_str d).

Lemma select_step_skip (market : string) (ticks : list json)
    (best : option string * option string * Q) :
  d !! market = Some ticks → (length ticks ≤ 20)%nat →
  select_step py_str d market best = Return best.
Proof.
  intros Hd Hlen. unfold select_step, len. rewrite Hd.
  destruct (Z.gtb_spec (Z.of_nat (length ticks)) 20); [lia|reflexivity].
Qed.

Lemma select_step_spec (market : string) (best out : option string * option string * Q) :
  select_step py_str d market best = Return out →
  (out = best ∨
   ∃ signal, scored market signal out.2 ∧ out = (Some market, Some signal, out.2) ∧
             (Q2R best.2 < Q2R out.2)%R) ∧
  (Q2R best.2 <= Q2R out.2)%R ∧
  (∀ signal confidence, scored market signal confidence →
                        (Q2R confidence <= Q2R out.2)%R).
Proof.
  unfold select_step, scored, len.
  destruct (d !! market) as [ticks|] eqn:Hd; [|discriminate].
  destruct (Z.gtb_spec (Z.of_nat (length ticks)) 20) as [Hgt|Hle].
  - destruct (analyze_market py_str market ticks) as [[[signal confidence]|]|e] eqn:Ha;
      cbn [rbind]; [| |discriminate].
    + destruct (fgt confidence best.2) eqn:Hc; intros [= <-]; cbn [snd].
      * apply fgt_Q_true in Hc. split; [|split; [lra|]].
        -- right. exists signal. split; [|split; [reflexivity|lra]].
           exists ticks. split; [reflexivity|]. split; [lia|exact Ha].
        -- intros s c (ticks' & [= <-] & _ & Ha'). rewrite Ha in Ha'.
           injection Ha' as _ <-. lra.
      * apply fgt_Q_false in Hc. split; [left; reflexivity|]. split; [lra|].
        intros s c (ticks' & [= <-] & _ & Ha'). rewrite Ha in Ha'.
        injection Ha' as _ <-. exact Hc.
    + intros [= <-]. split; [left; reflexivity|]. split; [lra|].
      intros s c (ticks' & [= <-] & _ & Ha'). rewrite Ha in Ha'. discriminate.
  - intros [= <-]. split; [left; reflexivity|]. split; [lra|].
    intros s c (ticks' & [= <-] & Hlen & _). lia.
Qed.

Lemma select_loop_spec (markets : list string) :
  ∀ best out : option string * option string * Q,
    select_loop py_str d markets best = Return out →
    (out = best ∨
     ∃ market signal, market ∈ markets ∧ scored market signal out.2 ∧
                      out = (Some market, Some signal, out.2) ∧
                      (Q2R best.2 < Q2R out.2)%R) ∧
    (Q2R best.2 <= Q2R out.2)%R ∧
    (∀ market signal confidence,
        market ∈ markets → scored market signal confidence →
        (Q2R confidence <= Q2R out.2)%R).
Proof.
  induction markets as [|market markets IH]; intros best out; simpl.
  - intros [= <-]. split; [left; reflexivity|]. split; [lra|].
    intros m s c Hin. inversion Hin.
  - destruct (select_step py_str d market best) as [best'|e] eqn:Hstep;
      simpl; [|discriminate].
    intros Hloop.
    destruct (select_step_spec market best best' Hstep) as (Hs1 & Hs2 & Hs3).
    destruct (IH best' out Hloop) as (Hl1 & Hl2 & Hl3).
    split; [|split; [lra|]].
    + destruct Hl1 as [->|(m & s & Hin & Hsc & -> & Hlt)].
      * destruct Hs1 as [->|(s & Hsc & -> & Hlt)]; [left; reflexivity|].
        right. exists market, s. split; [left|]. split; [exact Hsc|].
        split; [reflexivity|exact Hlt].
      * right. exists m, s. split; [right; exact Hin|]. split; [exact Hsc|].
        split; [reflexivity|simpl in *; lra].
    + intros m s c Hin Hsc. apply elem_of_cons in Hin as [->|Hin].
      * specialize (Hs3 s c Hsc). lra.
      * eapply Hl3; eassumption.
Qed.

Lemma select_loop_returns (markets : list string) :
  ∀ best : option string * option string * Q,
    (∀ market, market ∈ markets →
       ∃ ticks, d !! market = Some ticks ∧
                ∃ r, analyze_market (F:=Q) py_str market ticks = Return r) →
    ∃ out, select_loop py_str d markets best = Return out.
Proof.
  induction markets as [|market markets IH]; intros best Hall; simpl; [eauto|].
  destruct (Hall market ltac:(left)) as (ticks & Hd & r & Hr).
  assert (Hstep : ∃ best', select_step py_str d market best = Return best').
  { unfold select_step. rewrite Hd, Hr; cbn [rbind].
    destruct (len ticks >? 20); [|eexists; reflexivity].
    destruct r as [[s c]|]; [|eexists; reflexivity].
    destruct (fgt c best.2); eexists; reflexivity. }
  destruct Hstep as (best' & ->); simpl. apply IH.
  intros m Hm. apply Hall. right; exact Hm.
Qed.
End Selection.

Lemma analyze_market_from_30_some {F : Type} `{Arith F} (py_str : json → string)
    (market : string) (ticks : list json) (r : option (string * F)) :
  (30 ≤ length ticks)%nat →
  analyze_market py_str market ticks = Return r →
  ∃ signal confidence, r = Some (signal, confidence).
Proof.
  intros Hlen. unfold analyze_market, len.
  destruct (Z.ltb_spec (Z.of_nat (length ticks)) 30); [lia|].
  destruct (last_digits_of py_str ticks) as [digits|e]; cbn [rbind]; [|discriminate].
  destruct (pstdev (py_last_n 20 digits)) as [vol|e]; cbn [rbind]; [|discriminate].
  destruct (py_max_item (strength digits vol)) as [[signal confidence]|e];
    cbn [rbind]; [|discriminate].
  intros [= <-]. eauto.
Qed.

(** C5: the selection loop of [fetch_and_analyze], on binary64, when
    every configured instrument has a buffer and its scoring returns.
    The loop leaves an instrument of 20 ticks or fewer aside; if some
    instrument is scored, the loop returns a scored instrument of maximal
    confidence; and when one instrument alone has 30 ticks or more, that
    instrument is returned with its signal and confidence, whatever the
    confidence is (it is positive, so it beats the initial 0). *)
Theorem select_best_market (py_str : json → string) (d : gmap string (list json)) :
  (∀ market, market ∈ MARKETS →
     ∃ ticks, d !! market = Some ticks ∧
              ∃ r, analyze_market (F:=Q) py_str market ticks = Return r) →
  ∃ out, select_loop py_str d MARKETS (None, None, of_int 0) = Return out ∧
    (∀ market ticks (best : option string * option string * Q),
        d !! market = Some ticks → (length ticks ≤ 20)%nat →
        select_step py_str d market best = Return best) ∧
    (∀ market signal confidence,
        market ∈ MARKETS → scored py_str d market signal confidence →
        ∃ best_market best_signal,
          out = (Some best_market, Some best_signal, out.2) ∧
          best_market ∈ MARKETS ∧
          scored py_str d best_market best_signal out.2 ∧
          (confidence <= out.2)%Q) ∧
    (∀ market ticks,
        market ∈ MARKETS → d !! market = Some ticks → (30 ≤ length ticks)%nat →
        (∀ other, other ∈ MARKETS → other ≠ market →
           ∃ ticks', d !! other = Some ticks' ∧ (length ticks' < 30)%nat) →
        ∃ signal confidence,
          analyze_market py_str market ticks = Return (Some (signal, confidence)) ∧
          out = (Some market, Some signal, confidence)).
Proof.
  intros Hall.
  destruct (select_loop_returns py_str d MARKETS (None, None, of_int 0) Hall)
    as (out & Hout).
  destruct (select_loop_spec py_str d MARKETS _ out Hout) as (Hcase & _ & Hmax).
  assert (Hbest : ∀ market signal confidence,
             market ∈ MARKETS → scored py_str d market signal confidence →
             ∃ best_market best_signal,
               out = (Some best_market, Some best_signal, out.2) ∧
               best_market ∈ MARKETS ∧
               scored py_str d best_market best_signal out.2 ∧
               (confidence <= out.2)%Q).
  { intros m s c Hin Hsc. pose proof (Hmax m s c Hin Hsc) as Hle.
    destruct Hcase as [->|(m1 & s1 & Hin1 & Hsc1 & Heq & _)].
    - destruct Hsc as (ticks & _ & _ & Ha).
      apply analyze_market_some in Ha as [_ Hpos]. cbn [snd] in Hle.
      change (Q2R (of_int 0)) with (Q2R 0) in Hle.
      rewrite RMicromega.Q2R_0 in Hle. lra.
    - exists m1, s1. split; [exact Heq|]. split; [exact Hin1|].
      split; [exact Hsc1|]. apply Rle_Qle. exact Hle. }
  exists out. split; [exact Hout|]. split; [|split; [exact Hbest|]].
  - intros market ticks best. apply select_step_skip.
  - intros market ticks Hin Hd Hlen Hothers.
    destruct (Hall market Hin) as (ticks0 & Hd0 & r & Hr).
    rewrite Hd in Hd0. injection Hd0 as <-.
    destruct (analyze_market_from_30_some py_str market ticks r Hlen Hr)
      as (signal & confidence & ->).
    exists signal, confidence. split; [exact Hr|].
    assert (Hsc : scored py_str d market signal confidence).
    { exists ticks. split; [exact Hd|]. split; [lia|exact Hr]. }
    destruct (Hbest market signal confidence Hin Hsc)
      as (m1 & s1 & Heq & Hin1 & (ticks1 & Hd1 & _ & Ha1) & _).
    destruct (decide (m1 = market)) as [->|Hne].
    + rewrite Hd in Hd1. injection Hd1 as <-. rewrite Hr in Ha1.
      injection Ha1 as <- Hc. rewrite Heq, <- Hc. reflexivity.
    + destruct (Hothers m1 Hin1 Hne) as (ticks' & Hd' & Hlt).
      rewrite Hd1 in Hd'. injection Hd' as <-.
      apply analyze_market_some in Ha1 as [Hge _]. lia.
Qed.

Lemma market_ticks_example_scoring (market : string) :
  market ∈ MARKETS →
  ∃ ticks, market_ticks_example !! market = Some ticks ∧
           ∃ r, analyze_market (F:=Q) str_scalar market ticks = Return r.
Proof.
  intros Hin. unfold MARKETS in Hin.
  repeat (apply elem_of_cons in Hin as [->|Hin];
          [eexists; split; [reflexivity|]|]);
    [..|inversion Hin];
    try (eexists; apply analyze_market_below_30; simpl; lia).
  eexists. vm_compute. reflexivity.
Qed.

Lemma select_best_market_witness :
  (∀ market, market ∈ MARKETS →
     ∃ ticks, market_ticks_example !! market = Some ticks ∧
              ∃ r, analyze_market (F:=Q) str_scalar market ticks = Return r) ∧
  ∃ out signal confidence,
    select_loop (F:=Q) str_scalar market_ticks_example MARKETS (None, None, of_int 0)
    = Return out ∧
    analyze_market str_scalar "R_25" ticks_even = Return (Some (signal, confidence)) ∧
    out = (Some "R_25", Some signal, confidence).
Proof.
  split; [exact market_ticks_example_scoring|].
  destruct (select_best_market str_scalar market_ticks_example
              market_ticks_example_scoring) as (out & Hout & _ & _ & Hone).
  assert (Hin : "R_25" ∈ MARKETS)
    by (apply list_elem_of_In; simpl; right; left; reflexivity).
  assert (Hlen : (30 ≤ length ticks_even)%nat) by (vm_compute; lia).
  assert (Hothers : ∀ other, other ∈ MARKETS → other ≠ "R_25" →
            ∃ ticks', market_ticks_example !! other = Some ticks' ∧
                      (length ticks' < 30)%nat).
  { intros other Ho Hne. unfold MARKETS in Ho.
    repeat (apply elem_of_cons in Ho as [->|Ho];
            [first [ exfalso; apply Hne; reflexivity
                   | eexists; split; [reflexivity|simpl; lia] ]|]).
    inversion Ho. }
  destruct (Hone "R_25" ticks_even Hin eq_refl Hlen Hothers)
    as (signal & confidence & Ha & Heq).
  exists out, signal, confidence. repeat split; assumption.
Defined.

(** ** The notification cycle *)

Section Grows.
Context {F : Type}.

Lemma grows_ret {A} (a : A) : grows (F:=F) (ret a).
Proof. intros st r st' [= <- <-]. exists []. rewrite app_nil_r. reflexivity. Qed.

Lemma grows_raise {A} (e : exn) : grows (F:=F) (A:=A) (raise e).
Proof. intros st r st' [= <- <-]. exists []. rewrite app_nil_r. reflexivity. Qed.

Lemma grows_lift {A} (x : result A) : grows (F:=F) (lift x).
Proof. intros st r st' [= <- <-]. exists []. rewrite app_nil_r. reflexivity. Qed.

Lemma grows_get : grows (F:=F) get.
Proof. intros st r st' [= <- <-]. exists []. rewrite app_nil_r. reflexivity. Qed.

Lemma grows_bind {A B} (m : M F A) (k : A → M F B) :
  grows m → (∀ a, grows (k a)) → grows (bind m k).
Proof.
  intros Hm Hk st r st'. unfold bind.
  destruct (m st) as [[a|e] st1] eqn:Hrun.
  - intros Hrest. destruct (Hm _ _ _ Hrun) as (t1 & Ht1).
    destruct (Hk a _ _ _ Hrest) as (t2 & Ht2).
    exists (t1 ++ t2)%list. rewrite Ht2, Ht1, app_assoc. reflexivity.
  - intros [= <- <-]. exact (Hm _ _ _ Hrun).
Qed.

Lemma grows_for_each {A} (l : list A) (body : A → M F unit) :
  (∀ a, grows (body a)) → grows (for_each l body).
Proof.
  intros Hbody. induction l as [|x l IH]; simpl.
  - apply grows_ret.
  - apply grows_bind; [apply Hbody|intros _; exact IH].
Qed.

Lemma grows_emit (e : event F) : grows (emit e).
Proof. intros st r st' [= <- <-]. exists [e]. reflexivity. Qed.

Lemma grows_set_market_ticks (d : gmap string (list json)) :
  grows (F:=F) (set_market_ticks d).
Proof. intros st r st' [= <- <-]. exists []. simpl. rewrite app_nil_r. reflexivity. Qed.

Lemma grows_set_active_messages (l : list Z) : grows (F:=F) (set_active_messages l).
Proof. intros st r st' [= <- <-]. exists []. simpl. rewrite app_nil_r. reflexivity. Qed.

Lemma grows_set_last_expired_id (i : option Z) : grows (F:=F) (set_last_expired_id i).
Proof. intros st r st' [= <- <-]. exists []. simpl. rewrite app_nil_r. reflexivity. Qed.
End Grows.

Create HintDb grows.
#[local] Hint Resolve grows_ret grows_raise grows_lift grows_get grows_emit
  grows_set_market_ticks grows_set_active_messages grows_set_last_expired_id : grows.

Ltac grows_step :=
  first [ apply grows_bind; [|intros ?]
        | apply grows_for_each; intros ?
        | solve [auto with grows]
        | match goal with
          | |- grows (match ?x with _ => _ end) => destruct x
          | |- grows (if ?b then _ else _) => destruct b
          | |- grows (let '(_, _) := ?x in _) => destruct x
          end ].

Section GrowsBot.
Context {F : Type} `{Arith F}.
Variable py_str : json → string.
Variable net : nat → response.

Lemma grows_requests_post (e : event F) : grows (requests_post net e).
Proof. unfold requests_post. repeat grows_step. Qed.

Lemma grows_send_telegram_message (message : caption F) (keep : bool) :
  grows (send_telegram_message net message keep).
Proof.
  unfold send_telegram_message.
  apply grows_bind; [apply grows_requests_post|intros r]. repeat grows_step.
Qed.

Lemma grows_delete_messages : grows (F:=F) (delete_messages net).
Proof.
  unfold delete_messages. apply grows_bind; [apply grows_get|intros st].
  apply grows_bind; [|intros _; apply grows_set_active_messages].
  apply grows_for_each; intros i.
  apply grows_bind; [apply grows_requests_post|intros _; apply grows_ret].
Qed.

Lemma grows_entry_digit_of (best_market : string) :
  grows (F:=F) (entry_digit_of py_str best_market).
Proof. unfold entry_digit_of. repeat grows_step. Qed.

(** What follows [delete_last_expired] in [fetch_and_analyze] only
    adds to the trace. *)
Lemma grows_fetch_and_analyze_rest :
  grows (st ← get;
         best ← lift (select_loop py_str (market_ticks st) MARKETS (None, None, of_int 0));
         let '(best_market, best_signal, best_confidence) := best in
         match truthy_str best_market, best_signal with
         | Some best_market, Some best_signal =>
             let market_name := names_get best_market best_market MARKET_NAMES in
             _ ← send_telegram_message net PreAlert false;
             sleep 60;;
             entry_digit ← entry_digit_of py_str best_market;
             _ ← send_telegram_message net
                   (MainSignal market_name best_signal entry_digit best_confidence)
                   false;
             sleep 180;;
             expired ← send_telegram_message net (SignalExpired market_name) true;
             set_last_expired_id expired;;
             sleep 30;;
             delete_messages net
         | _, _ => ret tt
         end)%M.
Proof.
  apply grows_bind; [apply grows_get|intros st].
  apply grows_bind; [apply grows_lift|intros [[bm bs] bc]].
  destruct (truthy_str bm) as [m|]; [|apply grows_ret].
  destruct bs as [s|]; [|apply grows_ret].
  repeat first [ apply grows_send_telegram_message
               | apply grows_delete_messages
               | apply grows_entry_digit_of
               | apply grows_emit
               | apply grows_set_last_expired_id
               | apply grows_bind; [|intros ?] ].
Qed.
End GrowsBot.

Section Selected.
Context {F : Type} `{Arith F}.
Variable py_str : json → string.
Variable d : gmap string (list json).

(** What the loop returns is its initial accumulator or comes from a
    scored market. *)
Lemma select_loop_origin (markets : list string) :
  ∀ best out : option string * option string * F,
    select_loop py_str d markets best = Return out →
    out = best ∨
    ∃ market signal, market ∈ markets ∧ scored py_str d market signal out.2 ∧
                     out = (Some market, Some signal, out.2).
Proof.
  induction markets as [|market markets IH]; intros best out; simpl.
  - intros [= <-]. left; reflexivity.
  - destruct (select_step py_str d market best) as [best'|e] eqn:Hstep;
      cbn [rbind]; [|discriminate].
    intros Hloop.
    destruct (IH best' out Hloop) as [->|(m & s & Hin & Hsc & Heq)].
    + unfold select_step in Hstep.
      destruct (d !! market) as [ticks|] eqn:Hd; [|discriminate].
      destruct (len ticks >? 20) eqn:Hlen; [|left; congruence].
      destruct (analyze_market py_str market ticks) as [[[s c]|]|e] eqn:Ha;
        cbn [rbind] in Hstep; [| |discriminate]; [|left; congruence].
      destruct (fgt c best.2); [|left; congruence].
      injection Hstep as <-. right. exists market, s.
      split; [left|]. split; [|reflexivity].
      exists ticks. split; [exact Hd|]. split; [|exact Ha].
      unfold len in Hlen. apply Z.gtb_lt in Hlen. lia.
    + right. exists m, s. split; [right; exact Hin|]. split; assumption.
Qed.

Lemma scored_last_digit (market signal : string) (confidence : F) :
  scored py_str d market signal confidence →
  ∃ ticks t digit, d !! market = Some ticks ∧ last ticks = Some t ∧
                   last_digit py_str t = Return digit.
Proof.
  intros (ticks & Hd & Hlen & Ha).
  unfold analyze_market in Ha. destruct (len ticks <? 30); [discriminate|].
  destruct (last_digits_of py_str ticks) as [digits|e] eqn:Hds; [|discriminate].
  destruct (last ticks) as [t|] eqn:Hlast.
  - destruct (rmap_last _ _ _ _ Hds Hlast) as (digit & Hdigit). eauto 6.
  - apply last_None in Hlast. subst ticks. simpl in Hlen. lia.
Qed.
End Selected.

Lemma MARKETS_nonempty (market : string) :
  market ∈ MARKETS → truthy_str (Some market) = Some market.
Proof.
  intros Hin. unfold MARKETS in Hin.
  repeat (apply elem_of_cons in Hin as [->|Hin]; [reflexivity|]).
  inversion Hin.
Qed.

Section Cycle.
Context {F : Type} `{Arith F}.
Variable py_str : json → string.
Variable net : nat → response.

(** No request raises: each gets a response, [ok] or not. *)
Hypothesis net_responds : ∀ i e, net i ≠ Raises e.

Lemma requests_post_responds (e : event F) (st : state F) :
  requests_post net e st
  = (Return (net (length (trace st))),
     mkState (market_ticks st) (active_messages st) (last_expired_id st)
             (trace st ++ [e])).
Proof.
  unfold requests_post, bind, get, emit; simpl.
  destruct (net (length (trace st))) as [i| |x] eqn:Hnet; try reflexivity.
  exfalso. exact (net_responds _ _ Hnet).
Qed.

Lemma send_telegram_message_responds (message : caption F) (keep : bool) (st : state F) :
  send_telegram_message net message keep st
  = (Return (handle (net (length (trace st)))),
     mkState (market_ticks st)
             (if keep then active_messages st
              else active_messages st ++ option_list (handle (net (length (trace st)))))
             (last_expired_id st)
             (trace st ++ [SendPhoto message])).
Proof.
  unfold send_telegram_message, bind at 1. rewrite requests_post_responds.
  destruct (net (length (trace st))) as [i| |x] eqn:Hnet; simpl.
  - destruct keep; reflexivity.
  - destruct keep; simpl; rewrite ?app_nil_r; reflexivity.
  - exfalso. exact (net_responds _ _ Hnet).
Qed.

Lemma for_each_delete (ids : list Z) :
  ∀ st : state F,
    for_each ids (λ msg_id, _ ← requests_post net (DeleteMessage msg_id); ret tt)%M st
    = (Return tt,
       mkState (market_ticks st) (active_messages st) (last_expired_id st)
               (trace st ++ map DeleteMessage ids)).
Proof.
  induction ids as [|i ids IH]; intros st; simpl.
  - rewrite app_nil_r. destruct st; reflexivity.
  - unfold bind at 1. unfold bind at 1. rewrite requests_post_responds.
    unfold ret at 1. rewrite IH. simpl. rewrite <- app_assoc. reflexivity.
Qed.

Lemma delete_messages_responds (st : state F) :
  delete_messages net st
  = (Return tt,
     mkState (market_ticks st) [] (last_expired_id st)
             (trace st ++ map DeleteMessage (active_messages st))).
Proof.
  unfold delete_messages, bind at 1, get. unfold bind at 1.
  rewrite for_each_delete. reflexivity.
Qed.

Lemma delete_last_expired_responds (st : state F) :
  delete_last_expired net st
  = (Return tt,
     mkState (market_ticks st) (active_messages st)
             (if truthy_id (last_expired_id st) then None else last_expired_id st)
             (trace st ++ expired_deletion st)).
Proof.
  unfold delete_last_expired, expired_deletion, bind at 1, get.
  destruct (last_expired_id st) as [i|] eqn:Hi.
  - destruct (truthy_id (Some i)).
    + unfold bind. rewrite requests_post_responds. reflexivity.
    + unfold ret. rewrite app_nil_r, <- Hi. destruct st; reflexivity.
  - unfold ret. simpl. rewrite app_nil_r, <- Hi. destruct st; reflexivity.
Qed.

(** One cycle from an idle state with a selectable market, when every
    request gets a response: the three notifications go out whatever
    the responses are, the handles of the pre-alert and of the main
    signal that exist are deleted at the end, and the handle of the
    expiry notification, if any, is kept. *)
Lemma fetch_and_analyze_responds (st : state F) (market signal : string) (confidence : F) :
  active_messages st = [] →
  select_loop py_str (market_ticks st) MARKETS (None, None, of_int 0)
  = Return (Some market, Some signal, confidence) →
  let n := length (trace st ++ expired_deletion st) in
  ∃ entry_digit : option Z,
    fetch_and_analyze py_str net st
    = (Return tt,
       mkState (market_ticks st) [] (handle (net (n + 4)%nat))
               (trace st ++ expired_deletion st
                ++ announcements market signal entry_digit confidence
                ++ map DeleteMessage (option_list (handle (net n))
                                      ++ option_list (handle (net (n + 2)%nat))))).
Proof.
  intros Hidle Hsel n.
  destruct (select_loop_origin py_str _ _ _ _ Hsel)
    as [[=]|(m & s & Hin & Hsc & [= <- <-])]; simpl in Hsc.
  destruct (scored_last_digit py_str _ _ _ _ Hsc) as (ticks & t & digit & Hd & Hlast & Hdigit).
  exists (Some digit).
  unfold fetch_and_analyze. unfold bind at 1. rewrite delete_last_expired_responds.
  unfold bind at 1, get. unfold bind at 1, lift. cbn [market_ticks]. rewrite Hsel.
  rewrite (MARKETS_nonempty market Hin).
  unfold bind at 1. rewrite send_telegram_message_responds.
  unfold bind at 1, sleep, emit. cbn [market_ticks active_messages last_expired_id trace].
  unfold bind at 1, entry_digit_of. unfold bind at 1, get. cbn [market_ticks].
  rewrite Hd, Hlast. unfold bind at 1, lift. rewrite Hdigit. unfold ret at 1.
  unfold bind at 1. rewrite send_telegram_message_responds.
  cbn [market_ticks active_messages last_expired_id trace].
  unfold bind at 1. unfold bind at 1. rewrite send_telegram_message_responds.
  cbn [market_ticks active_messages last_expired_id trace].
  unfold bind at 1, set_last_expired_id.
  cbn [market_ticks active_messages last_expired_id trace].
  unfold bind at 1. rewrite delete_messages_responds.
  cbn [market_ticks active_messages last_expired_id trace].
  rewrite Hidle. unfold announcements, n. cbn [app].
  rewrite !length_app. cbn [length].
  repeat rewrite <- app_assoc. cbn [app].
  rewrite <- !Nat.add_assoc. reflexivity.
Qed.
End Cycle.

(** ** The claims on the notification cycle *)

(** C2: from an idle state with a selectable market, when every request
    gets an [ok] response with a message id (never 0, never twice the
    same), one cycle sends exactly three notifications (pre-alert, main,
    expiry), then deletes exactly the handles of the pre-alert and of the
    main signal; the expiry handle is kept, and the next cycle deletes it
    before it does anything else. *)
Theorem notification_cycle {F : Type} `{Arith F} (py_str : json → string)
    (ids : nat → Z) (st : state F) (market signal : string) (confidence : F) :
  (∀ i, ids i ≠ 0) →
  (∀ i j, ids i = ids j → i = j) →
  active_messages st = [] →
  select_loop py_str (market_ticks st) MARKETS (None, None, of_int 0)
  = Return (Some market, Some signal, confidence) →
  ∃ (entry_digit : option Z) (st1 : state F),
    fetch_and_analyze py_str (λ i, HttpOk (ids i)) st = (Return tt, st1) ∧
    trace st1
    = (trace st ++ expired_deletion st
       ++ announcements market signal entry_digit confidence
       ++ [DeleteMessage (ids (first_request st));
           DeleteMessage (ids (first_request st + 2)%nat)])%list ∧
    active_messages st1 = [] ∧
    last_expired_id st1 = Some (ids (first_request st + 4)%nat) ∧
    ids (first_request st) ≠ ids (first_request st + 4)%nat ∧
    ids (first_request st + 2)%nat ≠ ids (first_request st + 4)%nat ∧
    ∃ r st2 rest,
      fetch_and_analyze py_str (λ i, HttpOk (ids i)) st1 = (r, st2) ∧
      trace st2
      = (trace st1 ++ DeleteMessage (ids (first_request st + 4)%nat) :: rest)%list.
Proof.
  intros Hnz Hinj Hidle Hsel.
  set (net := λ i, HttpOk (ids i)).
  assert (Hnet : ∀ i e, net i ≠ Raises e) by (intros i e; discriminate).
  destruct (fetch_and_analyze_responds py_str net Hnet st market signal confidence
              Hidle Hsel) as (entry_digit & Hrun).
  fold (first_request st) in Hrun. cbn [net handle option_list app map] in Hrun.
  eexists entry_digit, _. split; [exact Hrun|]. cbn [trace active_messages last_expired_id].
  split; [reflexivity|]. split; [reflexivity|]. split; [reflexivity|].
  split; [intros Heq; apply Hinj in Heq; lia|].
  split; [intros Heq; apply Hinj in Heq; lia|].
  match goal with |- context [fetch_and_analyze _ _ ?s] => set (st1 := s) end.
  unfold fetch_and_analyze. unfold bind at 1.
  rewrite (delete_last_expired_responds net Hnet st1).
  assert (Hdel : expired_deletion st1 = [DeleteMessage (ids (first_request st + 4)%nat)]).
  { unfold expired_deletion, st1; cbn [last_expired_id truthy_id].
    destruct (Z.eqb_spec (ids (first_request st + 4)%nat) 0) as [Hz|_]; [|reflexivity].
    exfalso. exact (Hnz _ Hz). }
  rewrite Hdel.
  match goal with |- context [?rest_of_cycle ?s = (_, _)] =>
    match s with
    | mkState _ _ _ _ => destruct (rest_of_cycle s) as [r st2] eqn:Hrest
    end
  end.
  destruct (grows_fetch_and_analyze_rest py_str net _ _ _ Hrest) as (t & Ht).
  exists r, st2, t. split; [reflexivity|].
  rewrite Ht. cbn [trace]. rewrite <- app_assoc. reflexivity.
Qed.

Lemma notification_cycle_witness :
  ∃ (entry_digit : option Z) (st1 : state float),
    fetch_and_analyze str_scalar net_ok state_example = (Return tt, st1) ∧
    trace st1
    = (trace (state_example (F:=float)) ++ expired_deletion (state_example (F:=float))
       ++ announcements "R_25" "Even" entry_digit 0x1.1761292e4683cp+0%float
       ++ [DeleteMessage 101; DeleteMessage 103])%list ∧
    active_messages st1 = [] ∧
    last_expired_id st1 = Some 105 ∧
    ∃ r st2 rest,
      fetch_and_analyze str_scalar net_ok st1 = (r, st2) ∧
      trace st2 = (trace st1 ++ DeleteMessage 105 :: rest)%list.
Proof.
  destruct (notification_cycle (F:=float) str_scalar (λ i, 100 + Z.of_nat i)
              state_example "R_25" "Even" 0x1.1761292e4683cp+0%float)
    as (entry_digit & st1 & Hrun & Htrace & Hactive & Hexpired & _ & _ & Hnext).
  - intros i. lia.
  - intros i j. lia.
  - reflexivity.
  - vm_compute. reflexivity.
  - exists entry_digit, st1. repeat split; assumption.
Defined.

(** C6, as the code has it: from an idle state with a selectable market,
    when every request gets a response, [ok] or not, the cycle runs to its
    end without raising, whichever sends or deletes are refused.  A
    refused send gives no handle; all three notifications are attempted
    (so the expiry after a refused main signal); the final deletes are
    those of the handles that exist; the expiry handle kept is the one
    received, if any, and nothing is deleted for it when there is none.
    (A request that raises is not covered: nothing catches it.) *)
Theorem refused_requests_do_not_stop_cycle {F : Type} `{Arith F}
    (py_str : json → string) (net : nat → response)
    (st : state F) (market signal : string) (confidence : F) :
  (∀ i e, net i ≠ Raises e) →
  active_messages st = [] →
  select_loop py_str (market_ticks st) MARKETS (None, None, of_int 0)
  = Return (Some market, Some signal, confidence) →
  ∃ (entry_digit : option Z) (st1 : state F),
    fetch_and_analyze py_str net st = (Return tt, st1) ∧
    trace st1
    = (trace st ++ expired_deletion st
       ++ announcements market signal entry_digit confidence
       ++ map DeleteMessage
            (option_list (handle (net (first_request st)))
             ++ option_list (handle (net (first_request st + 2)%nat))))%list ∧
    active_messages st1 = [] ∧
    last_expired_id st1 = handle (net (first_request st + 4)%nat) ∧
    (handle (net (first_request st + 4)%nat) = None → expired_deletion st1 = []).
Proof.
  intros Hnet Hidle Hsel.
  destruct (fetch_and_analyze_responds py_str net Hnet st market signal confidence
              Hidle Hsel) as (entry_digit & Hrun).
  fold (first_request st) in Hrun.
  eexists entry_digit, _. split; [exact Hrun|].
  cbn [trace active_messages last_expired_id].
  split; [reflexivity|]. split; [reflexivity|]. split; [reflexivity|].
  intros Hnone. unfold expired_deletion. cbn [last_expired_id].
  rewrite Hnone. reflexivity.
Qed.

Lemma net_main_rejected_responds : ∀ i e, net_main_rejected i ≠ Raises e.
Proof.
  intros i e. unfold net_main_rejected, net_ok.
  destruct (i =? 3)%nat; discriminate.
Qed.

Lemma refused_requests_do_not_stop_cycle_witness :
  ∃ (entry_digit : option Z) (st1 : state float),
    fetch_and_analyze str_scalar net_main_rejected state_example = (Return tt, st1) ∧
    trace st1
    = ([DeleteMessage 41]
       ++ announcements "R_25" "Even" entry_digit 0x1.1761292e4683cp+0%float
       ++ [DeleteMessage 101])%list ∧
    active_messages st1 = [] ∧
    last_expired_id st1 = Some 105.
Proof.
  destruct (refused_requests_do_not_stop_cycle (F:=float) str_scalar net_main_rejected
              state_example "R_25" "Even" 0x1.1761292e4683cp+0%float
              net_main_rejected_responds eq_refl)
    as (entry_digit & st1 & Hrun & Htrace & Hactive & Hexpired & _).
  - vm_compute. reflexivity.
  - exists entry_digit, st1. repeat split; assumption.
Defined.

(** C6, as stated, fails: when the request of the main signal raises
    (here [RequestException]), the exception leaves [fetch_and_analyze],
    and the expiry notification is never attempted. *)
Lemma raising_send_aborts_cycle :
  (fetch_and_analyze (F:=float) str_scalar net_main_raises state_example).1
  = Raise RequestException ∧
  trace (fetch_and_analyze (F:=float) str_scalar net_main_raises state_example).2
  = [ DeleteMessage 41; SendPhoto PreAlert; Sleep 60;
      SendPhoto (MainSignal "Volatility 25 Index" "Even" (Some 8)
                            0x1.1761292e4683cp+0%float) ].
Proof. split; vm_compute; reflexivity. Qed.

(** ** Outside the numeric quotes *)

(** A buffer of 30 quotes that print without a final digit (here the
    float nan) makes [analyze_market] raise [ValueError]: the hypothesis on
    the digits in the theorems above is needed. *)
Lemma analyze_market_nan_raises :
  analyze_market (F:=R) str_scalar "R_10" (repeat (JFloat PrimFloat.nan) 30)
  = Raise ValueError.
Proof. vm_compute. reflexivity. Qed.

(** ** A tie on binary64 *)

(** Thirty ticks 4: Even and Over 3 both score 1.4 / 1 on binary64 (the
    upper bound of the confidence, reached), Under 6 scores 1, Odd 0; the
    first of the two maxima, Even, is returned. *)
Lemma analyze_market_fours :
  strength (F:=float) (repeat 4 30) (volatility (repeat 4 30))
  = [ ("Even", 0x1.6666666666666p+0%float); ("Odd", 0%float);
      ("Over 3", 0x1.6666666666666p+0%float); ("Under 6", 1%float) ] ∧
  analyze_market (F:=float) str_scalar "R_75" (repeat (JInt 4) 30)
  = Return (Some ("Even", 0x1.6666666666666p+0%float)).
Proof. split; vm_compute; reflexivity. Qed.

(** * Further properties of the code *)

(** ** When [analyze_market] raises *)

Lemma rmap_raise {A B} (f : A → result B) (l : list A) (e : exn) :
  rmap f l = Raise e → ∃ x, x ∈ l ∧ f x = Raise e.
Proof.
  induction l as [|x l IH]; simpl; [discriminate|].
  destruct (f x) as [y|e'] eqn:Hx; cbn [rbind].
  - destruct (rmap f l) as [ys|e'] eqn:Hl; cbn [rbind]; [discriminate|].
    intros [= ->]. destruct (IH eq_refl) as (x' & Hin & Hx').
    exists x'. split; [right; exact Hin|exact Hx'].
  - intros [= ->]. exists x. split; [left|exact Hx].
Qed.

Lemma rmap_return {A B} (f : A → result B) (l : list A) :
  (∀ x, x ∈ l → ∃ y, f x = Return y) → ∃ ys, rmap f l = Return ys.
Proof.
  induction l as [|x l IH]; intros Hall; simpl; [eauto|].
  destruct (Hall x ltac:(left)) as (y & ->). cbn [rbind].
  destruct IH as (ys & ->); [intros x' Hx'; apply Hall; right; exact Hx'|].
  cbn [rbind]. eauto.
Qed.

Lemma last_digit_raise (py_str : json → string) (t : json) (e : exn) :
  last_digit py_str t = Raise e → e = ValueError ∨ e = IndexError.
Proof.
  unfold last_digit.
  assert (Hc : ∀ s e', py_last_char s = Raise e' → e' = IndexError).
  { induction s as [|c [|c' s'] IH]; simpl; intros e'; try discriminate.
    - intros [= <-]. reflexivity.
    - apply IH. }
  destruct (py_last_char (py_str t)) as [c|e'] eqn:Hlast; cbn [rbind].
  - unfold py_int_of_char.
    destruct (_ && _); [discriminate|]. intros [= <-]. left; reflexivity.
  - intros [= <-]. right. eapply Hc. exact Hlast.
Qed.

(** X1: with 30 ticks or more [analyze_market] raises exactly when some
    tick has no last digit; the exception is that of such a tick,
    [ValueError] (the print does not end in a digit) or [IndexError] (the
    print is empty), and nothing else in the function raises. *)
Theorem analyze_market_raises_iff {F : Type} `{Arith F}
    (py_str : json → string) (market : string) (ticks : list json) :
  (30 ≤ length ticks)%nat →
  (∀ e, analyze_market py_str market ticks = Raise e →
        (e = ValueError ∨ e = IndexError) ∧
        ∃ t, t ∈ ticks ∧ last_digit py_str t = Raise e) ∧
  ((∃ t e, t ∈ ticks ∧ last_digit py_str t = Raise e) →
   ∃ e, analyze_market py_str market ticks = Raise e).
Proof.
  intros Hlen. unfold analyze_market, len.
  destruct (Z.ltb_spec (Z.of_nat (length ticks)) 30) as [Hlt|_]; [lia|].
  destruct (last_digits_of py_str ticks) as [digits|e0] eqn:Hds; cbn [rbind].
  - assert (Hn : length digits = length ticks) by (apply rmap_length in Hds; exact Hds).
    rewrite pstdev_volatility by lia. cbn [rbind]. split.
    + intros e. unfold strength; cbn [py_max_item rbind]. discriminate.
    + intros (t & e & Hin & Ht). exfalso.
      assert (Hok : ∃ d, last_digit py_str t = Return d).
      { clear Hn Hlen. revert digits Hds. unfold last_digits_of.
        induction ticks as [|t0 ticks IH]; intros digits; simpl; [inversion Hin|].
        destruct (last_digit py_str t0) as [d0|e1] eqn:H0; cbn [rbind]; [|discriminate].
        destruct (rmap (last_digit py_str) ticks) as [ds|e1] eqn:Hr;
          cbn [rbind]; [|discriminate].
        intros _. apply elem_of_cons in Hin as [->|Hin]; [eauto|].
        eapply IH; [exact Hin|reflexivity]. }
      destruct Hok as (d & Hd). rewrite Hd in Ht. discriminate.
  - split.
    + intros e [= <-]. destruct (rmap_raise _ _ _ Hds) as (t & Hin & Ht).
      split; [eapply last_digit_raise; exact Ht|eauto].
    + intros _. eauto.
Qed.

Lemma analyze_market_raises_iff_witness :
  (30 ≤ length (repeat (JInt 4) 29 ++ [JStr "n/a"]))%nat ∧
  ∃ e, analyze_market (F:=R) str_scalar "R_10" (repeat (JInt 4) 29 ++ [JStr "n/a"])
       = Raise e.
Proof.
  assert (Hlen : (30 ≤ length (repeat (JInt 4) 29 ++ [JStr "n/a"]))%nat)
    by (vm_compute; lia).
  split; [exact Hlen|].
  apply (analyze_market_raises_iff (F:=R) str_scalar "R_10" _ Hlen).
  exists (JStr "n/a"), ValueError. split; [|reflexivity].
  apply elem_of_app. right. left.
Defined.

(** ** What [analyze_market] looks at *)

Lemma rmap_app {A B} (f : A → result B) (l1 l2 : list A) :
  rmap f (l1 ++ l2)
  = rbind (rmap f l1) (λ a, rbind (rmap f l2) (λ b, Return (a ++ b)%list)).
Proof.
  induction l1 as [|x l1 IH]; simpl.
  - destruct (rmap f l2); reflexivity.
  - destruct (f x) as [y|e]; cbn [rbind]; [|reflexivity].
    rewrite IH. destruct (rmap f l1) as [a|e]; cbn [rbind]; [|reflexivity].
    destruct (rmap f l2) as [b|e]; reflexivity.
Qed.

Lemma rmap_Permutation {A B} (f : A → result B) (l l' : list A) (ys : list B) :
  l ≡ₚ l' → rmap f l = Return ys → ∃ ys', rmap f l' = Return ys' ∧ ys ≡ₚ ys'.
Proof.
  intros Hperm. revert ys.
  induction Hperm as [|x l l' _ IH|x y l|l l' l'' _ IH1 _ IH2]; intros ys; simpl.
  - intros [= <-]. eauto.
  - destruct (f x) as [b|e]; cbn [rbind]; [|discriminate].
    destruct (rmap f l) as [bs|e]; cbn [rbind]; [|discriminate].
    intros [= <-]. destruct (IH bs eq_refl) as (bs' & -> & Hp). cbn [rbind].
    eexists; split; [reflexivity|]. constructor. exact Hp.
  - destruct (f y) as [b|e]; cbn [rbind]; [|discriminate].
    destruct (f x) as [a|e]; cbn [rbind]; [|discriminate].
    destruct (rmap f l) as [bs|e]; cbn [rbind]; [|discriminate].
    intros [= <-]. eexists; split; [reflexivity|]. constructor.
  - intros Hl. destruct (IH1 ys Hl) as (ys' & Hl' & Hp1).
    destruct (IH2 ys' Hl') as (ys'' & Hl'' & Hp2).
    exists ys''. split; [exact Hl''|]. etransitivity; eassumption.
Qed.

Lemma py_sum_bool_Permutation (P : Z → bool) (l l' : list Z) :
  l ≡ₚ l' → py_sum_bool (map P l) = py_sum_bool (map P l').
Proof.
  induction 1 as [|x l l' _ IH|x y l|l l' l'' _ IH1 _ IH2]; simpl; lia.
Qed.

Lemma py_sum_bool_app (bs bs' : list bool) :
  py_sum_bool (bs ++ bs') = py_sum_bool bs + py_sum_bool bs'.
Proof. induction bs as [|b bs IH]; simpl; lia. Qed.

Lemma py_last_n_app_r {A} (n : nat) (l recent : list A) :
  (n ≤ length recent)%nat → py_last_n n (l ++ recent) = py_last_n n recent.
Proof.
  intros Hn. unfold py_last_n. rewrite length_app.
  replace (length l + length recent - n)%nat
    with (length l + (length recent - n))%nat by lia.
  rewrite drop_app_add. reflexivity.
Qed.

(** The dict [strength] is the same for two windows that end alike and
    whose older digits are the same up to their order. *)
Lemma strength_Permutation {F : Type} `{Arith F}
    (older older' recent : list Z) (vol : F) :
  older ≡ₚ older' → (5 ≤ length recent)%nat →
  strength (older ++ recent) vol = strength (older' ++ recent) vol.
Proof.
  intros Hperm Hn. unfold strength.
  rewrite !py_last_n_app_r by exact Hn.
  unfold odd_count, even_count, over3_count, under6_count, len.
  rewrite !map_app, !py_sum_bool_app, !length_app.
  rewrite !(py_sum_bool_Permutation _ older older' Hperm).
  rewrite (Permutation_length Hperm). reflexivity.
Qed.

(** X2: [analyze_market] does not use its [market] argument, and of the
    ticks older than the last 20 it uses the last digits only, not their
    order: rearranging the older ticks, under any market name, gives the
    same signal and the same confidence. *)
Theorem analyze_market_older_ticks_order {F : Type} `{Arith F}
    (py_str : json → string) (market market' : string)
    (older older' recent : list json) (digits : list Z) :
  older ≡ₚ older' →
  (20 ≤ length recent)%nat →
  last_digits_of py_str (older ++ recent) = Return digits →
  analyze_market py_str market' (older' ++ recent)
  = analyze_market py_str market (older ++ recent).
Proof.
  intros Hperm Hn Hds.
  destruct (decide (length (older ++ recent) < 30)%nat) as [Hlt|Hge].
  { rewrite !analyze_market_below_30; [reflexivity|exact Hlt|].
    rewrite length_app, <- (Permutation_length Hperm), <- length_app. exact Hlt. }
  unfold last_digits_of in Hds. rewrite rmap_app in Hds.
  destruct (rmap (last_digit py_str) older) as [a|e] eqn:Ha; cbn [rbind] in Hds;
    [|discriminate].
  destruct (rmap (last_digit py_str) recent) as [r|e] eqn:Hr; cbn [rbind] in Hds;
    [|discriminate].
  injection Hds as <-.
  destruct (rmap_Permutation _ _ _ _ Hperm Ha) as (a' & Ha' & Hpa).
  assert (Hlr : length r = length recent) by (eapply rmap_length; exact Hr).
  rewrite (analyze_market_from_30 py_str market (older ++ recent) (a ++ r));
    [|lia|unfold last_digits_of; rewrite rmap_app, Ha, Hr; reflexivity].
  rewrite (analyze_market_from_30 py_str market' (older' ++ recent) (a' ++ r));
    [|rewrite length_app, <- (Permutation_length Hperm), <- length_app; lia
     |unfold last_digits_of; rewrite rmap_app, Ha', Hr; reflexivity].
  unfold volatility. rewrite !py_last_n_app_r by lia.
  rewrite (strength_Permutation a a' r _ Hpa) by lia. reflexivity.
Qed.

Lemma analyze_market_older_ticks_order_witness :
  analyze_market (F:=R) str_scalar "R_100"
    ((map JInt [8; 9; 0; 1; 3] ++ map JInt [1; 2; 3; 6; 7]) ++ repeat (JInt 5) 20)
  = analyze_market (F:=R) str_scalar "R_10"
      ((map JInt [1; 2; 3; 6; 7] ++ map JInt [8; 9; 0; 1; 3]) ++ repeat (JInt 5) 20).
Proof.
  apply (analyze_market_older_ticks_order (F:=R) str_scalar "R_10" "R_100"
           (map JInt [1; 2; 3; 6; 7] ++ map JInt [8; 9; 0; 1; 3])
           (map JInt [8; 9; 0; 1; 3] ++ map JInt [1; 2; 3; 6; 7])
           (repeat (JInt 5) 20)
           ([1; 2; 3; 6; 7; 8; 9; 0; 1; 3] ++ repeat 5 20)%list).
  - apply Permutation_app_comm.
  - simpl; lia.
  - vm_compute; reflexivity.
Defined.

(** ** What the handler of the feed can do to the state *)

(** Whatever the message, [on_message] either leaves the state as it was
    or returns after pushing one value on one existing buffer. *)
Lemma on_message_cases {F : Type} (json_loads : string → result json)
    (message : string) (st : state F) :
  (on_message json_loads message st).2 = st ∨
  ∃ key buf quote,
    market_ticks st !! key = Some buf ∧
    on_message json_loads message st
    = (Return tt, with_market_ticks st (<[key := pushed buf quote]> (market_ticks st))).
Proof.
  unfold on_message, bind, lift, get.
  destruct (json_loads message) as [data|e]; [|left; reflexivity].
  destruct (py_contains "tick" data) as [[|]|e]; [|left; reflexivity..].
  destruct (py_getitem data "tick") as [tick|e]; [|left; reflexivity].
  destruct (py_getitem tick "symbol") as [symbol|e]; [|left; reflexivity].
  destruct (py_getitem tick "quote") as [quote|e]; [|left; reflexivity].
  unfold ticks_getitem. destruct symbol as [| | | |s| |]; try (left; reflexivity).
  destruct (market_ticks st !! s) as [buf|] eqn:Hbuf; [|left; reflexivity].
  right. exists s, buf, quote. split; [exact Hbuf|].
  unfold pushed, set_market_ticks, with_market_ticks; simpl.
  destruct (len (buf ++ [quote]) >? 200); simpl; [|reflexivity].
  rewrite insert_insert_eq. reflexivity.
Qed.

Lemma on_messages_cons {F : Type} (json_loads : string → result json)
    (message : string) (messages : list string) (st : state F) :
  (on_messages json_loads (message :: messages) st).2 = (on_message json_loads message st).2
  ∨ (on_messages json_loads (message :: messages) st).2
    = (on_messages json_loads messages (on_message json_loads message st).2).2.
Proof.
  unfold on_messages; cbn [for_each]. unfold bind.
  destruct (on_message json_loads message st) as [[[]|e] st1]; [right|left]; reflexivity.
Qed.

(** A property of states that every step of the handler keeps is kept by
    the handler run on any sequence of messages, whether it returns or
    stops on an exception. *)
Lemma on_messages_invariant {F : Type} (json_loads : string → result json)
    (P : state F → Prop) :
  (∀ message st, P st → P (on_message json_loads message st).2) →
  ∀ messages st, P st → P (on_messages json_loads messages st).2.
Proof.
  intros Hstep messages. induction messages as [|message messages IH]; intros st HP.
  - exact HP.
  - destruct (on_messages_cons json_loads message messages st) as [-> | ->].
    + apply Hstep. exact HP.
    + apply IH. apply Hstep. exact HP.
Qed.

Lemma market_ticks_init_keys (s : string) :
  is_Some (market_ticks_init !! s) ↔ s ∈ MARKETS.
Proof.
  unfold market_ticks_init. split.
  - intros [buf Hbuf]. apply elem_of_list_to_map_2 in Hbuf.
    apply list_elem_of_In, in_map_iff in Hbuf as (m & [= <- _] & Hin).
    apply list_elem_of_In. exact Hin.
  - intros Hin. unfold MARKETS in Hin.
    repeat (apply elem_of_cons in Hin as [->|Hin]; [eexists; reflexivity|]).
    inversion Hin.
Qed.

(** X4: the buffers that exist are, at any time, those of the subscribed
    instruments: the handler never adds or removes a key of
    [market_ticks], whatever the messages and whether it returns or
    raises, and at start-up the keys are the instruments for which
    [subscribe_to_ticks] sends a subscription. *)
Theorem on_messages_keys {F : Type} (json_loads : string → result json)
    (messages : list string) (s : string) :
  (∀ st : state F,
      is_Some (market_ticks (on_messages json_loads messages st).2 !! s)
      ↔ is_Some (market_ticks st !! s)) ∧
  (is_Some (market_ticks (on_messages json_loads messages (idle_state (F:=F))).2 !! s)
   ↔ JDict [("ticks", JStr s)] ∈ subscribe_to_ticks).
Proof.
  assert (Hkeep : ∀ st : state F,
             is_Some (market_ticks (on_messages json_loads messages st).2 !! s)
             ↔ is_Some (market_ticks st !! s)).
  { intros st.
    apply (on_messages_invariant json_loads
             (λ st', is_Some (market_ticks st' !! s) ↔ is_Some (market_ticks st !! s)));
      [|reflexivity].
    intros message st1 HP.
    destruct (on_message_cases json_loads message st1)
      as [->|(key & buf & quote & Hbuf & ->)]; [exact HP|].
    rewrite <- HP. cbn [snd with_market_ticks market_ticks].
    rewrite lookup_insert. case_decide as Hk; [|reflexivity].
    subst key. rewrite Hbuf. split; eauto. }
  split; [exact Hkeep|].
  rewrite Hkeep. cbn [idle_state market_ticks]. rewrite market_ticks_init_keys.
  unfold subscribe_to_ticks. split.
  - intros Hin. apply list_elem_of_In, in_map_iff.
    exists s. split; [reflexivity|apply list_elem_of_In; exact Hin].
  - intros Hin. apply list_elem_of_In, in_map_iff in Hin as (m & [= ->] & Hin).
    apply list_elem_of_In. exact Hin.
Qed.

(** X5: no buffer ever exceeds 200 values, whatever arrives on the feed:
    texts that are not JSON, ticks of unknown instruments and quotes of
    any kind included, and whether the handler returns or raises. *)
Theorem on_messages_bounded {F : Type} (json_loads : string → result json)
    (messages : list string) (st : state F) :
  (∀ m buf, market_ticks st !! m = Some buf → (length buf ≤ 200)%nat) →
  ∀ m buf, market_ticks (on_messages json_loads messages st).2 !! m = Some buf →
           (length buf ≤ 200)%nat.
Proof.
  apply (on_messages_invariant json_loads
           (λ st', ∀ m buf, market_ticks st' !! m = Some buf → (length buf ≤ 200)%nat)).
  intros message st1 HP.
  destruct (on_message_cases json_loads message st1)
    as [->|(key & buf & quote & Hbuf & ->)]; [exact HP|].
  intros m b. cbn [snd with_market_ticks market_ticks].
  rewrite lookup_insert. case_decide as Hk.
  - intros [= <-]. apply pushed_length. exact (HP key buf Hbuf).
  - apply HP.
Qed.

Lemma on_messages_bounded_witness :
  ∃ buf,
    market_ticks (on_messages json_loads_example
                    (feed_example ++ [tick_text "BTC" "1"; "{}"] ++ feed_example)
                    (idle_state (F:=R))).2 !! "R_10" = Some buf ∧
    (length buf ≤ 200)%nat.
Proof.
  eexists. split; [vm_compute; reflexivity|].
  apply (on_messages_bounded json_loads_example
           (feed_example ++ [tick_text "BTC" "1"; "{}"] ++ feed_example)
           (idle_state (F:=R))) with (m := "R_10").
  - intros m buf Hbuf. apply elem_of_list_to_map_2 in Hbuf.
    apply list_elem_of_In, in_map_iff in Hbuf as (k & [= _ <-] & _). simpl; lia.
  - vm_compute; reflexivity.
Defined.

(** ** The globals each thread writes *)

Section Keeps.
Context {F B : Type}.
Variable f : state F → B.

Lemma keeps_ret {A} (a : A) : keeps f (ret a).
Proof. intros st r st' [= <- <-]. reflexivity. Qed.

Lemma keeps_raise {A} (e : exn) : keeps f (A:=A) (raise e).
Proof. intros st r st' [= <- <-]. reflexivity. Qed.

Lemma keeps_lift {A} (x : result A) : keeps f (lift x).
Proof. intros st r st' [= <- <-]. reflexivity. Qed.

Lemma keeps_get : keeps f get.
Proof. intros st r st' [= <- <-]. reflexivity. Qed.

Lemma keeps_bind {A C} (m : M F A) (k : A → M F C) :
  keeps f m → (∀ a, keeps f (k a)) → keeps f (bind m k).
Proof.
  intros Hm Hk st r st'. unfold bind.
  destruct (m st) as [[a|e] st1] eqn:Hrun.
  - intros Hrest. rewrite (Hk a _ _ _ Hrest). exact (Hm _ _ _ Hrun).
  - intros [= <- <-]. exact (Hm _ _ _ Hrun).
Qed.

Lemma keeps_for_each {A} (l : list A) (body : A → M F unit) :
  (∀ a, keeps f (body a)) → keeps f (for_each l body).
Proof.
  intros Hbody. induction l as [|x l IH]; simpl.
  - apply keeps_ret.
  - apply keeps_bind; [apply Hbody|intros _; exact IH].
Qed.
End Keeps.

Section KeepsTicks.
Context {F : Type} `{Arith F}.
Variable py_str : json → string.
Variable net : nat → response.

Lemma keeps_ticks_emit (e : event F) : keeps market_ticks (emit e).
Proof. intros st r st' [= <- <-]. reflexivity. Qed.

Lemma keeps_ticks_set_active_messages (l : list Z) :
  keeps (F:=F) market_ticks (set_active_messages l).
Proof. intros st r st' [= <- <-]. reflexivity. Qed.

Lemma keeps_ticks_set_last_expired_id (i : option Z) :
  keeps (F:=F) market_ticks (set_last_expired_id i).
Proof. intros st r st' [= <- <-]. reflexivity. Qed.

Lemma keeps_ticks_requests_post (e : event F) : keeps market_ticks (requests_post net e).
Proof.
  unfold requests_post.
  apply keeps_bind; [apply keeps_get|intros st].
  apply keeps_bind; [apply keeps_ticks_emit|intros _].
  destruct (net (length (trace st))); first [apply keeps_ret | apply keeps_raise].
Qed.

Lemma keeps_ticks_send_telegram_message (message : caption F) (keep : bool) :
  keeps market_ticks (send_telegram_message net message keep).
Proof.
  unfold send_telegram_message.
  apply keeps_bind; [apply keeps_ticks_requests_post|intros [msg_id| |e]];
    try apply keeps_ret.
  apply keeps_bind; [|intros _; apply keeps_ret].
  destruct keep; [apply keeps_ret|].
  apply keeps_bind; [apply keeps_get|intros st; apply keeps_ticks_set_active_messages].
Qed.

Lemma keeps_ticks_delete_messages : keeps (F:=F) market_ticks (delete_messages net).
Proof.
  unfold delete_messages. apply keeps_bind; [apply keeps_get|intros st].
  apply keeps_bind; [|intros _; apply keeps_ticks_set_active_messages].
  apply keeps_for_each; intros i.
  apply keeps_bind; [apply keeps_ticks_requests_post|intros _; apply keeps_ret].
Qed.

Lemma keeps_ticks_delete_last_expired : keeps (F:=F) market_ticks (delete_last_expired net).
Proof.
  unfold delete_last_expired. apply keeps_bind; [apply keeps_get|intros st].
  destruct (last_expired_id st) as [i|]; [|apply keeps_ret].
  destruct (truthy_id (Some i)); [|apply keeps_ret].
  apply keeps_bind; [apply keeps_ticks_requests_post|].
  intros _; apply keeps_ticks_set_last_expired_id.
Qed.

Lemma keeps_ticks_entry_digit_of (best_market : string) :
  keeps (F:=F) market_ticks (entry_digit_of py_str best_market).
Proof.
  unfold entry_digit_of. apply keeps_bind; [apply keeps_get|intros st].
  destruct (market_ticks st !! best_market) as [ticks|]; [|apply keeps_raise].
  destruct (last ticks) as [t|]; [|apply keeps_ret].
  apply keeps_bind; [apply keeps_lift|intros d; apply keeps_ret].
Qed.

Lemma keeps_ticks_fetch_and_analyze :
  keeps (F:=F) market_ticks (fetch_and_analyze py_str net).
Proof.
  unfold fetch_and_analyze.
  apply keeps_bind; [apply keeps_ticks_delete_last_expired|intros _].
  apply keeps_bind; [apply keeps_get|intros st].
  apply keeps_bind; [apply keeps_lift|intros [[bm bs] bc]].
  destruct (truthy_str bm) as [m|]; [|apply keeps_ret].
  destruct bs as [s|]; [|apply keeps_ret].
  repeat first [ apply keeps_ticks_send_telegram_message
               | apply keeps_ticks_delete_messages
               | apply keeps_ticks_entry_digit_of
               | apply keeps_ticks_emit
               | apply keeps_ticks_set_last_expired_id
               | apply keeps_bind; [|intros ?] ].
Qed.

Lemma keeps_ticks_schedule_signals (turns : nat) :
  keeps (F:=F) market_ticks (schedule_signals py_str net turns).
Proof.
  induction turns as [|turns IH]; cbn [schedule_signals].
  - apply keeps_ret.
  - apply keeps_bind; [apply keeps_ticks_fetch_and_analyze|intros _].
    apply keeps_bind; [apply keeps_ticks_emit|intros _; exact IH].
Qed.
End KeepsTicks.

(** X6: the two threads write different globals.  The scheduler only
    reads the buffers: no number of turns of [schedule_signals] changes
    [market_ticks], whether the turns return or an exception ends them.
    The handler of the feed never touches [active_messages] or
    [last_expired_id] and issues no request and no wait. *)
Theorem threads_write_apart {F : Type} `{Arith F} (py_str : json → string)
    (json_loads : string → result json) (net : nat → response) :
  (∀ turns, keeps market_ticks (schedule_signals py_str net turns)) ∧
  (∀ messages,
      keeps (F:=F) (λ st, (active_messages st, last_expired_id st, trace st))
            (on_messages json_loads messages)).
Proof.
  split; [apply keeps_ticks_schedule_signals|].
  intros messages. unfold on_messages. apply keeps_for_each. intros message st r st' Hrun.
  destruct (on_message_cases json_loads message st)
    as [Hsame|(key & buf & quote & _ & Heq)].
  - rewrite Hrun in Hsame. simpl in Hsame. subst st'. reflexivity.
  - rewrite Hrun in Heq. injection Heq as _ ->. reflexivity.
Qed.

(** ** What the selection can return *)

Section Selects.
Context {F : Type} `{Arith F}.
Variable py_str : json → string.

Lemma max_from_in (rest : list (string * F)) :
  ∀ best, max_from best rest ∈ best :: rest.
Proof.
  induction rest as [|kv rest IH]; intros best; simpl.
  - left.
  - specialize (IH (if fgt kv.2 best.2 then kv else best)).
    apply elem_of_cons in IH as [->|Hin].
    + destruct (fgt kv.2 best.2); [right; left|left].
    + right; right; exact Hin.
Qed.

Lemma py_max_item_in (d : list (string * F)) (kv : string * F) :
  py_max_item d = Return kv → kv ∈ d.
Proof.
  destruct d as [|kv0 rest]; [discriminate|]. cbn [py_max_item].
  intros Heq. injection Heq as <-. apply max_from_in.
Qed.

Lemma analyze_market_signal (market signal : string) (ticks : list json) (confidence : F) :
  analyze_market py_str market ticks = Return (Some (signal, confidence)) →
  (30 ≤ length ticks)%nat ∧ signal ∈ ["Even"; "Odd"; "Over 3"; "Under 6"].
Proof.
  unfold analyze_market, len.
  destruct (Z.ltb_spec (Z.of_nat (length ticks)) 30) as [Hlt|Hge]; [discriminate|].
  destruct (last_digits_of py_str ticks) as [digits|e]; cbn [rbind]; [|discriminate].
  destruct (pstdev (py_last_n 20 digits)) as [vol|e]; cbn [rbind]; [|discriminate].
  destruct (py_max_item (strength digits vol)) as [kv|e] eqn:Hmax;
    cbn [rbind]; [|discriminate].
  intros Heq. assert (Hkv : kv = (signal, confidence)) by congruence. subst kv.
  split; [lia|].
  apply py_max_item_in in Hmax.
  apply (list_elem_of_fmap_2 fst) in Hmax. exact Hmax.
Qed.

(** Nothing is scored when every buffer is below 30 ticks: the loop
    returns its accumulator. *)
Lemma select_loop_too_few (d : gmap string (list json)) (markets : list string) :
  (∀ market, market ∈ markets →
     ∃ ticks, d !! market = Some ticks ∧ (length ticks < 30)%nat) →
  ∀ best, select_loop py_str d markets best = Return best.
Proof.
  induction markets as [|market markets IH]; intros Hall best; [reflexivity|].
  destruct (Hall market ltac:(left)) as (ticks & Hd & Hlen).
  cbn [select_loop]. unfold select_step. rewrite Hd.
  rewrite (analyze_market_below_30 py_str market ticks Hlen). cbn [rbind].
  destruct (len ticks >? 20); cbn [rbind];
    apply IH; intros m Hm; apply Hall; right; exact Hm.
Qed.
End Selects.

(** X7: what the loop of [fetch_and_analyze] selects is always a
    configured instrument whose buffer holds at least 30 ticks, with the
    signal and the confidence [analyze_market] gives on that buffer, the
    signal being one of Even, Odd, Over 3, Under 6.  So the test
    [len(...) > 20] of the loop lets nothing through that the scorer's own
    threshold of 30 does not. *)
Theorem selected_market_scored {F : Type} `{Arith F} (py_str : json → string)
    (d : gmap string (list json)) (market : string) (signal : option string)
    (confidence : F) :
  select_loop py_str d MARKETS (None, None, of_int 0)
  = Return (Some market, signal, confidence) →
  market ∈ MARKETS ∧
  ∃ ticks best_signal,
    signal = Some best_signal ∧
    d !! market = Some ticks ∧ (30 ≤ length ticks)%nat ∧
    analyze_market py_str market ticks = Return (Some (best_signal, confidence)) ∧
    best_signal ∈ ["Even"; "Odd"; "Over 3"; "Under 6"].
Proof.
  intros Hsel.
  destruct (select_loop_origin py_str _ _ _ _ Hsel)
    as [[=]|(m & s & Hin & (ticks & Hd & _ & Ha) & Heq)].
  cbn [snd] in Ha, Heq. injection Heq as -> ->.
  destruct (analyze_market_signal py_str m s ticks confidence Ha) as [Hlen Hs].
  split; [exact Hin|]. exists ticks, s. repeat split; assumption.
Qed.

Lemma selected_market_scored_witness :
  "R_25" ∈ MARKETS ∧
  ∃ ticks best_signal,
    Some "Even" = Some best_signal ∧
    market_ticks_example !! "R_25" = Some ticks ∧ (30 ≤ length ticks)%nat ∧
    analyze_market str_scalar "R_25" ticks
    = Return (Some (best_signal, 0x1.1761292e4683cp+0%float)) ∧
    best_signal ∈ ["Even"; "Odd"; "Over 3"; "Under 6"].
Proof.
  apply (selected_market_scored (F:=float) str_scalar market_ticks_example).
  vm_compute. reflexivity.
Defined.

(** X8: while every buffer holds fewer than 30 ticks, as during the first
    ticks after start-up, a cycle is the deletion of the last expiry
    message and nothing else: no notification, no wait. *)
Theorem fetch_and_analyze_too_few {F : Type} `{Arith F} (py_str : json → string)
    (net : nat → response) (st : state F) :
  (∀ market, market ∈ MARKETS →
     ∃ ticks, market_ticks st !! market = Some ticks ∧ (length ticks < 30)%nat) →
  fetch_and_analyze py_str net st = delete_last_expired net st.
Proof.
  intros Hall. unfold fetch_and_analyze. unfold bind at 1.
  destruct (delete_last_expired net st) as [[[]|e] st1] eqn:Hdel; [|reflexivity].
  pose proof (keeps_ticks_delete_last_expired net _ _ _ Hdel) as Hticks.
  unfold bind at 1, get. unfold bind at 1, lift. rewrite Hticks.
  rewrite (select_loop_too_few py_str (market_ticks st) MARKETS Hall).
  reflexivity.
Qed.

Lemma fetch_and_analyze_too_few_witness :
  fetch_and_analyze (F:=R) str_scalar net_ok (mkState market_ticks_init [7] (Some 41) [])
  = delete_last_expired net_ok (mkState market_ticks_init [7] (Some 41) []).
Proof.
  apply (fetch_and_analyze_too_few (F:=R) str_scalar net_ok).
  intros market Hin. cbn [market_ticks]. unfold MARKETS in Hin.
  repeat (apply elem_of_cons in Hin as [->|Hin];
          [eexists; split; [reflexivity|simpl; lia]|]).
  inversion Hin.
Defined.

(** ** Equal confidences across markets *)

Section SelectsFirst.
Variable py_str : json → string.
Variable d : gmap string (list json).

(** The loop returns its accumulator or the first of the markets that
    reaches the greatest confidence. *)
Lemma select_loop_first (markets : list string) :
  ∀ best out : option string * option string * Q,
    select_loop py_str d markets best = Return out →
    out = best ∨
    ∃ l1 market l2 signal,
      markets = (l1 ++ market :: l2)%list ∧
      out = (Some market, Some signal, out.2) ∧
      (Q2R best.2 < Q2R out.2)%R ∧
      (∀ m s c, m ∈ l1 → scored py_str d m s c → (Q2R c < Q2R out.2)%R) ∧
      (∀ m s c, m ∈ l2 → scored py_str d m s c → (Q2R c <= Q2R out.2)%R).
Proof.
  induction markets as [|market markets IH]; intros best out; cbn [select_loop].
  - intros [= <-]. left; reflexivity.
  - destruct (select_step py_str d market best) as [best'|e] eqn:Hstep;
      cbn [rbind]; [|discriminate].
    intros Hloop.
    destruct (select_step_spec py_str d market best best' Hstep) as (Hs1 & Hs2 & Hs3).
    destruct (select_loop_spec py_str d markets best' out Hloop) as (_ & Hl2 & Hl3).
    destruct (IH best' out Hloop) as [->|(l1 & m & l2 & s & -> & Heq & Hlt & Hbefore & Hafter)].
    + destruct Hs1 as [->|(s & _ & Heq & Hlt)]; [left; reflexivity|].
      right. exists [], market, markets, s.
      split; [reflexivity|]. split; [exact Heq|]. split; [exact Hlt|].
      split; [intros m s' c Hin; inversion Hin|exact Hl3].
    + right. exists (market :: l1), m, l2, s.
      split; [reflexivity|]. split; [exact Heq|]. split; [lra|].
      split; [|exact Hafter].
      intros m' s' c Hin Hsc. apply elem_of_cons in Hin as [->|Hin].
      * specialize (Hs3 s' c Hsc). lra.
      * eapply Hbefore; eassumption.
Qed.
End SelectsFirst.

(** X9: among instruments of equal confidence the one listed first in
    [MARKETS] is selected, on binary64: every instrument listed before
    the selected one and scored has a strictly smaller confidence, every
    one listed after it has at most the same. *)
Theorem select_loop_earliest_best (py_str : json → string) (d : gmap string (list json))
    (market : string) (signal : option string) (confidence : Q) :
  select_loop py_str d MARKETS (None, None, of_int 0)
  = Return (Some market, signal, confidence) →
  ∃ l1 l2,
    MARKETS = (l1 ++ market :: l2)%list ∧
    (∀ m s c, m ∈ l1 → scored py_str d m s c → (c < confidence)%Q) ∧
    (∀ m s c, m ∈ l2 → scored py_str d m s c → (c <= confidence)%Q).
Proof.
  intros Hsel.
  destruct (select_loop_first py_str d MARKETS _ _ Hsel)
    as [Heq|(l1 & m & l2 & s & Hsplit & Heq & _ & Hbefore & Hafter)];
    [discriminate|].
  cbn [snd] in *.
  assert (Hm : m = market) by congruence. subst m.
  exists l1, l2. split; [exact Hsplit|]. split.
  - intros m s' c Hin Hsc. apply Rlt_Qlt. eapply Hbefore; eassumption.
  - intros m s' c Hin Hsc. apply Rle_Qle. eapply Hafter; eassumption.
Qed.

(** With the same ticks in the buffers of R_25 and R_75, R_25 is selected. *)
Lemma select_loop_tie_example :
  select_loop (F:=Q) str_scalar market_ticks_tie MARKETS (None, None, of_int 0)
  = Return (Some "R_25", Some "Even", 1228724187503119 # 1125899906842624) ∧
  scored (F:=Q) str_scalar market_ticks_tie "R_75" "Even"
    (1228724187503119 # 1125899906842624).
Proof.
  split; [vm_compute; reflexivity|].
  exists ticks_even. split; [reflexivity|]. split; [vm_compute; lia|].
  vm_compute. reflexivity.
Qed.

Lemma select_loop_earliest_best_witness :
  ∃ l1 l2,
    MARKETS = (l1 ++ "R_25" :: l2)%list ∧
    (∀ m s c, m ∈ l1 → scored str_scalar market_ticks_tie m s c →
              (c < 1228724187503119 # 1125899906842624)%Q) ∧
    (∀ m s c, m ∈ l2 → scored str_scalar market_ticks_tie m s c →
              (c <= 1228724187503119 # 1125899906842624)%Q).
Proof.
  apply (select_loop_earliest_best str_scalar market_ticks_tie "R_25" (Some "Even")).
  vm_compute. reflexivity.
Defined.

(** ** A quote that cannot be scored *)

Lemma rmap_raises_in {A B} (f : A → result B) (l : list A) (x : A) (e : exn) :
  x ∈ l → f x = Raise e → ∃ e', rmap f l = Raise e'.
Proof.
  intros Hin Hx. induction l as [|y l IH]; [inversion Hin|]. simpl.
  destruct (f y) as [b|e'] eqn:Hy; cbn [rbind]; [|eauto].
  apply elem_of_cons in Hin as [->|Hin]; [congruence|].
  destruct (IH Hin) as (e' & ->). cbn [rbind]. eauto.
Qed.

Lemma pushed_in (buf : list json) (quote : json) : quote ∈ pushed buf quote.
Proof.
  unfold pushed, len. rewrite length_app; simpl.
  destruct (Z.gtb_spec (Z.of_nat (length buf + 1)) 200) as [Hgt|_].
  - destruct buf as [|b buf]; [simpl in Hgt; lia|].
    simpl. rewrite drop_0. apply elem_of_app. right. left.
  - apply elem_of_app. right. left.
Qed.

Lemma pushed_length_ge (buf : list json) (quote : json) (n : nat) :
  (n ≤ length buf)%nat → (n < 200)%nat → (n < length (pushed buf quote))%nat.
Proof.
  intros Hn H200. unfold pushed, len. rewrite length_app; simpl.
  destruct (Z.gtb_spec (Z.of_nat (length buf + 1)) 200) as [Hgt|_].
  - rewrite length_drop, length_app; simpl. lia.
  - rewrite length_app; simpl. lia.
Qed.

Section BadQuote.
Context {F : Type} `{Arith F}.
Variable py_str : json → string.
Variable net : nat → response.

Lemma analyze_market_raises (market : string) (ticks : list json) (t : json) (e : exn) :
  (30 ≤ length ticks)%nat → t ∈ ticks → last_digit py_str t = Raise e →
  ∃ e', analyze_market py_str market ticks = Raise e'.
Proof.
  intros Hlen Hin Ht. unfold analyze_market, len.
  destruct (Z.ltb_spec (Z.of_nat (length ticks)) 30) as [Hlt|_]; [lia|].
  unfold last_digits_of.
  destruct (rmap_raises_in (last_digit py_str) ticks t e Hin Ht) as (e' & ->).
  cbn [rbind]. eauto.
Qed.

Lemma select_loop_raises (d : gmap string (list json)) (market : string)
    (ticks : list json) (e : exn) (markets : list string) :
  market ∈ markets → d !! market = Some ticks → (20 < length ticks)%nat →
  analyze_market py_str market ticks = Raise e →
  ∀ best, ∃ e', select_loop py_str d markets best = Raise e'.
Proof.
  intros Hin Hd Hlen Ha. induction markets as [|m markets IH]; [inversion Hin|].
  intros best. cbn [select_loop].
  destruct (select_step py_str d m best) as [best'|e'] eqn:Hstep; cbn [rbind]; [|eauto].
  apply elem_of_cons in Hin as [->|Hin]; [|apply IH; exact Hin].
  exfalso. unfold select_step, len in Hstep. rewrite Hd in Hstep.
  destruct (Z.gtb_spec (Z.of_nat (length ticks)) 20) as [_|Hle]; [|lia].
  rewrite Ha in Hstep. discriminate.
Qed.

(** [requests.post], whatever the network does. *)
Lemma requests_post_run (e : event F) (st : state F) :
  requests_post net e st
  = (match net (length (trace st)) with
     | Raises x => Raise x
     | r => Return r
     end,
     mkState (market_ticks st) (active_messages st) (last_expired_id st)
             (trace st ++ [e])).
Proof.
  unfold requests_post, bind, get, emit; simpl.
  destruct (net (length (trace st))); reflexivity.
Qed.

Lemma delete_last_expired_trace (st st' : state F) (r : result unit) :
  delete_last_expired net st = (r, st') →
  trace st' = (trace st ++ expired_deletion st)%list ∧
  market_ticks st' = market_ticks st ∧
  active_messages st' = active_messages st.
Proof.
  unfold delete_last_expired, expired_deletion, bind at 1, get.
  destruct (last_expired_id st) as [i|].
  - destruct (truthy_id (Some i)).
    + unfold bind. rewrite requests_post_run.
      destruct (net (length (trace st))); intros [= <- <-]; repeat split; reflexivity.
    + intros [= <- <-]. rewrite app_nil_r. repeat split; reflexivity.
  - intros [= <- <-]. rewrite app_nil_r. repeat split; reflexivity.
Qed.

(** When the loop over the markets raises, the cycle raises before any
    notification. *)
Lemma fetch_and_analyze_select_raises (st : state F) (e : exn) :
  select_loop py_str (market_ticks st) MARKETS (None, None, of_int 0) = Raise e →
  ∃ e' st', fetch_and_analyze py_str net st = (Raise e', st') ∧
            trace st' = (trace st ++ expired_deletion st)%list ∧
            active_messages st' = active_messages st.
Proof.
  intros Hsel. unfold fetch_and_analyze. unfold bind at 1.
  destruct (delete_last_expired net st) as [[[]|e0] st1] eqn:Hdel;
    destruct (delete_last_expired_trace _ _ _ Hdel) as (Htrace & Hticks & Hactive).
  - unfold bind at 1, get. unfold bind at 1, lift. rewrite Hticks, Hsel.
    exists e, st1. repeat split; assumption.
  - exists e0, st1. repeat split; assumption.
Qed.
End BadQuote.

(** X10: the handler stores any quote without looking at it, and one
    quote that does not print with a final digit (null, nan, a string)
    in a buffer of 30 ticks ends the scheduler: after such a tick of a
    configured instrument whose buffer held 29 values or more, the next
    cycle raises before it sends any notification, whatever the network
    does, and [schedule_signals] ends on that exception at this turn. *)
Theorem bad_quote_stops_scheduler {F : Type} `{Arith F} (py_str : json → string)
    (json_loads : string → result json) (net : nat → response)
    (message symbol : string) (quote : json) (st : state F) (buf : list json) (e : exn) :
  symbol ∈ MARKETS →
  loads_tick json_loads message (symbol, quote) →
  market_ticks st !! symbol = Some buf → (29 ≤ length buf)%nat →
  last_digit py_str quote = Raise e →
  ∃ st1, on_message json_loads message st = (Return tt, st1) ∧
    ∃ e' st2,
      fetch_and_analyze py_str net st1 = (Raise e', st2) ∧
      trace st2 = (trace st1 ++ expired_deletion st1)%list ∧
      ∀ turns, schedule_signals py_str net (S turns) st1 = (Raise e', st2).
Proof.
  intros Hin Hload Hbuf Hlen Hquote.
  pose proof (on_message_tick json_loads message (symbol, quote) st buf Hload Hbuf) as Hrun.
  cbn [fst snd] in Hrun.
  set (st1 := with_market_ticks st (<[symbol := pushed buf quote]> (market_ticks st))) in *.
  exists st1. split; [exact Hrun|].
  assert (Hd : market_ticks st1 !! symbol = Some (pushed buf quote)).
  { unfold st1; cbn [with_market_ticks market_ticks]. apply lookup_insert_eq. }
  assert (Hlen' : (29 < length (pushed buf quote))%nat)
    by (apply pushed_length_ge; lia).
  destruct (analyze_market_raises py_str symbol (pushed buf quote) quote e
              ltac:(lia) (pushed_in buf quote) Hquote) as (e1 & Ha).
  destruct (select_loop_raises py_str (market_ticks st1) symbol (pushed buf quote) e1
              MARKETS Hin Hd ltac:(lia) Ha (None, None, of_int 0)) as (e2 & Hsel).
  destruct (fetch_and_analyze_select_raises py_str net st1 e2 Hsel)
    as (e' & st2 & Hfetch & Htrace & _).
  exists e', st2. split; [exact Hfetch|]. split; [exact Htrace|].
  intros turns. cbn [schedule_signals]. unfold bind at 1. rewrite Hfetch. reflexivity.
Qed.

Lemma bad_quote_stops_scheduler_witness :
  ∃ st1,
    on_message json_loads_null (tick_text "R_25" "null") (ready_state (F:=float))
    = (Return tt, st1) ∧
    ∃ e' st2,
      fetch_and_analyze str_scalar net_ok st1 = (Raise e', st2) ∧
      trace st2 = (trace st1 ++ expired_deletion st1)%list ∧
      ∀ turns, schedule_signals str_scalar net_ok (S turns) st1 = (Raise e', st2).
Proof.
  apply (bad_quote_stops_scheduler (F:=float) str_scalar json_loads_null net_ok
           (tick_text "R_25" "null") "R_25" JNull ready_state ticks_even ValueError).
  - apply list_elem_of_In; simpl; right; left; reflexivity.
  - exists (tick_message "R_25" JNull). split; [reflexivity|].
    eexists; repeat split; reflexivity.
  - reflexivity.
  - vm_compute; lia.
  - reflexivity.
Defined.

(** ** A deletion that raises *)

Section Interrupted.
Context {F : Type} `{Arith F}.
Variable net : nat → response.

Lemma for_each_delete_until (ids : list Z) :
  ∀ st : state F,
    (∀ j e, (j < length ids)%nat → net (length (trace st) + j) ≠ Raises e) →
    for_each ids (λ msg_id, _ ← requests_post net (DeleteMessage msg_id); ret tt)%M st
    = (Return tt,
       mkState (market_ticks st) (active_messages st) (last_expired_id st)
               (trace st ++ map DeleteMessage ids)).
Proof.
  induction ids as [|i ids IH]; intros st Hnet; cbn [for_each map].
  - rewrite app_nil_r. destruct st; reflexivity.
  - unfold bind at 1. unfold bind at 1. rewrite requests_post_run.
    pose proof (Hnet 0%nat) as H0. rewrite Nat.add_0_r in H0.
    destruct (net (length (trace st))) as [z| |x] eqn:Hr;
      [| |exfalso; apply (H0 x); [simpl; lia|reflexivity]].
    all: unfold ret at 1; rewrite IH; cbn [market_ticks active_messages last_expired_id trace];
      [rewrite <- app_assoc; reflexivity|].
    all: intros j e Hj; rewrite length_app; cbn [length];
      replace (length (trace st) + 1 + j)%nat with (length (trace st) + S j)%nat by lia;
      apply Hnet; simpl; lia.
Qed.

Lemma for_each_delete_raises (l1 : list Z) (i : Z) (l2 : list Z) (e : exn) :
  ∀ st : state F,
    (∀ j e', (j < length l1)%nat → net (length (trace st) + j) ≠ Raises e') →
    net (length (trace st) + length l1) = Raises e →
    for_each (l1 ++ i :: l2)
      (λ msg_id, _ ← requests_post net (DeleteMessage msg_id); ret tt)%M st
    = (Raise e,
       mkState (market_ticks st) (active_messages st) (last_expired_id st)
               (trace st ++ map DeleteMessage (l1 ++ [i]))).
Proof.
  induction l1 as [|k l1 IH]; intros st Hnet Hraise; cbn [for_each map app].
  - simpl in Hraise. rewrite Nat.add_0_r in Hraise.
    unfold bind at 1. unfold bind at 1. rewrite requests_post_run, Hraise. reflexivity.
  - unfold bind at 1. unfold bind at 1. rewrite requests_post_run.
    pose proof (Hnet 0%nat) as H0. rewrite Nat.add_0_r in H0.
    destruct (net (length (trace st))) as [z| |x] eqn:Hr;
      [| |exfalso; apply (H0 x); [simpl; lia|reflexivity]].
    all: unfold ret at 1; rewrite IH;
      cbn [market_ticks active_messages last_expired_id trace];
      [rewrite <- app_assoc; reflexivity| |].
    all: try (intros j e' Hj; rewrite length_app; cbn [length];
      replace (length (trace st) + 1 + j)%nat with (length (trace st) + S j)%nat by lia;
      apply Hnet; simpl; lia).
    all: rewrite length_app; cbn [length];
      replace (length (trace st) + 1 + length l1)%nat
        with (length (trace st) + length (k :: l1))%nat by (simpl; lia);
      exact Hraise.
Qed.
End Interrupted.

(** X11: [delete_messages] stops at the first request that raises: the
    messages before it have been asked to be deleted, the ones after it
    are not, and [active_messages] is left as it was, with all its ids,
    those already deleted included. *)
Theorem delete_messages_interrupted {F : Type} `{Arith F} (net : nat → response)
    (st : state F) (l1 : list Z) (i : Z) (l2 : list Z) (e : exn) :
  active_messages st = (l1 ++ i :: l2)%list →
  (∀ j e', (j < length l1)%nat → net (length (trace st) + j)%nat ≠ Raises e') →
  net (length (trace st) + length l1)%nat = Raises e →
  delete_messages net st
  = (Raise e,
     mkState (market_ticks st) (active_messages st) (last_expired_id st)
             (trace st ++ map DeleteMessage (l1 ++ [i]))).
Proof.
  intros Hactive Hnet Hraise.
  unfold delete_messages, bind at 1, get. unfold bind at 1.
  rewrite Hactive at 1.
  rewrite (for_each_delete_raises net l1 i l2 e st Hnet Hraise). reflexivity.
Qed.

Lemma delete_messages_interrupted_witness :
  delete_messages (F:=R) net_main_raises
    (mkState market_ticks_init [5; 6; 7] None [Sleep 60; Sleep 180])
  = (Raise RequestException,
     mkState market_ticks_init [5; 6; 7] None
             [Sleep 60; Sleep 180; DeleteMessage 5; DeleteMessage 6]).
Proof.
  apply (delete_messages_interrupted (F:=R) net_main_raises
           (mkState market_ticks_init [5; 6; 7] None [Sleep 60; Sleep 180])
           [5] 6 [7] RequestException).
  - reflexivity.
  - intros j e' Hj. simpl in Hj. replace j with 0%nat by lia. discriminate.
  - reflexivity.
Defined.

(** ** Turns of the scheduler *)

Section Readings.
Context {F : Type}.
Variable net : nat → response.

Lemma obtained_app (t1 t2 : list (event F)) :
  ∀ i, obtained net i (t1 ++ t2)
       = (obtained net i t1 ++ obtained net (i + length t1) t2)%list.
Proof.
  induction t1 as [|ev t1 IH]; intros i; cbn [app obtained length].
  - rewrite Nat.add_0_r. reflexivity.
  - replace (i + S (length t1))%nat with (S i + length t1)%nat by lia.
    destruct ev; rewrite IH; [rewrite app_assoc|..]; reflexivity.
Qed.

Lemma deleted_app (t1 t2 : list (event F)) :
  deleted (t1 ++ t2) = (deleted t1 ++ deleted t2)%list.
Proof.
  induction t1 as [|ev t1 IH]; cbn [app deleted]; [reflexivity|].
  destruct ev; rewrite IH; reflexivity.
Qed.

Lemma slept_app (t1 t2 : list (event F)) :
  slept (t1 ++ t2) = slept t1 + slept t2.
Proof.
  induction t1 as [|ev t1 IH]; cbn [app slept]; [reflexivity|].
  destruct ev; rewrite IH; lia.
Qed.

Lemma obtained_deletes (ids : list Z) : ∀ i, obtained (F:=F) net i (map DeleteMessage ids) = [].
Proof. induction ids as [|k ids IH]; intros i; cbn [map obtained]; [reflexivity|apply IH]. Qed.

Lemma deleted_deletes (ids : list Z) : deleted (F:=F) (map DeleteMessage ids) = ids.
Proof. induction ids as [|k ids IH]; cbn [map deleted]; [reflexivity|rewrite IH; reflexivity]. Qed.

Lemma slept_deletes (ids : list Z) : slept (F:=F) (map DeleteMessage ids) = 0.
Proof. induction ids as [|k ids IH]; cbn [map slept]; [reflexivity|exact IH]. Qed.

Lemma expired_deletion_deletes (st : state F) :
  expired_deletion st
  = map DeleteMessage (if truthy_id (last_expired_id st)
                       then option_list (last_expired_id st) else []).
Proof.
  unfold expired_deletion. destruct (last_expired_id st) as [i|]; [|reflexivity].
  destruct (truthy_id (Some i)); reflexivity.
Qed.
End Readings.

Section Turn.
Context {F : Type} `{Arith F}.
Variable py_str : json → string.
Variable net : nat → response.

(** No request raises. *)
Hypothesis net_responds : ∀ i e, net i ≠ Raises e.

(** One cycle with a selected market, from any state. *)
Lemma fetch_and_analyze_selected (st : state F) (market signal : string) (confidence : F) :
  select_loop py_str (market_ticks st) MARKETS (None, None, of_int 0)
  = Return (Some market, Some signal, confidence) →
  let n := length (trace st ++ expired_deletion st) in
  ∃ ticks t digit,
    market_ticks st !! market = Some ticks ∧ last ticks = Some t ∧
    last_digit py_str t = Return digit ∧
    fetch_and_analyze py_str net st
    = (Return tt,
       mkState (market_ticks st) [] (handle (net (n + 4)%nat))
               (trace st ++ expired_deletion st
                ++ announcements market signal (Some digit) confidence
                ++ map DeleteMessage (active_messages st
                                      ++ option_list (handle (net n))
                                      ++ option_list (handle (net (n + 2)%nat))))).
Proof.
  intros Hsel n.
  destruct (select_loop_origin py_str _ _ _ _ Hsel)
    as [[=]|(m & s & Hin & Hsc & [= <- <-])]; simpl in Hsc.
  destruct (scored_last_digit py_str _ _ _ _ Hsc) as (ticks & t & digit & Hd & Hlast & Hdigit).
  exists ticks, t, digit. split; [exact Hd|]. split; [exact Hlast|]. split; [exact Hdigit|].
  unfold fetch_and_analyze. unfold bind at 1.
  rewrite (delete_last_expired_responds net net_responds).
  unfold bind at 1, get. unfold bind at 1, lift. cbn [market_ticks]. rewrite Hsel.
  rewrite (MARKETS_nonempty market Hin).
  unfold bind at 1. rewrite (send_telegram_message_responds net net_responds).
  unfold bind at 1, sleep, emit. cbn [market_ticks active_messages last_expired_id trace].
  unfold bind at 1, entry_digit_of. unfold bind at 1, get. cbn [market_ticks].
  rewrite Hd, Hlast. unfold bind at 1, lift. rewrite Hdigit. unfold ret at 1.
  unfold bind at 1. rewrite (send_telegram_message_responds net net_responds).
  cbn [market_ticks active_messages last_expired_id trace].
  unfold bind at 1. unfold bind at 1.
  rewrite (send_telegram_message_responds net net_responds).
  cbn [market_ticks active_messages last_expired_id trace].
  unfold bind at 1, set_last_expired_id.
  cbn [market_ticks active_messages last_expired_id trace].
  unfold bind at 1. rewrite (delete_messages_responds net net_responds).
  cbn [market_ticks active_messages last_expired_id trace].
  unfold announcements, n. cbn [app].
  rewrite !length_app. cbn [length].
  repeat rewrite <- app_assoc. cbn [app].
  rewrite <- !Nat.add_assoc. reflexivity.
Qed.

(** One cycle without a selected market: the loop raised, or it returned
    its initial accumulator. *)
Lemma fetch_and_analyze_unselected (st : state F) :
  (∀ market signal confidence,
      select_loop py_str (market_ticks st) MARKETS (None, None, of_int 0)
      ≠ Return (Some market, Some signal, confidence)) →
  fetch_and_analyze py_str net st
  = (rbind (select_loop py_str (market_ticks st) MARKETS (None, None, of_int 0))
           (λ _, Return tt),
     after_deletion st).
Proof.
  intros Hnone. unfold fetch_and_analyze. unfold bind at 1.
  rewrite (delete_last_expired_responds net net_responds). fold (after_deletion st).
  unfold bind at 1, get. unfold bind at 1, lift. cbn [market_ticks after_deletion].
  destruct (select_loop py_str (market_ticks st) MARKETS (None, None, of_int 0))
    as [[[bm bs] bc]|e] eqn:Hsel; [|reflexivity].
  destruct (select_loop_origin py_str _ _ _ _ Hsel)
    as [Heq|(m & s & _ & _ & Heq)].
  - injection Heq as -> -> ->. reflexivity.
  - cbn [snd] in Heq. injection Heq as -> ->.
    exfalso. exact (Hnone m s bc eq_refl).
Qed.
End Turn.

Section Settled.
Context {F : Type} `{Arith F}.
Variable py_str : json → string.
Variable net : nat → response.

Hypothesis net_responds : ∀ i e, net i ≠ Raises e.

(** No message has the id 0. *)
Hypothesis ids_nonzero : ∀ i, net i ≠ HttpOk 0.

Lemma select_loop_cases (d : gmap string (list json)) :
  (∃ market signal confidence,
      select_loop py_str d MARKETS (None, None, of_int 0)
      = Return (Some market, Some signal, confidence)) ∨
  (∀ market signal confidence,
      select_loop py_str d MARKETS (None, None, of_int 0)
      ≠ Return (Some market, Some signal, confidence)).
Proof.
  destruct (select_loop py_str d MARKETS (None, None, of_int 0))
    as [[[[m|] [s|]] c]|e]; [left; eauto|right; intros; discriminate..].
Qed.

Lemma settled_after_deletion (st : state F) :
  settled net st →
  settled net (after_deletion st) ∧ last_expired_id (after_deletion st) = None.
Proof.
  intros (Ha & Hz & Hp). unfold settled, after_deletion.
  cbn [active_messages last_expired_id trace].
  rewrite expired_deletion_deletes, obtained_app, deleted_app,
    obtained_deletes, deleted_deletes, app_nil_r.
  destruct (last_expired_id st) as [i|]; cbn [truthy_id].
  - destruct (Z.eqb_spec i 0) as [->|_]; [exfalso; apply Hz; reflexivity|].
    cbn [negb option_list]. rewrite app_nil_r.
    split; [|reflexivity]. split; [exact Ha|]. split; [discriminate|exact Hp].
  - cbn [option_list]. split; [|reflexivity].
    split; [exact Ha|]. split; [discriminate|]. rewrite app_nil_r. exact Hp.
Qed.

Lemma settled_sleep (st : state F) (seconds : Z) :
  settled net st → settled net (sleep seconds st).2.
Proof.
  intros (Ha & Hz & Hp). unfold settled, sleep, emit.
  cbn [snd active_messages last_expired_id trace].
  rewrite obtained_app, deleted_app. cbn [obtained deleted]. rewrite !app_nil_r.
  split; [exact Ha|]. split; [exact Hz|exact Hp].
Qed.

Lemma handle_nonzero (i : nat) : handle (net i) ≠ Some 0.
Proof.
  destruct (net i) as [z| |e] eqn:Hi; cbn [handle]; [|discriminate..].
  intros [= ->]. exact (ids_nonzero i Hi).
Qed.

Lemma fetch_and_analyze_settled (st : state F) :
  settled net st → settled net (fetch_and_analyze py_str net st).2.
Proof.
  intros Hst.
  destruct (settled_after_deletion st Hst) as [(_ & _ & Hp1) Hnone].
  destruct (select_loop_cases (market_ticks st)) as [(m & s & c & Hsel)|Hno].
  - destruct (fetch_and_analyze_selected py_str net net_responds st m s c Hsel)
      as (ticks & t & digit & _ & _ & _ & ->).
    destruct Hst as (Ha & _ & _). rewrite Ha.
    unfold after_deletion in Hp1, Hnone. cbn [trace last_expired_id] in Hp1, Hnone.
    rewrite Hnone in Hp1. cbn [option_list] in Hp1. rewrite app_nil_r in Hp1.
    set (t1 := (trace st ++ expired_deletion st)%list) in *.
    unfold settled. cbn [snd active_messages last_expired_id trace].
    split; [reflexivity|]. split; [apply handle_nonzero|].
    rewrite !app_assoc. fold t1. rewrite <- app_assoc.
    rewrite obtained_app, deleted_app, obtained_app, deleted_app,
      obtained_deletes, deleted_deletes. cbn [app].
    unfold announcements. cbn [obtained deleted app Nat.add].
    replace (length t1 + 2)%nat with (S (S (length t1))) by lia.
    replace (length t1 + 4)%nat with (S (S (S (S (length t1))))) by lia.
    rewrite !app_nil_r, Hp1, <- !app_assoc. reflexivity.
  - rewrite (fetch_and_analyze_unselected py_str net net_responds st Hno).
    cbn [snd]. apply settled_after_deletion. exact Hst.
Qed.
End Settled.

(** X12: no message is lost between turns.  When every request gets a
    response and no message id is 0, the scheduler keeps, after any
    number of turns and also if a turn ends on an exception of the
    selection: no transient message pending, and the ids obtained from
    all notifications so far are exactly those it asked to delete
    together with the one expiry id it retains. *)
Theorem schedule_signals_settled {F : Type} `{Arith F} (py_str : json → string)
    (net : nat → response) (turns : nat) (st : state F) :
  (∀ i e, net i ≠ Raises e) →
  (∀ i, net i ≠ HttpOk 0) →
  settled net st →
  settled net (schedule_signals py_str net turns st).2.
Proof.
  intros Hnet Hids. revert st.
  induction turns as [|turns IH]; intros st Hst; cbn [schedule_signals].
  - exact Hst.
  - pose proof (fetch_and_analyze_settled py_str net Hnet Hids st Hst) as H1.
    unfold bind at 1.
    destruct (fetch_and_analyze py_str net st) as [[[]|e] st1]; [|exact H1].
    cbn [snd] in H1. pose proof (settled_sleep net st1 60 H1) as H2.
    unfold bind at 1.
    destruct (sleep 60 st1) as [[[]|e] st2] eqn:Hsleep; cbn [snd] in H2; [|exact H2].
    apply IH. exact H2.
Qed.

Lemma schedule_signals_settled_witness :
  settled net_ok (schedule_signals (F:=float) str_scalar net_ok 2 ready_state).2.
Proof.
  apply (schedule_signals_settled (F:=float) str_scalar net_ok 2 ready_state).
  - intros i e. discriminate.
  - intros i. unfold net_ok. intros [= Hz]. lia.
  - split; [reflexivity|]. split; [discriminate|reflexivity].
Defined.

(** X13: the period of the scheduler.  When every request gets a response
    and the selection returns, a turn returns and has slept 330 seconds
    if a market was selected (60 before the main signal, 180 before the
    expiry notice, 30 before the clean-up, 60 at the end of the turn) and
    60 seconds if none was. *)
Theorem turn_sleeps {F : Type} `{Arith F} (py_str : json → string)
    (net : nat → response) (st : state F) (out : option string * option string * F) :
  (∀ i e, net i ≠ Raises e) →
  select_loop py_str (market_ticks st) MARKETS (None, None, of_int 0) = Return out →
  ∃ st', schedule_signals py_str net 1 st = (Return tt, st') ∧
         slept (trace st')
         = slept (trace st) + match out.1.1 with Some _ => 330 | None => 60 end.
Proof.
  intros Hnet Hout. cbn [schedule_signals]. unfold bind at 1.
  destruct (select_loop_cases py_str (market_ticks st)) as [(m & s & c & Hsel)|Hno].
  - destruct (fetch_and_analyze_selected py_str net Hnet st m s c Hsel)
      as (ticks & t & digit & _ & _ & _ & ->).
    rewrite Hsel in Hout. injection Hout as <-. cbn [fst].
    unfold bind, sleep, emit, ret. eexists. split; [reflexivity|].
    cbn [trace]. rewrite expired_deletion_deletes.
    rewrite !slept_app, !slept_deletes. unfold announcements. cbn [slept]. lia.
  - rewrite (fetch_and_analyze_unselected py_str net Hnet st Hno), Hout. cbn [rbind].
    unfold bind, sleep, emit, ret. eexists. split; [reflexivity|].
    unfold after_deletion. cbn [trace]. rewrite expired_deletion_deletes.
    rewrite !slept_app, !slept_deletes. cbn [slept].
    destruct (select_loop_origin py_str _ _ _ _ Hout)
      as [->|(m & s & _ & _ & Heq)]; [cbn [fst]; lia|].
    exfalso. rewrite Heq in Hout. exact (Hno m s _ Hout).
Qed.

Lemma turn_sleeps_witness :
  ∃ st', schedule_signals (F:=float) str_scalar net_ok 1 ready_state = (Return tt, st') ∧
         slept (trace st') = 330.
Proof.
  apply (turn_sleeps (F:=float) str_scalar net_ok ready_state
           (Some "R_25", Some "Even", 0x1.1761292e4683cp+0%float)).
  - intros i e. discriminate.
  - vm_compute. reflexivity.
Defined.

(** ** What the main signal shows *)





(** ** From the feed to the first signal *)

Lemma market_ticks_init_lookup (market : string) :
  market ∈ MARKETS → market_ticks_init !! market = Some [].
Proof.
  intros Hin. unfold MARKETS in Hin.
  repeat (apply elem_of_cons in Hin as [->|Hin]; [reflexivity|]).
  inversion Hin.
Qed.

Lemma last_digits_of_returns (py_str : json → string) (ticks : list json) :
  Forall (λ t, ∃ d, last_digit py_str t = Return d) ticks →
  ∃ digits, last_digits_of py_str ticks = Return digits.
Proof.
  intros Hall. apply rmap_return. intros t Hin.
  rewrite Forall_forall in Hall. apply Hall. exact Hin.
Qed.

Lemma quotes_of_digits (py_str : json → string) (symbol : string)
    (events : list (string * json)) :
  Forall (λ ev, ev.1 ∈ MARKETS ∧ ∃ d, last_digit py_str ev.2 = Return d) events →
  Forall (λ t, ∃ d, last_digit py_str t = Return d) (quotes_of symbol events).
Proof.
  intros Hall. unfold quotes_of. apply Forall_fmap.
  apply Forall_forall. intros ev Hin. apply list_elem_of_filter in Hin as [_ Hin].
  rewrite Forall_forall in Hall. exact (proj2 (Hall ev Hin)).
Qed.

(** X15: the first signal.  From start-up, once the feed has delivered
    ticks of configured instruments with numeric quotes, 30 or more of
    them for some instrument, the next cycle (every request getting a
    response) returns after sending the three notifications for an
    instrument that has 30 ticks or more; on binary64. *)
Theorem first_signal (py_str : json → string) (json_loads : string → result json)
    (net : nat → response) (messages : list string) (events : list (string * json))
    (market : string) :
  (∀ i e, net i ≠ Raises e) →
  Forall2 (loads_tick json_loads) messages events →
  Forall (λ ev, ev.1 ∈ MARKETS ∧ ∃ d, last_digit py_str ev.2 = Return d) events →
  market ∈ MARKETS → (30 ≤ length (quotes_of market events))%nat →
  ∃ (st1 st2 : state Q) selected signal digit confidence,
    on_messages json_loads messages idle_state = (Return tt, st1) ∧
    fetch_and_analyze py_str net st1 = (Return tt, st2) ∧
    trace st2
    = (announcements selected signal (Some digit) confidence
       ++ map DeleteMessage (option_list (handle (net 0%nat))
                             ++ option_list (handle (net 2%nat))))%list ∧
    selected ∈ MARKETS ∧ (30 ≤ length (quotes_of selected events))%nat.
Proof.
  intros Hnet Hloads Hevents Hin Hlen.
  assert (Hfeed : Forall2 (λ message ev,
             loads_tick json_loads message ev ∧
             is_Some (market_ticks (idle_state (F:=Q)) !! ev.1)) messages events).
  { clear Hlen. induction Hloads as [|message ev messages events Hload _ IH];
      [constructor|].
    apply Forall_cons in Hevents as [[Hev _] Hevents].
    constructor; [|apply IH; exact Hevents].
    split; [exact Hload|]. apply market_ticks_init_keys. exact Hev. }
  destruct (on_messages_ticks json_loads messages events idle_state Hfeed)
    as (d & Hrun & Hd).
  { intros m buf Hbuf. apply elem_of_list_to_map_2 in Hbuf.
    apply list_elem_of_In, in_map_iff in Hbuf as (k & [= _ <-] & _). simpl; lia. }
  assert (Hbuf : ∀ m, m ∈ MARKETS → d !! m = Some (py_last_n 200 (quotes_of m events))).
  { intros m Hm. rewrite Hd. cbn [idle_state market_ticks].
    rewrite (market_ticks_init_lookup m Hm). reflexivity. }
  assert (Hdigits : ∀ m, ∃ digits,
             last_digits_of py_str (py_last_n 200 (quotes_of m events)) = Return digits).
  { intros m. apply last_digits_of_returns. unfold py_last_n. apply Forall_drop.
    apply quotes_of_digits. exact Hevents. }
  assert (Hall : ∀ m, m ∈ MARKETS →
             ∃ ticks, d !! m = Some ticks ∧
                      ∃ r, analyze_market (F:=Q) py_str m ticks = Return r).
  { intros m Hm. exists (py_last_n 200 (quotes_of m events)).
    split; [apply Hbuf; exact Hm|].
    destruct (decide (length (py_last_n 200 (quotes_of m events)) < 30)%nat) as [Hlt|Hge].
    - exists None. apply analyze_market_below_30. exact Hlt.
    - destruct (Hdigits m) as (digits & Hds).
      assert (Hge' : (30 ≤ length (py_last_n 200 (quotes_of m events)))%nat) by lia.
      destruct (analyze_market_binary64 py_str m _ digits Hge' Hds)
        as (c & Ha & _).
      eexists. exact Ha. }
  destruct (select_loop_returns py_str d MARKETS (None, None, of_int 0) Hall)
    as (out & Hout).
  destruct (select_loop_spec py_str d MARKETS _ out Hout) as (Hcase & _ & Hmax).
  assert (Hsc : ∃ s c, scored py_str d market s c ∧ (0 < Q2R c)%R).
  { destruct (Hdigits market) as (digits & Hds).
    assert (Hl : (30 ≤ length (py_last_n 200 (quotes_of market events)))%nat)
      by (rewrite py_last_n_length_min; lia).
    destruct (analyze_market_binary64 py_str market _ digits Hl Hds)
      as (c & Ha & Hpos & _).
    exists (name c), (score c digits). split; [|lra].
    exists (py_last_n 200 (quotes_of market events)).
    split; [apply Hbuf; exact Hin|]. split; [lia|exact Ha]. }
  destruct Hsc as (s & c & Hsc & Hpos).
  pose proof (Hmax market s c Hin Hsc) as Hle.
  destruct Hcase as [->|(m1 & s1 & Hin1 & Hsc1 & Heq & _)];
    [cbn [snd] in Hle; change (Q2R (of_int 0)) with (Q2R 0) in Hle;
     rewrite RMicromega.Q2R_0 in Hle; lra|].
  set (st1 := with_market_ticks (idle_state (F:=Q)) d) in *.
  assert (Hsel : select_loop py_str (market_ticks st1) MARKETS (None, None, of_int 0)
                 = Return (Some m1, Some s1, out.2))
    by (rewrite <- Heq; exact Hout).
  destruct (fetch_and_analyze_selected py_str net Hnet st1 m1 s1 out.2 Hsel)
    as (ticks & t & digit & _ & _ & _ & Hfetch).
  eexists st1, _, m1, s1, digit, out.2.
  split; [exact Hrun|]. split; [exact Hfetch|].
  split; [reflexivity|]. split; [exact Hin1|].
  destruct Hsc1 as (ticks1 & Hd1 & _ & Ha1).
  rewrite (Hbuf m1 Hin1) in Hd1. injection Hd1 as <-.
  apply analyze_market_some in Ha1 as [Hge _].
  rewrite py_last_n_length_min in Hge. lia.
Qed.

Lemma first_signal_witness :
  ∃ (st1 st2 : state Q) selected signal digit confidence,
    on_messages json_loads_example feed_thirty idle_state = (Return tt, st1) ∧
    fetch_and_analyze str_scalar net_ok st1 = (Return tt, st2) ∧
    trace st2
    = (announcements selected signal (Some digit) confidence
       ++ map DeleteMessage (option_list (handle (net_ok 0%nat))
                             ++ option_list (handle (net_ok 2%nat))))%list ∧
    selected ∈ MARKETS ∧ (30 ≤ length (quotes_of selected events_thirty))%nat.
Proof.
  assert (Hload : loads_tick json_loads_example (tick_text "R_10" "7") ("R_10", JInt 7)).
  { exists (tick_message "R_10" (JInt 7)). split; [reflexivity|].
    eexists; repeat split; reflexivity. }
  assert (Hin : "R_10" ∈ MARKETS) by (apply list_elem_of_In; simpl; left; reflexivity).
  apply (first_signal str_scalar json_loads_example net_ok feed_thirty events_thirty "R_10").
  - intros i e. discriminate.
  - unfold feed_thirty, events_thirty. cbn [repeat].
    repeat (constructor; [exact Hload|]). constructor.
  - unfold events_thirty. cbn [repeat].
    repeat (constructor; [split; [exact Hin|exists 7; reflexivity]|]).
    constructor.
  - exact Hin.
  - vm_compute. lia.
Defined.
